(** * TensorPipeAgent: the connection / message-correlation engine

    A shallow embedding of [torch/csrc/distributed/rpc/tensorpipe_agent.cpp].

    The agent is callback driven: every transport primitive ([accept],
    [readDescriptor], [read], [write]) takes a continuation that the
    transport invokes later, on one of its own threads.  The embedding keeps
    the operations that are outstanding in the state, with their
    continuations in defunctionalised form (one constructor per lambda of
    the source, carrying what the lambda captures), and gives one function
    per method and per lambda.  An event of the environment (an operation
    completes, a worker thread picks a task, a caller invokes [send])
    selects the function to run. *)

From Stdlib Require Import ZArith String Ascii Lia.
From Stdlib.Strings Require Import Byte.
From stdpp Require Import base option list gmap strings pretty.

Local Open Scope Z_scope.
Local Open Scope string_scope.
Local Open Scope list_scope.

(** ** Results of a callback

    A callback either runs to its end, or is cut short, in which case
    nothing after that point is executed: by a [TORCH_INTERNAL_ASSERT] that
    fails, or by the completion of a cell that is complete already.  The
    other two failures say that an event does not apply to a state: it
    completes an operation that is not outstanding, or it reaches for a cell
    or a connection that does not exist, which shared pointers and
    references into [connectedPipes_] (never erased from) exclude. *)

Inductive Failure : Type :=
  | InternalAssert (msg : string)
  | AlreadyCompleted
  | DanglingReference
  | NotOutstanding.

Inductive Result (A : Type) : Type :=
  | Ok (a : A)
  | Abort (f : Failure).
Arguments Ok {A} a.
Arguments Abort {A} f.

#[global] Instance Result_ret : MRet Result := fun _ a => Ok a.
#[global] Instance Result_bind : MBind Result := fun _ _ k m =>
  match m with
  | Ok a => k a
  | Abort f => Abort f
  end.

Definition is_Ok {A} (r : Result A) : Prop := ∃ a, r = Ok a.

(** ** Integers of the source *)

(** [uint64_t]: the message id held by the callbacks, the key of the
    pending table and the counter [nextMessageID_] wrap around at 2^64. *)
Definition u64 (z : Z) : Z := z mod 2 ^ 64.

(** [worker_id_t]. *)
Abbreviation worker_id_t := Z (only parsing).

(** ** Messages *)

(** Modelled from the spec: the kind tag of a Message (message.h is not among
    the sources).  The spec names three kinds, request, response and
    exception; [UNKNOWN] is the kind of the default-constructed [Message()]
    that [pipeRead] hands to its continuation when the descriptor read
    fails. *)
Inductive MessageType : Type := REQUEST | RESPONSE | EXCEPTION | UNKNOWN.

#[global] Instance MessageType_eq_dec : EqDecision MessageType.
Proof. solve_decision. Defined.

(** A tensor of a message, as far as the agent looks at it: the address of
    its storage ([data_ptr()]) and the size of that storage. *)
Record Tensor : Type := mkTensor {
  data_ptr : Z;
  nbytes : Z;
}.

(** Modelled from the spec: Message (message.h is not among the sources), a
    kind tag, a numeric id, an opaque payload and the buffers transferred
    separately.  [payload_data] is the address of the payload's storage,
    [payload().data()]; a move of the message keeps it. *)
Record Message : Type := mkMessage {
  payload_ : list byte;
  payload_data : Z;
  tensors_ : list Tensor;
  type_ : MessageType;
  id_ : Z;
}.

#[global] Instance byte_eq_dec : EqDecision byte := Byte.byte_eq_dec.

#[global] Instance Tensor_eq_dec : EqDecision Tensor.
Proof. solve_decision. Defined.

#[global] Instance Message_eq_dec : EqDecision Message.
Proof. solve_decision. Defined.

(** [Message()]. *)
Definition emptyMessage : Message :=
  {| payload_ := []; payload_data := 0; tensors_ := [];
     type_ := UNKNOWN; id_ := 0 |}.

(** Modelled from the spec: [isRequest()], the message is of the request
    kind. *)
Definition isRequest (m : Message) : bool :=
  bool_decide (type_ m = REQUEST).

(** [setId(id)]. *)
Definition setId (m : Message) (id : Z) : Message :=
  {| payload_ := payload_ m; payload_data := payload_data m;
     tensors_ := tensors_ m; type_ := type_ m; id_ := id |}.

(** Modelled from the spec: createExceptionResponse (utils.cpp is not among
    the sources).  An exception response carries a textual payload
    describing the failure and the id it is given. *)
Definition createExceptionResponse (exceptionStr : string) (id : Z) : Message :=
  {| payload_ := list_byte_of_string exceptionStr; payload_data := 0;
     tensors_ := []; type_ := EXCEPTION; id_ := id |}.

(** Modelled from the spec: what a move leaves of a Message (message.h is
    not among the sources): the payload and the tensors have gone with the
    move, the kind and the id are still there. *)
Definition moved (m : Message) : Message :=
  {| payload_ := []; payload_data := 0; tensors_ := [];
     type_ := type_ m; id_ := id_ m |}.

(** ** The transport's view of a message *)

Record TpTensor : Type := mkTpTensor {
  tt_data : Z;
  tt_length : Z;
}.

(** [tensorpipe::Message]: what a descriptor announces (the lengths) and what
    a read is given (the destination addresses). *)
Record TpMessage : Type := mkTpMessage {
  tp_metadata : string;
  tp_data : Z;
  tp_length : Z;
  tp_tensors : list TpTensor;
}.

Record TensorPipeEntry : Type := mkTensorPipeEntry {
  message : TpMessage;
  reservedTensors : list Tensor;
  copiedTensors : list (list byte);
}.

(** [tensorpipe::Error]: [None] is success, [Some what] an error. *)
Abbreviation TpError := (option string) (only parsing).

(** ** The completion cell *)

Abbreviation PipeId := nat (only parsing).
Abbreviation FutureId := nat (only parsing).

(** The one callback this file registers on a completion cell: the lambda
    of [respond] that captures [pipe], [futureResponseMessage] and
    [messageId]. *)
Inductive Callback : Type :=
  | SendCompleted (pipe : PipeId) (futureResponseMessage : FutureId)
      (messageId : Z).

(** Modelled from the spec: the state of a FutureMessage (utils/future.h
    is not among the sources), a single-assignment completion cell: not yet
    complete, complete with a response Message, or complete with an error
    description.  The state says how the cell was completed, and is
    assigned once. *)
Inductive Completion : Type :=
  | Incomplete
  | Value (value : Message)
  | Error (errorMsg : string).

(** Modelled from the spec: FutureMessage, the state of the cell, the
    Message it holds and the callbacks waiting for its completion.  The
    Message is a default-constructed one until the cell is completed with a
    response; the agent reaches it by reference ([moveValue]), stamps it
    where it is and moves it out, so what the cell holds can change after
    the completion. *)
Record FutureMessage : Type := mkFuture {
  state_ : Completion;
  value_ : Message;
  callbacks_ : list Callback;
}.

#[global] Instance Callback_eq_dec : EqDecision Callback.
Proof. solve_decision. Defined.

#[global] Instance Completion_eq_dec : EqDecision Completion.
Proof. solve_decision. Defined.

#[global] Instance FutureMessage_eq_dec : EqDecision FutureMessage.
Proof. solve_decision. Defined.

(** Modelled from the spec: the operations of FutureMessage the agent
    uses.  The cell is assigned once: [markCompleted] and [setError] are
    defined on a cell that is not complete, where they assign it and hand
    back the callbacks to fire; on a complete cell they fail. *)
Module Future.

(** [std::make_shared<FutureMessage>()]. *)
Definition make : FutureMessage :=
  {| state_ := Incomplete; value_ := emptyMessage; callbacks_ := [] |}.

Definition completed (f : FutureMessage) : bool :=
  match state_ f with
  | Incomplete => false
  | _ => true
  end.

Definition error (f : FutureMessage) : option string :=
  match state_ f with
  | Error errorMsg => Some errorMsg
  | _ => None
  end.

(** [moveValue() &&]: a reference to the Message the cell holds. *)
Definition moveValue (f : FutureMessage) : Message := value_ f.

(** An assignment through that reference: the cell holds [value]. *)
Definition setValue (value : Message) (f : FutureMessage) : FutureMessage :=
  {| state_ := state_ f; value_ := value; callbacks_ := callbacks_ f |}.

Definition markCompleted (value : Message) (f : FutureMessage)
  : Result (FutureMessage * list Callback) :=
  if completed f then Abort AlreadyCompleted
  else Ok ({| state_ := Value value; value_ := value; callbacks_ := [] |},
           callbacks_ f).

Definition setError (errorMsg : string) (f : FutureMessage)
  : Result (FutureMessage * list Callback) :=
  if completed f then Abort AlreadyCompleted
  else Ok ({| state_ := Error errorMsg; value_ := value_ f;
              callbacks_ := [] |},
           callbacks_ f).

(** A callback added to a complete cell is due at once. *)
Definition addCallback (cb : Callback) (f : FutureMessage)
  : FutureMessage * list Callback :=
  if completed f then (f, [cb])
  else ({| state_ := state_ f; value_ := value_ f;
           callbacks_ := callbacks_ f ++ [cb] |}, []).

Definition failedWith (what : string) (f : FutureMessage) : Prop :=
  state_ f = Error what.


End Future.

(** ** The agent *)

(** [WorkerInfo], with its members [name_] and [id_]. *)
Record WorkerInfo : Type := mkWorkerInfo {
  w_name_ : string;
  w_id_ : worker_id_t;
}.

(** [ClientPipe]: the outbound connection to one peer. *)
Record ClientPipe : Type := mkClientPipe {
  pipe_ : PipeId;
  readError_ : bool;
  pendingResponseMessage_ : gmap Z FutureId;
}.

(** The continuation of a [pipeRead]: the lambda of [respond] (it captures
    [pipe]) or the inner lambda of [send] (it captures [&clientPipe], a
    reference to the entry of [connectedPipes_] under the peer's id). *)
Inductive ReadFn : Type :=
  | RespondFn (pipe : PipeId)
  | ResponseFn (to : worker_id_t).

(** The continuation of a [pipeWrite]: the two lambdas of
    [sendCompletedResponseMessage] and the outer lambda of [send] (it
    captures [&clientPipe] and [futureResponseMessage]). *)
Inductive WriteFn : Type :=
  | ResponseWrittenFn
  | ErrorResponseWrittenFn
  | RequestWrittenFn (to : worker_id_t) (futureResponseMessage : FutureId).

(** An operation handed to the transport and not yet completed, with what
    its completion lambda captures. *)
Inductive Operation : Type :=
  | AcceptOp
  | ReadDescriptorOp (pipe : PipeId) (fn : ReadFn)
  | ReadOp (pipe : PipeId) (tpMessage : TpMessage) (rpcMessage : Message)
      (fn : ReadFn)
  | WriteOp (pipe : PipeId) (tpMessage : TpMessage) (rpcMessage : Message)
      (reserved : list Tensor) (copied : list (list byte)) (fn : WriteFn).

(** A task queued on [threadPool_]: the lambda of [respond] that runs the
    user callback, and the lambda of [send] that completes a handle. *)
Inductive Task : Type :=
  | ServeTask (pipe : PipeId) (messageId : Z) (requestMessage : Message)
  | CompleteTask (futureResponseMessage : FutureId) (responseMessage : Message).

(** How a pipe of the context came to be. *)
Inductive PipeOrigin : Type :=
  | Connected (url : string)
  | Accepted.

#[global] Instance PipeOrigin_eq_dec : EqDecision PipeOrigin.
Proof. solve_decision. Defined.

Record State : Type := mkState {
  rpcAgentRunning_ : bool;
  workerInfo_ : WorkerInfo;
  workerNameToURL_ : gmap string string;
  connectedPipes_ : gmap Z ClientPipe;
  nextMessageID_ : Z;
  threadPool_ : list Task;
  (** the [FutureMessage] objects behind the shared pointers *)
  futures : list FutureMessage;
  (** the pipes [context_] and [listener_] have handed out *)
  pipes : list PipeOrigin;
  (** the operations the transport has not completed yet *)
  operations : list Operation;
  (** what [LOG(WARNING)] has written *)
  warnings : list string;
}.

Definition set_connectedPipes (v : gmap Z ClientPipe) (s : State) : State :=
  mkState (rpcAgentRunning_ s) (workerInfo_ s) (workerNameToURL_ s) v
    (nextMessageID_ s) (threadPool_ s) (futures s) (pipes s) (operations s)
    (warnings s).

Definition set_nextMessageID (v : Z) (s : State) : State :=
  mkState (rpcAgentRunning_ s) (workerInfo_ s) (workerNameToURL_ s)
    (connectedPipes_ s) v (threadPool_ s) (futures s) (pipes s) (operations s)
    (warnings s).

Definition set_threadPool (v : list Task) (s : State) : State :=
  mkState (rpcAgentRunning_ s) (workerInfo_ s) (workerNameToURL_ s)
    (connectedPipes_ s) (nextMessageID_ s) v (futures s) (pipes s)
    (operations s) (warnings s).

Definition set_futures (v : list FutureMessage) (s : State) : State :=
  mkState (rpcAgentRunning_ s) (workerInfo_ s) (workerNameToURL_ s)
    (connectedPipes_ s) (nextMessageID_ s) (threadPool_ s) v (pipes s)
    (operations s) (warnings s).

Definition set_pipes (v : list PipeOrigin) (s : State) : State :=
  mkState (rpcAgentRunning_ s) (workerInfo_ s) (workerNameToURL_ s)
    (connectedPipes_ s) (nextMessageID_ s) (threadPool_ s) (futures s) v
    (operations s) (warnings s).

Definition set_operations (v : list Operation) (s : State) : State :=
  mkState (rpcAgentRunning_ s) (workerInfo_ s) (workerNameToURL_ s)
    (connectedPipes_ s) (nextMessageID_ s) (threadPool_ s) (futures s)
    (pipes s) v (warnings s).

Definition set_warnings (v : list string) (s : State) : State :=
  mkState (rpcAgentRunning_ s) (workerInfo_ s) (workerNameToURL_ s)
    (connectedPipes_ s) (nextMessageID_ s) (threadPool_ s) (futures s)
    (pipes s) (operations s) v.

Definition set_running (v : bool) (s : State) : State :=
  mkState v (workerInfo_ s) (workerNameToURL_ s)
    (connectedPipes_ s) (nextMessageID_ s) (threadPool_ s) (futures s)
    (pipes s) (operations s) (warnings s).

(** [LOG(WARNING) << msg]. *)
Definition warn (msg : string) (s : State) : State :=
  set_warnings (warnings s ++ [msg]) s.

(** Hands an operation to the transport. *)
Definition submit (op : Operation) (s : State) : State :=
  set_operations (operations s ++ [op]) s.

(** [threadPool_.run(task)]. *)
Definition threadPool_run (t : Task) (s : State) : State :=
  set_threadPool (threadPool_ s ++ [t]) s.

(** [std::make_shared<FutureMessage>()] and the like: a new cell. *)
Definition newFuture (f : FutureMessage) (s : State) : FutureId * State :=
  (length (futures s), set_futures (futures s ++ [f]) s).

(** What the user's request callback does with a request: it throws
    [what], or returns a completion cell that is complete already (with a
    response or with an error) or that user code completes later. *)
Inductive UserResult : Type :=
  | Throws (what : string)
  | Returns (outcome : option (string + Message)).

(** The cell a user callback returns. *)
Definition returned (outcome : option (string + Message)) : FutureMessage :=
  match outcome with
  | None => Future.make
  | Some (inl what) =>
      {| state_ := Error what; value_ := emptyMessage; callbacks_ := [] |}
  | Some (inr value) =>
      {| state_ := Value value; value_ := value; callbacks_ := [] |}
  end.

(** The external collaborators: the serialisation of a Message into the
    transport's buffers and the allocation of a Message for a descriptor
    (tensorpipe utilities, not among the sources), and the user's request
    callback [cb_]. *)
Class External : Type := {
  tensorpipeSerialize : Message → TensorPipeEntry;
  tensorpipeAllocateMessage : TpMessage → Message;
  cb_ : Message → UserResult;
}.

(** An exception thrown to the caller of [send]: [TORCH_CHECK] throws a
    [c10::Error], the stopped agent a [std::runtime_error]. *)
Inductive Exception : Type :=
  | C10Error (msg : string)
  | RuntimeError (msg : string).

(** An event of the environment: a caller calls [send]; the transport
    completes the [n]-th outstanding operation, with or without an error (a
    descriptor comes with what it announces, a read with the bytes it
    moved); a worker thread takes the [n]-th task of the pool; user code
    completes a cell; the agent is signalled to stop (modelled from the
    spec: the running flag is cleared by the base class, which is not among
    the sources). *)
Inductive Event : Type :=
  | SendCall (toWorkerInfo : WorkerInfo) (requestMessage : Message)
  | AcceptDone (n : nat) (error : TpError)
  | DescriptorDone (n : nat) (error : TpError) (tpMessage : TpMessage)
  | ReadDone (n : nat) (error : TpError) (bytes : list byte)
  | WriteDone (n : nat) (error : TpError)
  | TaskRun (n : nat)
  | UserDone (fut : FutureId) (outcome : string + Message)
  | Stop.

Section Agent.
Context `{External}.
(** How [operator<<] prints a [MessageType] (message.h is not among the
    sources). *)
Variable showMessageType : MessageType → string.

(** *** pipeWrite and pipeRead *)

Definition pipeWrite (pipe : PipeId) (rpcMessage : Message) (fn : WriteFn)
    (s : State) : State :=
  let tpEntry := tensorpipeSerialize rpcMessage in
  let tpMessage := message tpEntry in
  (* Note: keep payload and tensors of rpcMessage alive. *)
  submit (WriteOp pipe tpMessage rpcMessage (reservedTensors tpEntry)
            (copiedTensors tpEntry) fn) s.

Definition pipeRead (pipe : PipeId) (fn : ReadFn) (s : State) : State :=
  submit (ReadDescriptorOp pipe fn) s.

(** One turn of the loop of [pipeRead] that fills in the pointers:
    [tpMessage.tensors[i].data = rpcMessage.tensors()[i].data_ptr()]. *)
Definition fillTensor (rpcMessage : Message) (tpTensors : list TpTensor)
    (i : nat) : list TpTensor :=
  match tensors_ rpcMessage !! i, tpTensors !! i with
  | Some rpcTensor, Some tpTensor =>
      <[i := {| tt_data := data_ptr rpcTensor;
                tt_length := tt_length tpTensor |}]> tpTensors
  | _, _ => tpTensors
  end.

Definition fillPointers (rpcMessage : Message) (tpMessage : TpMessage)
    : TpMessage :=
  {| tp_metadata := tp_metadata tpMessage;
     tp_data := payload_data rpcMessage;
     tp_length := tp_length tpMessage;
     tp_tensors := foldl (fillTensor rpcMessage) (tp_tensors tpMessage)
                     (seq 0 (length (tensors_ rpcMessage))) |}.

(** What the transport leaves in the message of a read: the bytes it
    moved, written over the allocated payload. *)
Definition received (bytes : list byte) (rpcMessage : Message) : Message :=
  {| payload_ := take (length (payload_ rpcMessage))
                   (bytes ++ drop (length bytes) (payload_ rpcMessage));
     payload_data := payload_data rpcMessage;
     tensors_ := tensors_ rpcMessage;
     type_ := type_ rpcMessage;
     id_ := id_ rpcMessage |}.

(** *** The server side *)

(** The Message of the cell behind a shared pointer becomes [value]: by an
    assignment through the reference [moveValue] gives, or by a move out
    of it. *)
Definition holds (fut : FutureId) (value : Message) (s : State) : State :=
  set_futures (alter (Future.setValue value) fut (futures s)) s.

Definition sendCompletedResponseMessage (pipe : PipeId)
    (futureResponseMessage : FutureId) (messageId : Z) (s : State)
    : Result State :=
  if negb (rpcAgentRunning_ s) then
    Ok (warn "RPC agent is being closed. Skip sending rpc response" s)
  else
    match futures s !! futureResponseMessage with
    | None => Abort DanglingReference
    | Some f =>
        let error := Future.error f in
        (* [responseMessage] is the Message of the cell: it is stamped
           where it is *)
        let responseMessage := setId (Future.moveValue f) messageId in
        let s := holds futureResponseMessage responseMessage s in
        match error with
        | None =>
            (* and moved into the write *)
            let s := holds futureResponseMessage (moved responseMessage) s in
            Ok (pipeWrite pipe responseMessage ResponseWrittenFn s)
        | Some what =>
            Ok (pipeWrite pipe
                  (createExceptionResponse what (id_ responseMessage))
                  ErrorResponseWrittenFn s)
        end
    end.

Definition runCallback (cb : Callback) (s : State) : Result State :=
  match cb with
  | SendCompleted pipe futureResponseMessage messageId =>
      sendCompletedResponseMessage pipe futureResponseMessage messageId s
  end.

Fixpoint runCallbacks (cbs : list Callback) (s : State) : Result State :=
  match cbs with
  | [] => Ok s
  | cb :: cbs => s ← runCallback cb s; runCallbacks cbs s
  end.

(** A completion of the cell behind a shared pointer: the cell is
    assigned, then its callbacks run. *)
Definition complete
    (assign : FutureMessage → Result (FutureMessage * list Callback))
    (fut : FutureId) (s : State) : Result State :=
  match futures s !! fut with
  | None => Abort DanglingReference
  | Some f =>
      r ← assign f;
      runCallbacks r.2 (set_futures (<[fut := r.1]> (futures s)) s)
  end.

Definition setError (fut : FutureId) (errorMsg : string)
    : State → Result State :=
  complete (Future.setError errorMsg) fut.

Definition markCompleted (fut : FutureId) (value : Message)
    : State → Result State :=
  complete (Future.markCompleted value) fut.

Definition addCallback (fut : FutureId) (cb : Callback) (s : State)
    : Result State :=
  match futures s !! fut with
  | None => Abort DanglingReference
  | Some f =>
      let r := Future.addCallback cb f in
      runCallbacks r.2 (set_futures (<[fut := r.1]> (futures s)) s)
  end.

Definition respond (pipe : PipeId) (s : State) : State :=
  pipeRead pipe (RespondFn pipe) s.

Definition onListenerAccepted (error : TpError) (pipe : PipeId) (s : State)
    : State :=
  match error with
  | Some what => warn ("got error from listener: " +:+ what) s
  | None =>
      (* Accept the next connection request *)
      let s := submit AcceptOp s in
      (* Arm for server read *)
      respond pipe s
  end.

(** The lambda of [respond]. *)
Definition onRequestRead (pipe : PipeId) (error : TpError)
    (requestMessage : Message) (s : State) : State :=
  match error with
  | Some what => warn ("Server read message: " +:+ what) s
  | None =>
      (* Arm for next read *)
      let s := respond pipe s in
      let messageId := u64 (id_ requestMessage) in
      (* Defer user RPC UDF run to thread pool *)
      threadPool_run (ServeTask pipe messageId requestMessage) s
  end.

(** The task of [respond]. *)
Definition serve (pipe : PipeId) (messageId : Z) (requestMessage : Message)
    (s : State) : Result State :=
  r ← match cb_ requestMessage with
      | Returns outcome => Ok (newFuture (returned outcome) s)
      | Throws what =>
          let r := newFuture Future.make s in
          s ← setError r.1 what r.2; Ok (r.1, s)
      end;
  let futureResponseMessage := r.1 in
  let s := r.2 in
  match futures s !! futureResponseMessage with
  | None => Abort DanglingReference
  | Some f =>
      (* Shortcut if immediately done *)
      if Future.completed f then
        sendCompletedResponseMessage pipe futureResponseMessage messageId s
      else
        (* Not complete yet *)
        addCallback futureResponseMessage
          (SendCompleted pipe futureResponseMessage messageId) s
  end.

(** *** The client side *)

Definition alterPipe (to : worker_id_t) (g : ClientPipe → ClientPipe)
    (s : State) : State :=
  set_connectedPipes (alter g to (connectedPipes_ s)) s.

(** The loop of the read-error branch:
    [for (auto& p : pendingResponseMessage_) p.second->setError(what)]. *)
Fixpoint flush (handles : list FutureId) (what : string) (s : State)
    : Result State :=
  match handles with
  | [] => Ok s
  | futureMessage :: handles =>
      s ← setError futureMessage what s; flush handles what s
  end.

(** The inner lambda of [send]: a read on the connection to [to]
    completes. *)
Definition onResponseRead (to : worker_id_t) (error : TpError)
    (responseMessage : Message) (s : State) : Result State :=
  match connectedPipes_ s !! to with
  | None => Abort DanglingReference
  | Some clientPipe =>
      match error with
      | Some what =>
          let s := warn ("Read response error: " +:+ what) s in
          (* Flushing all future messages belonging to this pipe due to
             error state. *)
          s ← flush (map_to_list (pendingResponseMessage_ clientPipe)).*2
                what s;
          Ok (alterPipe to (λ cp, mkClientPipe (pipe_ cp) true ∅) s)
      | None =>
          (* Identify future response message by message ID *)
          let messageId := u64 (id_ responseMessage) in
          if readError_ clientPipe then
            Abort (InternalAssert "Shouldn't in error state")
          else
            match pendingResponseMessage_ clientPipe !! messageId with
            | None =>
                Abort (InternalAssert
                  ("message ID " +:+ pretty messageId
                     +:+ " is not recognized"))
            | Some futureResponseMessage =>
                let s := alterPipe to (λ cp,
                           mkClientPipe (pipe_ cp) (readError_ cp)
                             (delete messageId (pendingResponseMessage_ cp)))
                           s in
                Ok (threadPool_run
                      (CompleteTask futureResponseMessage responseMessage) s)
            end
      end
  end.

(** The task of the inner lambda of [send]. *)
Definition completeResponse (futureResponseMessage : FutureId)
    (responseMessage : Message) (s : State) : Result State :=
  if decide (type_ responseMessage = EXCEPTION) then
    setError futureResponseMessage
      (string_of_list_byte (payload_ responseMessage)) s
  else
    markCompleted futureResponseMessage responseMessage s.

(** The outer lambda of [send]: the write of the request completes. *)
Definition onRequestWritten (to : worker_id_t)
    (futureResponseMessage : FutureId) (error : TpError) (s : State)
    : Result State :=
  match error with
  | Some what =>
      let s := warn ("client write error: " +:+ what) s in
      setError futureResponseMessage what s
  | None =>
      match connectedPipes_ s !! to with
      | None => Abort DanglingReference
      | Some clientPipe => Ok (pipeRead (pipe_ clientPipe) (ResponseFn to) s)
      end
  end.

Definition findWorkerURL (worker : WorkerInfo) (s : State)
    : Exception + string :=
  match workerNameToURL_ s !! w_name_ worker with
  | None => inl (C10Error ("Unknown worker name: " +:+ w_name_ worker))
  | Some url => inr url
  end.

(** [context_->connect(url)]. *)
Definition connect (url : string) (s : State) : PipeId * State :=
  (length (pipes s), set_pipes (pipes s ++ [Connected url]) s).

Definition send (toWorkerInfo : WorkerInfo) (requestMessage : Message)
    (s : State) : Exception + (FutureId * State) :=
  if negb (isRequest requestMessage) then
    inl (C10Error "TensorPipeAgent::send(..) is only for sending requests.")
  else if negb (rpcAgentRunning_ s) then
    inl (RuntimeError
           ("Node " +:+ pretty (w_id_ (workerInfo_ s))
              +:+ "tried to send() a message of type "
              +:+ showMessageType (type_ requestMessage)
              +:+ " but RPC is no longer running on this node."))
  else
    match findWorkerURL toWorkerInfo s with
    | inl e => inl e
    | inr url =>
        (* See if we already have a connection to this address or not *)
        let it :=
          match connectedPipes_ s !! w_id_ toWorkerInfo with
          | Some clientPipe => (clientPipe, s)
          | None =>
              let r := connect url s in
              let clientPipe := mkClientPipe r.1 false ∅ in
              (clientPipe,
               set_connectedPipes
                 (<[w_id_ toWorkerInfo := clientPipe]> (connectedPipes_ r.2))
                 r.2)
          end in
        let clientPipe := it.1 in
        let r := newFuture Future.make it.2 in
        let futureResponseMessage := r.1 in
        let s := r.2 in
        let requestMessage := setId requestMessage (nextMessageID_ s) in
        let s := set_nextMessageID (u64 (nextMessageID_ s + 1)) s in
        let clientPipe :=
          mkClientPipe (pipe_ clientPipe) (readError_ clientPipe)
            (<[u64 (id_ requestMessage) := futureResponseMessage]>
               (pendingResponseMessage_ clientPipe)) in
        let s := set_connectedPipes
                   (<[w_id_ toWorkerInfo := clientPipe]> (connectedPipes_ s))
                   s in
        (* Don't need to hold lock while calling tensorpipe API. *)
        inr (futureResponseMessage,
             pipeWrite (pipe_ clientPipe) requestMessage
               (RequestWrittenFn (w_id_ toWorkerInfo) futureResponseMessage)
               s)
    end.

(** *** The environment

    An event completes an outstanding operation (the [n]-th of
    [operations]) with or without an error, lets a worker thread take the
    [n]-th task of the pool, lets user code complete a cell, calls [send],
    or signals the agent to stop. *)

Definition callReadFn (fn : ReadFn) (error : TpError) (rpcMessage : Message)
    (s : State) : Result State :=
  match fn with
  | RespondFn pipe => Ok (onRequestRead pipe error rpcMessage s)
  | ResponseFn to => onResponseRead to error rpcMessage s
  end.

Definition callWriteFn (fn : WriteFn) (error : TpError) (s : State)
    : Result State :=
  match fn, error with
  | ResponseWrittenFn, Some what =>
      Ok (warn ("sending response failed: " +:+ what) s)
  | ErrorResponseWrittenFn, Some what =>
      Ok (warn ("sending error response failed: " +:+ what) s)
  | ResponseWrittenFn, None | ErrorResponseWrittenFn, None => Ok s
  | RequestWrittenFn to futureResponseMessage, _ =>
      onRequestWritten to futureResponseMessage error s
  end.

(** The lambda [pipeRead] gives to [readDescriptor]. *)
Definition onDescriptor (pipe : PipeId) (fn : ReadFn) (error : TpError)
    (tpMessage : TpMessage) (s : State) : Result State :=
  match error with
  | Some _ => callReadFn fn error emptyMessage s
  | None =>
      (* Allocate memory and fill in pointers *)
      let rpcMessage := tensorpipeAllocateMessage tpMessage in
      if bool_decide (length (tensors_ rpcMessage)
                        = length (tp_tensors tpMessage)) then
        let tpMessage := fillPointers rpcMessage tpMessage in
        Ok (submit (ReadOp pipe tpMessage rpcMessage fn) s)
      else Abort (InternalAssert "Tensor num mismatch")
  end.

(** The lambda [pipeRead] gives to [read]. *)
Definition onRead (rpcMessage : Message) (fn : ReadFn) (error : TpError)
    (s : State) : Result State :=
  callReadFn fn error rpcMessage s.

Definition completed_op (n : nat) (s : State) : State :=
  set_operations (delete n (operations s)) s.

Definition runTask (t : Task) (s : State) : Result State :=
  match t with
  | ServeTask pipe messageId requestMessage =>
      serve pipe messageId requestMessage s
  | CompleteTask futureResponseMessage responseMessage =>
      completeResponse futureResponseMessage responseMessage s
  end.

Definition step (e : Event) (s : State) : Result State :=
  match e with
  | SendCall toWorkerInfo requestMessage =>
      match send toWorkerInfo requestMessage s with
      | inl _ => Ok s
      | inr r => Ok r.2
      end
  | AcceptDone n error =>
      match operations s !! n with
      | Some AcceptOp =>
          let s := completed_op n s in
          match error with
          | Some _ => Ok (onListenerAccepted error 0%nat s)
          | None =>
              let pipe := length (pipes s) in
              let s := set_pipes (pipes s ++ [Accepted]) s in
              Ok (onListenerAccepted None pipe s)
          end
      | _ => Abort NotOutstanding
      end
  | DescriptorDone n error tpMessage =>
      match operations s !! n with
      | Some (ReadDescriptorOp pipe fn) =>
          onDescriptor pipe fn error tpMessage (completed_op n s)
      | _ => Abort NotOutstanding
      end
  | ReadDone n error bytes =>
      match operations s !! n with
      | Some (ReadOp pipe tpMessage rpcMessage fn) =>
          onRead (received bytes rpcMessage) fn error (completed_op n s)
      | _ => Abort NotOutstanding
      end
  | WriteDone n error =>
      match operations s !! n with
      | Some (WriteOp pipe tpMessage rpcMessage reserved copied fn) =>
          callWriteFn fn error (completed_op n s)
      | _ => Abort NotOutstanding
      end
  | TaskRun n =>
      match threadPool_ s !! n with
      | Some t => runTask t (set_threadPool (delete n (threadPool_ s)) s)
      | None => Abort NotOutstanding
      end
  | UserDone fut (inl what) => setError fut what s
  | UserDone fut (inr value) => markCompleted fut value s
  | Stop => Ok (set_running false s)
  end.

Fixpoint run (es : list Event) (s : State) : Result State :=
  match es with
  | [] => Ok s
  | e :: es => s ← step e s; run es s
  end.

(** The request a call of [send] has just handed to [pipeWrite]. *)
Definition written (s : State) : option Message :=
  match last (operations s) with
  | Some (WriteOp _ _ rpcMessage _ _ (RequestWrittenFn _ _)) => Some rpcMessage
  | _ => None
  end.

(** The message id a call of [send] assigns, with the peer it is for. *)
Definition assigned (e : Event) (s : State) : list (Z * worker_id_t) :=
  match e with
  | SendCall toWorkerInfo requestMessage =>
      match send toWorkerInfo requestMessage s with
      | inr r =>
          match written r.2 with
          | Some rpcMessage => [(id_ rpcMessage, w_id_ toWorkerInfo)]
          | None => []
          end
      | inl _ => []
      end
  | _ => []
  end.

(** The ids assigned along a run, oldest first. *)
Fixpoint issued (es : list Event) (s : State) : list (Z * worker_id_t) :=
  match es with
  | [] => []
  | e :: es =>
      match step e s with
      | Ok s' => assigned e s ++ issued es s'
      | Abort _ => []
      end
  end.

End Agent.

(** The agent once [startImpl] has run: running, one accept outstanding,
    the url table filled from the address store.  Modelled from the spec:
    the initial values of the members (tensorpipe_agent.h is not among the
    sources), no connection, no task, the counter at its first id. *)
Definition started (self : WorkerInfo) (urls : gmap string string) : State :=
  {| rpcAgentRunning_ := true; workerInfo_ := self;
     workerNameToURL_ := urls; connectedPipes_ := ∅; nextMessageID_ := 0;
     threadPool_ := []; futures := []; pipes := [];
     operations := [AcceptOp]; warnings := [] |}.

(** ** The directory of workers *)

(** Modelled from the spec: the members [workerIdToInfo_] and
    [workerNameToInfo_] (tensorpipe_agent.h is not among the sources), the
    two tables behind [getWorkerInfo(name|id)] and [getWorkerInfos()]. *)
Record Directory : Type := mkDirectory {
  workerIdToInfo_ : gmap Z WorkerInfo;
  workerNameToInfo_ : gmap string WorkerInfo;
}.

(** [m.emplace(k, v)] and [m.insert({k, v})] on a map with unique keys: the
    element goes in unless the key is there already. *)
Definition emplace `{Countable K} {V : Type} (k : K) (v : V) (m : gmap K V)
    : gmap K V :=
  match m !! k with
  | Some _ => m
  | None => <[k := v]> m
  end.

(** The body of the constructor: the loop over [opts_.workerNameToId],
    given as the entries in the order the iteration visits them. *)
Definition TensorPipeAgent (workerNameToId : list (string * worker_id_t))
    : Directory :=
  foldl (λ d kv,
           let workerName := kv.1 in
           let workerId := kv.2 in
           {| workerIdToInfo_ :=
                emplace workerId (mkWorkerInfo workerName workerId)
                  (workerIdToInfo_ d);
              workerNameToInfo_ :=
                emplace workerName (mkWorkerInfo workerName workerId)
                  (workerNameToInfo_ d) |})
    (mkDirectory ∅ ∅) workerNameToId.

(** [getWorkerInfo(const std::string& workerName)]. *)
Definition getWorkerInfo (workerName : string) (d : Directory)
    : Exception + WorkerInfo :=
  match workerNameToInfo_ d !! workerName with
  | None => inl (C10Error ("Unknown destination worker " +:+ workerName))
  | Some info => inr info
  end.

(** [getWorkerInfo(worker_id_t workerId)]. *)
Definition getWorkerInfoById (workerId : worker_id_t) (d : Directory)
    : Exception + WorkerInfo :=
  match workerIdToInfo_ d !! workerId with
  | None =>
      inl (C10Error ("Unknown destination worker " +:+ pretty workerId))
  | Some info => inr info
  end.

(** [getWorkerInfos()]: the values of [workerNameToInfo_], in the order of
    its iteration. *)
Definition getWorkerInfos (d : Directory) : list WorkerInfo :=
  (map_to_list (workerNameToInfo_ d)).*2.

(** ** Start and shutdown *)

(** Modelled from the spec: the rendezvous store (c10d's Store is not among
    the sources), [set(key, bytes)] and [get(key) -> bytes].  The store is
    shared by the workers; a [get] of a key that no worker has set does not
    return. *)
Abbreviation Store := (gmap string (list byte)) (only parsing).

Definition set_workerNameToURL (v : gmap string string) (s : State) : State :=
  mkState (rpcAgentRunning_ s) (workerInfo_ s) v (connectedPipes_ s)
    (nextMessageID_ s) (threadPool_ s) (futures s) (pipes s) (operations s)
    (warnings s).

(** The loop of [startImpl] over [workerNameToInfo_]: the address of every
    worker is fetched from the store and put in [workerNameToURL_]. *)
Fixpoint fetchURLs (names : list string) (addressStore : Store)
    (workerNameToURL : gmap string string) : option (gmap string string) :=
  match names with
  | [] => Some workerNameToURL
  | name :: names =>
      nodeAddrData ← addressStore !! name;
      let nodeAddrStr := string_of_list_byte nodeAddrData in
      fetchURLs names addressStore (emplace name nodeAddrStr workerNameToURL)
  end.

(** [startImpl], [address] being the url the listener reports for the tcp
    transport: the agent stores its own url under its name, fetches the url
    of every worker of the directory and arms the first accept.  The result
    is the agent and the store as the agent leaves it. *)
Definition startImpl (address : string) (d : Directory)
    (addressStore : Store) (s : State) : option (State * Store) :=
  (* Store our own url. *)
  let selfAddrData := list_byte_of_string address in
  let addressStore := <[w_name_ (workerInfo_ s) := selfAddrData]> addressStore in
  workerNameToURL ← fetchURLs (map_to_list (workerNameToInfo_ d)).*1
                      addressStore (workerNameToURL_ s);
  Some (submit AcceptOp (set_workerNameToURL workerNameToURL s), addressStore).

(** Modelled from the spec: the agent as [startImpl] finds it (the
    initial values of the members: tensorpipe_agent.h is not among the
    sources): running, no url, no connection, nothing outstanding. *)
Definition created (self : WorkerInfo) : State :=
  {| rpcAgentRunning_ := true; workerInfo_ := self;
     workerNameToURL_ := ∅; connectedPipes_ := ∅; nextMessageID_ := 0;
     threadPool_ := []; futures := []; pipes := [];
     operations := []; warnings := [] |}.

(** [uint32_t]. *)
Definition u32 (z : Z) : Z := z mod 2 ^ 32.

(** [createUniqueShmAddr], on the thread whose id prints as [threadId] in
    the process [pid]: the address, and the thread's counter
    [threadLocalId] after the call. *)
Definition createUniqueShmAddr (threadId : string) (pid : Z)
    (threadLocalId : Z) : string * Z :=
  ("shm://tensorpipe_rpc_agent_" +:+ threadId +:+ "_" +:+ pretty pid
     +:+ "_" +:+ pretty threadLocalId,
   u32 (threadLocalId + 1)).

(** The addresses of [calls] successive calls on one thread. *)
Fixpoint shmAddrs (calls : nat) (threadId : string) (pid : Z)
    (threadLocalId : Z) : list string :=
  match calls with
  | O => []
  | S calls =>
      let r := createUniqueShmAddr threadId pid threadLocalId in
      r.1 :: shmAddrs calls threadId pid r.2
  end.

(** ** A concrete environment

    Collaborators to run the agent on: the serialisation puts the kind and
    the id of a message in the metadata of the descriptor (one letter for
    the kind, then as many marks as the id), the allocation reads them back
    and reserves the announced sizes, and the user callback answers a
    request with its own payload, throws on an empty one, and leaves its
    cell incomplete on a payload that starts with a zero byte. *)
Module Sample.

Definition tag (t : MessageType) : ascii :=
  match t with
  | REQUEST => "Q" | RESPONSE => "R" | EXCEPTION => "E" | UNKNOWN => "U"
  end%char.

Definition kind (a : ascii) : MessageType :=
  if Ascii.eqb a "Q" then REQUEST
  else if Ascii.eqb a "R" then RESPONSE
  else if Ascii.eqb a "E" then EXCEPTION
  else UNKNOWN.

Fixpoint marks (n : nat) : string :=
  match n with
  | O => EmptyString
  | S n => String "i" (marks n)
  end.

Definition serialize (m : Message) : TensorPipeEntry :=
  {| message :=
       {| tp_metadata := String (tag (type_ m)) (marks (Z.to_nat (id_ m)));
          tp_data := payload_data m;
          tp_length := Z.of_nat (length (payload_ m));
          tp_tensors := (λ t, mkTpTensor (data_ptr t) (nbytes t))
                          <$> tensors_ m |};
     reservedTensors := tensors_ m;
     copiedTensors := [] |}.

Definition allocate (tpMessage : TpMessage) : Message :=
  {| payload_ := replicate (Z.to_nat (tp_length tpMessage)) x00;
     payload_data := 4096;
     tensors_ := (λ t, mkTensor 8192 (tt_length t)) <$> tp_tensors tpMessage;
     type_ := match tp_metadata tpMessage with
              | String a _ => kind a
              | EmptyString => UNKNOWN
              end;
     id_ := match tp_metadata tpMessage with
            | String _ rest => Z.of_nat (String.length rest)
            | EmptyString => 0
            end |}.

Definition echo (requestMessage : Message) : UserResult :=
  match payload_ requestMessage with
  | [] => Throws "division by zero"
  | x00 :: _ => Returns None
  | _ =>
      Returns (Some (inr {| payload_ := payload_ requestMessage;
                            payload_data := 0; tensors_ := [];
                            type_ := RESPONSE; id_ := 0 |}))
  end.

#[export] Instance loopback : External :=
  {| tensorpipeSerialize := serialize;
     tensorpipeAllocateMessage := allocate;
     cb_ := echo |}.

(** An allocation that forgets the separate buffers. *)
Definition allocatePayloadOnly (tpMessage : TpMessage) : Message :=
  {| payload_ := replicate (Z.to_nat (tp_length tpMessage)) x00;
     payload_data := 4096; tensors_ := [];
     type_ := UNKNOWN; id_ := 0 |}.

Definition careless : External :=
  {| tensorpipeSerialize := serialize;
     tensorpipeAllocateMessage := allocatePayloadOnly;
     cb_ := echo |}.

Definition show (t : MessageType) : string := String (tag t) EmptyString.

Definition A : WorkerInfo := mkWorkerInfo "A" 0.
Definition B : WorkerInfo := mkWorkerInfo "B" 1.
Definition C : WorkerInfo := mkWorkerInfo "C" 2.

Definition urls : gmap string string :=
  <["B" := "tcp://127.0.0.1:2"]> (<["C" := "tcp://127.0.0.1:3"]> ∅).

Definition request (payload : list byte) : Message :=
  {| payload_ := payload; payload_data := 1024; tensors_ := [];
     type_ := REQUEST; id_ := 0 |}.

Definition ping : Message := request [x70; x69; x6e; x67].

Definition start : State := started A urls.

Definition nothing : TpMessage := mkTpMessage EmptyString 0 0 [].

(** The state a run from the start ends in. *)
Definition reach (es : list Event) : State :=
  match run show es start with
  | Ok s => s
  | Abort _ => start
  end.

(** Two requests to B are pending, the first one written and the read
    for its response armed. *)
Definition twoPending : list Event :=
  [SendCall B ping; SendCall B ping; WriteDone 1 None].

(** The read armed for the first response fails. *)
Definition severs : Event :=
  DescriptorDone 2 (Some "connection reset") nothing.

Definition severed : list Event := twoPending ++ [severs].

(** The first request to B is written and the read for its response
    armed; the write of the second request fails. *)
Definition writeFailed : list Event :=
  [SendCall B ping; WriteDone 1 None; SendCall B ping;
   WriteDone 2 (Some "broken pipe")].

(** The descriptor of a response to the request with id 0: a payload of
    two bytes and one separate buffer of sixteen. *)
Definition answer : TpMessage :=
  mkTpMessage "R" 0 2 [mkTpTensor 0 16].

(** One request to B is written and the data of its response awaited. *)
Definition answered : list Event :=
  [SendCall B ping; WriteDone 1 None; DescriptorDone 1 None answer].


(** The connection to B with the first request pending. *)
Definition onePending : ClientPipe := mkClientPipe 0 false {[0 := 0%nat]}.

(** The connection to B with two requests pending. *)
Definition bothPending : ClientPipe :=
  mkClientPipe 0 false (<[0 := 0%nat]> {[1 := 1%nat]}).

(** The descriptor of a request with id 3: no payload, which makes the
    user callback throw, or a payload of two bytes. *)
Definition ask (length : Z) : TpMessage := mkTpMessage "Qiii" 0 length [].

(** The descriptor of an exception response to the request with id 0. *)
Definition oops : TpMessage := mkTpMessage "E" 0 16 [].

Definition notARequest : Message :=
  {| payload_ := []; payload_data := 0; tensors_ := [];
     type_ := RESPONSE; id_ := 0 |}.

(** The options of a deployment of three workers. *)
Definition workers : list (string * Z) := [("A", 0); ("B", 1); ("C", 2)].

(** Options that give two workers one id. *)
Definition clashing : list (string * Z) := [("A", 0); ("B", 1); ("C", 1)].

(** The store once B and C have published their addresses. *)
Definition published : gmap string (list byte) :=
  <["B" := list_byte_of_string "tcp://127.0.0.1:2"]>
    (<["C" := list_byte_of_string "tcp://127.0.0.1:3"]> ∅).

Definition boot : option (State * gmap string (list byte)) :=
  startImpl "tcp://127.0.0.1:1" (TensorPipeAgent workers) published
    (created A).

(** The agent and the store after the start. *)
Definition booted : State :=
  match boot with
  | Some r => r.1
  | None => created A
  end.

Definition stored : gmap string (list byte) :=
  match boot with
  | Some r => r.2
  | None => ∅
  end.

(** The state a run from [s] ends in. *)
Definition reachFrom (s : State) (es : list Event) : State :=
  match run show es s with
  | Ok s' => s'
  | Abort _ => s
  end.

(** A request of two bytes has come in on the first inbound pipe, and the
    task that serves it is queued. *)
Definition asked : list Event :=
  [AcceptDone 0 None; DescriptorDone 1 None (ask 2);
   ReadDone 1 None [x6f; x6b]].

Definition D : WorkerInfo := mkWorkerInfo "D" 3.

(** The second request to B is written after the connection has failed,
    and the data of a response awaited. *)
Definition late : list Event :=
  severed ++ [WriteDone 1 None; DescriptorDone 1 None answer].

(** Two requests to B are written and the read of each response armed,
    then the first of the two reads fails. *)
Definition flushed : list Event :=
  [SendCall B ping; SendCall B ping; WriteDone 1 None; WriteDone 1 None;
   DescriptorDone 1 (Some "connection reset") nothing].

(** What the user callback of the environment answers to [ping]. *)
Definition echoed : Message :=
  {| payload_ := payload_ ping; payload_data := 0; tensors_ := [];
     type_ := RESPONSE; id_ := 0 |}.

(** The descriptor of an exception response of four bytes to the request
    with id 0, and the run in which its data has been read. *)
Definition refusal : TpMessage := mkTpMessage "E" 0 4 [].

Definition refused : list Event :=
  [SendCall B ping; WriteDone 1 None; DescriptorDone 1 None refusal;
   ReadDone 1 None [x6f; x6f; x70; x73]].

End Sample.

(** ** Vocabulary of the properties *)

(** A handle as [send] made it: not complete, and no callback of the agent
    waits on it (the agent adds callbacks only to the cells the user
    callback returns). *)
Definition awaiting (s : State) (fut : FutureId) : Prop :=
  futures s !! fut = Some Future.make.

#[global] Instance awaiting_dec s fut : Decision (awaiting s fut).
Proof. unfold awaiting. apply _. Defined.

Definition failed (s : State) (fut : FutureId) (what : string) : Prop :=
  ∃ f, futures s !! fut = Some f ∧ Future.failedWith what f.


(** The event [e] is the failure, with the error [what], of a read armed on
    the outbound connection to [to]: of its descriptor or of its data. *)
Definition readFails (s : State) (to : worker_id_t) (what : string)
    (e : Event) : Prop :=
  match e with
  | DescriptorDone n (Some w) _ =>
      w = what
      ∧ ∃ pipe, operations s !! n = Some (ReadDescriptorOp pipe (ResponseFn to))
  | ReadDone n (Some w) _ =>
      w = what
      ∧ ∃ pipe tpMessage rpcMessage,
          operations s !! n
          = Some (ReadOp pipe tpMessage rpcMessage (ResponseFn to))
  | _ => False
  end.

(** What a callback leaves alone when it touches neither the connections
    nor the counter: it may queue tasks, complete cells, log, and hand
    operations other than an accept to the transport. *)
Definition evolves (s s' : State) : Prop :=
  rpcAgentRunning_ s' = rpcAgentRunning_ s
  ∧ workerNameToURL_ s' = workerNameToURL_ s
  ∧ connectedPipes_ s' = connectedPipes_ s
  ∧ nextMessageID_ s' = nextMessageID_ s
  ∧ pipes s' = pipes s
  ∧ ∃ new, operations s' = operations s ++ new
           ∧ Forall (λ op, op ≠ AcceptOp) new.

(** What the completion of a cell does besides assigning the cell: the
    callbacks that waited on it hand the writes of their responses to the
    transport, and nothing else changes hands. *)
Definition isWrite (op : Operation) : bool :=
  match op with
  | WriteOp _ _ _ _ _ _ => true
  | _ => false
  end.

Definition writesOnly (s s' : State) : Prop :=
  connectedPipes_ s' = connectedPipes_ s
  ∧ threadPool_ s' = threadPool_ s
  ∧ ∃ new, operations s' = operations s ++ new
           ∧ Forall (λ op, isWrite op) new.

(** The id [k] is in the pending table of the connection to [w]. *)
Definition registered (s : State) (k : Z) (w : worker_id_t) : Prop :=
  ∃ clientPipe, connectedPipes_ s !! w = Some clientPipe
                ∧ is_Some (pendingResponseMessage_ clientPipe !! k).

(** What a callback other than [send] and the accept handler does to the
    connections, the counter and the transport: it assigns no id, opens and
    accepts no pipe, registers no id, and hands operations other than an
    accept to the transport. *)
Definition settles (s s' : State) : Prop :=
  nextMessageID_ s' = nextMessageID_ s
  ∧ pipes s' = pipes s
  ∧ (∀ k w, registered s' k w → registered s k w)
  ∧ ∃ new, operations s' = operations s ++ new
           ∧ Forall (λ op, op ≠ AcceptOp) new.

(** The operation an event completes. *)
Definition completes (e : Event) : option nat :=
  match e with
  | AcceptDone n _ | DescriptorDone n _ _ | ReadDone n _ _ | WriteDone n _ =>
      Some n
  | _ => None
  end.

(** The state once the operation an event completes is taken off the
    transport. *)
Definition after (e : Event) (s : State) : State :=
  match completes e with
  | Some n => completed_op n s
  | None => s
  end.

(** What the loop of [pipeRead] leaves at index [i]. *)
Definition filled (rpcMessage : Message) (tpTensors : list TpTensor)
    (i : nat) : option TpTensor :=
  match tensors_ rpcMessage !! i, tpTensors !! i with
  | Some rpcTensor, Some tpTensor =>
      Some {| tt_data := data_ptr rpcTensor;
              tt_length := tt_length tpTensor |}
  | _, _ => tpTensors !! i
  end.

(** The accepts outstanding on the listener, and the connections it has
    accepted so far. *)
Definition isAccept (op : Operation) : bool :=
  match op with
  | AcceptOp => true
  | _ => false
  end.

Definition accepts (s : State) : nat :=
  length (filter (λ op, isAccept op) (operations s)).

Definition inbound (s : State) : nat :=
  length (filter (λ o, o = Accepted) (pipes s)).

(** The ids assigned so far, with the peer each is for, oldest first:
    the counter has gone through them in order, and every id in a pending
    table is one of them, registered for the peer it was assigned for. *)
Definition numbered (log : list (Z * worker_id_t)) (s : State) : Prop :=
  nextMessageID_ s = u64 (Z.of_nat (length log))
  ∧ log.*1 = (λ i, u64 (Z.of_nat i)) <$> seq 0 (length log)
  ∧ ∀ k w, registered s k w → (k, w) ∈ log.

(** The write of a response, by [sendCompletedResponseMessage]. *)
Definition isResponseWrite (op : Operation) : bool :=
  match op with
  | WriteOp _ _ _ _ _ ResponseWrittenFn
  | WriteOp _ _ _ _ _ ErrorResponseWrittenFn => true
  | _ => false
  end.

(** What the code that completes cells and answers requests does to the
    agent: it writes responses, and only while the agent is running; the
    connections, the counter, the pipes and the tasks are left alone. *)
Definition answers (s s' : State) : Prop :=
  rpcAgentRunning_ s' = rpcAgentRunning_ s
  ∧ workerNameToURL_ s' = workerNameToURL_ s
  ∧ connectedPipes_ s' = connectedPipes_ s
  ∧ nextMessageID_ s' = nextMessageID_ s
  ∧ pipes s' = pipes s
  ∧ threadPool_ s' = threadPool_ s
  ∧ ∃ new, operations s' = operations s ++ new
           ∧ Forall (λ op, isResponseWrite op) new
           ∧ (rpcAgentRunning_ s = false → new = []).

(** An entry of [connectedPipes_] as a later state has it: the pipe is the
    same, and an errored flag that was set is set. *)
Definition entryKept (cp cp' : ClientPipe) : Prop :=
  pipe_ cp' = pipe_ cp ∧ (readError_ cp = true → readError_ cp' = true).

(** Every connection of [s] is a connection of [s']. *)
Definition persists (s s' : State) : Prop :=
  ∀ w cp, connectedPipes_ s !! w = Some cp →
          ∃ cp', connectedPipes_ s' !! w = Some cp' ∧ entryKept cp cp'.

(** The pipe each peer is reached by. *)
Definition wiring (s : State) : gmap Z nat := pipe_ <$> connectedPipes_ s.

(** The operations an event hands to the transport, the writes of responses
    apart: [send] writes the request; the completion of an accept that
    brings a connection arms the next accept and the first read of the
    connection; a descriptor is followed by the read of the data, for the
    same continuation; a request read by the server is followed by the next
    read on its pipe; and a request written by the client is followed by
    the read of its response. *)
Definition arms (e : Event) (s : State) (new : list Operation) : Prop :=
  match e with
  | SendCall toWorkerInfo _ =>
      rpcAgentRunning_ s = true
      ∧ ∃ pipe tpMessage rpcMessage reserved copied fut,
          new = [WriteOp pipe tpMessage rpcMessage reserved copied
                   (RequestWrittenFn (w_id_ toWorkerInfo) fut)]
  | AcceptDone _ None =>
      new = [AcceptOp;
             ReadDescriptorOp (length (pipes s)) (RespondFn (length (pipes s)))]
  | DescriptorDone n None _ =>
      ∃ pipe fn tpMessage rpcMessage,
        operations s !! n = Some (ReadDescriptorOp pipe fn)
        ∧ new = [ReadOp pipe tpMessage rpcMessage fn]
  | ReadDone n None _ =>
      ∃ pipe tpMessage rpcMessage p,
        operations s !! n
        = Some (ReadOp pipe tpMessage rpcMessage (RespondFn p))
        ∧ new = [ReadDescriptorOp p (RespondFn p)]
  | WriteDone n None =>
      ∃ pipe tpMessage rpcMessage reserved copied to fut p,
        operations s !! n
        = Some (WriteOp pipe tpMessage rpcMessage reserved copied
                  (RequestWrittenFn to fut))
        ∧ new = [ReadDescriptorOp p (ResponseFn to)]
  | _ => False
  end.

(** What an event hands to the transport: writes of responses, and only
    while the agent is running, or what the event arms. *)
Definition hands (e : Event) (s : State) (new : list Operation) : Prop :=
  (Forall (λ op, isResponseWrite op) new
   ∧ (rpcAgentRunning_ s = false → new = []))
  ∨ arms e s new.

(** The reads outstanding for the handler of the inbound pipe [p]. *)
Definition readsFor (p : nat) (op : Operation) : bool :=
  match op with
  | ReadDescriptorOp _ (RespondFn q) | ReadOp _ _ _ (RespondFn q) =>
      bool_decide (q = p)
  | _ => false
  end.

Definition serverReads (p : nat) (s : State) : nat :=
  length (filter (λ op, readsFor p op) (operations s)).

(** The pipes the agent has opened with [connect]. *)
Definition isConnected (o : PipeOrigin) : bool :=
  match o with
  | Connected _ => true
  | Accepted => false
  end.

Definition outbound (s : State) : nat :=
  length (filter (λ o, isConnected o) (pipes s)).

(** The event [e] is the failure, with the error [what], of a read armed
    for the handler of the inbound pipe [p]. *)
Definition serverReadFails (s : State) (p : nat) (what : string)
    (e : Event) : Prop :=
  match e with
  | DescriptorDone n (Some w) _ =>
      w = what
      ∧ ∃ pipe, operations s !! n = Some (ReadDescriptorOp pipe (RespondFn p))
  | ReadDone n (Some w) _ =>
      w = what
      ∧ ∃ pipe tpMessage rpcMessage,
          operations s !! n
          = Some (ReadOp pipe tpMessage rpcMessage (RespondFn p))
  | _ => False
  end.

(** The pipes of the connections: each is a pipe that [connect] opened,
    no two peers share one, and there are as many as pipes opened. *)
Definition wired (s : State) : Prop :=
  outbound s = size (wiring s)
  ∧ (∀ w p, wiring s !! w = Some p →
            ∃ url, pipes s !! p = Some (Connected url))
  ∧ (∀ w1 w2 p, wiring s !! w1 = Some p → wiring s !! w2 = Some p → w1 = w2).

(** A pipe has at most one read outstanding for its handler, and none
    before it is accepted. *)
Definition served (s : State) : Prop :=
  ∀ p, (serverReads p s ≤ 1)%nat
       ∧ ((length (pipes s) ≤ p)%nat → serverReads p s = 0%nat).

Section Responses.
Context `{External}.

(** The write of the response [responseMessage] on [pipe]. *)
Definition responseWrite (pipe : nat) (responseMessage : Message)
    (fn : WriteFn) : Operation :=
  let tpEntry := tensorpipeSerialize responseMessage in
  WriteOp pipe (message tpEntry) responseMessage (reservedTensors tpEntry)
    (copiedTensors tpEntry) fn.

(** What [sendCompletedResponseMessage] writes on [pipe] for the request
    [messageId] from a complete cell: the Message the cell holds with the
    id of the request in place of its own, or, from a cell that holds an
    error, the exception response made of the text of the error and of
    that id. *)
Definition completedWrite (pipe : nat) (messageId : Z) (f : FutureMessage)
    : Operation :=
  match Future.error f with
  | None =>
      responseWrite pipe (setId (Future.moveValue f) messageId)
        ResponseWrittenFn
  | Some what =>
      responseWrite pipe (createExceptionResponse what messageId)
        ErrorResponseWrittenFn
  end.

(** What the task of [respond] writes at once, for what the user callback
    does with the request. *)
Definition servedWrites (pipe : nat) (messageId : Z) (r : UserResult)
    : list Operation :=
  match r with
  | Throws what | Returns (Some (inl what)) =>
      [responseWrite pipe (createExceptionResponse what messageId)
         ErrorResponseWrittenFn]
  | Returns (Some (inr value)) =>
      [responseWrite pipe (setId value messageId) ResponseWrittenFn]
  | Returns None => []
  end.

(** The callbacks the task of [respond] leaves on the cell of the user
    callback. *)
Definition servedCallbacks (pipe : nat) (fut : nat) (messageId : Z)
    (r : UserResult) : list Callback :=
  match r with
  | Returns None => [SendCompleted pipe fut messageId]
  | _ => []
  end.

(** The response a completion of the cell [fut] sends for the request
    [messageId] on [pipe]. *)
Definition deferredWrite (pipe : nat) (messageId : Z)
    (outcome : string + Message) : Operation :=
  match outcome with
  | inl what =>
      responseWrite pipe (createExceptionResponse what messageId)
        ErrorResponseWrittenFn
  | inr value =>
      responseWrite pipe (setId value messageId) ResponseWrittenFn
  end.

End Responses.

(** * Properties *)

Lemma u64_range z : 0 ≤ u64 z < 2 ^ 64.
Proof. unfold u64. apply Z.mod_pos_bound. lia. Qed.

Lemma u64_small z : 0 ≤ z < 2 ^ 64 → u64 z = z.
Proof. intros. unfold u64. by apply Z.mod_small. Qed.

Lemma u64_idem z : u64 (u64 z) = u64 z.
Proof. apply u64_small, u64_range. Qed.

Section Completion.
Context `{External}.

Lemma setError_awaiting s fut what :
  awaiting s fut →
  setError fut what s
  = Ok (set_futures
          (<[fut := mkFuture (Error what) emptyMessage []]> (futures s)) s).
Proof.
  intros Hf. unfold setError, complete, Future.setError.
  rewrite Hf. reflexivity.
Qed.


Lemma failed_insert s fut what :
  awaiting s fut →
  failed
    (set_futures
       (<[fut := mkFuture (Error what) emptyMessage []]> (futures s)) s)
    fut what.
Proof.
  intros Hf. eexists. split.
  - apply list_lookup_insert_eq. by eapply lookup_lt_Some.
  - reflexivity.
Qed.


(** Whether a cell is failed, or succeeded, is a matter of its state. *)
Lemma failed_states s fut what :
  failed s fut what ↔ (state_ <$> futures s) !! fut = Some (Error what).
Proof.
  unfold failed, Future.failedWith. rewrite list_lookup_fmap. split.
  - intros (f & -> & Hf). simpl. by rewrite Hf.
  - destruct (futures s !! fut) as [f|]; [|done].
    simpl. intros [= Hf]. by exists f.
Qed.


(** A change of the Message a cell holds leaves the states as they are. *)
Lemma states_setValue fut value (cells : list FutureMessage) :
  state_ <$> alter (Future.setValue value) fut cells = state_ <$> cells.
Proof.
  rewrite (list_fmap_alter state_ (Future.setValue value) id).
  - by apply list_alter_id.
  - by apply Forall_true.
Qed.

Lemma writesOnly_refl s : writesOnly s s.
Proof.
  unfold writesOnly. split_and!; [done|done|].
  exists []. by rewrite app_nil_r.
Qed.

Lemma writesOnly_trans s1 s2 s3 :
  writesOnly s1 s2 → writesOnly s2 s3 → writesOnly s1 s3.
Proof.
  intros (? & ? & new1 & Hops1 & Hnew1) (? & ? & new2 & Hops2 & Hnew2).
  unfold writesOnly. split_and!; [congruence|congruence|].
  exists (new1 ++ new2). split.
  - by rewrite Hops2, Hops1, app_assoc.
  - by apply Forall_app.
Qed.

Lemma sendCompleted_writesOnly pipe fut messageId s s' :
  sendCompletedResponseMessage pipe fut messageId s = Ok s' →
  state_ <$> futures s' = state_ <$> futures s ∧ writesOnly s s'.
Proof.
  unfold sendCompletedResponseMessage, pipeWrite. intros Hrun.
  destruct (negb (rpcAgentRunning_ s)).
  { simplify_eq. split; [done|]. split_and!; [done|done|].
    exists []. simpl. by rewrite app_nil_r. }
  destruct (futures s !! fut) as [f|]; [|done].
  destruct (Future.error f) as [what|]; simplify_eq; split.
  - simpl. apply states_setValue.
  - split_and!; [done|done|]. eexists [_]. split; [reflexivity|].
    by apply Forall_singleton.
  - simpl. by rewrite !states_setValue.
  - split_and!; [done|done|]. eexists [_]. split; [reflexivity|].
    by apply Forall_singleton.
Qed.

Lemma runCallbacks_writesOnly cbs s s' :
  runCallbacks cbs s = Ok s' →
  state_ <$> futures s' = state_ <$> futures s ∧ writesOnly s s'.
Proof.
  revert s. induction cbs as [|[pipe fut messageId] cbs IH]; intros s Hrun.
  - simpl in Hrun. simplify_eq. split; [done|]. apply writesOnly_refl.
  - simpl in Hrun.
    destruct (sendCompletedResponseMessage pipe fut messageId s) as [s1|]
      eqn:Hsend; [|done].
    simpl in Hrun. apply sendCompleted_writesOnly in Hsend as [Hfut1 Hw1].
    apply IH in Hrun as [Hfut2 Hw2]. split; [congruence|].
    by eapply writesOnly_trans.
Qed.

(** A completion that runs to its end has found the cell not complete, has
    assigned it, and has changed the state of no other cell. *)
Lemma complete_Ok assign fut s s' :
  complete assign fut s = Ok s' →
  ∃ f r, futures s !! fut = Some f ∧ assign f = Ok r
         ∧ state_ <$> futures s' = <[fut := state_ r.1]> (state_ <$> futures s)
         ∧ writesOnly s s'.
Proof.
  unfold complete. intros Hrun.
  destruct (futures s !! fut) as [f|] eqn:Hf; [|done].
  destruct (assign f) as [r|] eqn:Hassign; [|done]. simpl in Hrun.
  apply runCallbacks_writesOnly in Hrun as [Hfut Hw].
  exists f, r. split_and!; [done|done| |done].
  simpl in Hfut. by rewrite Hfut, list_fmap_insert.
Qed.

Lemma setError_Ok fut what s s' :
  setError fut what s = Ok s' →
  failed s' fut what
  ∧ (∀ fut' w, failed s fut' w → failed s' fut' w)
  ∧ writesOnly s s'.
Proof.
  intros (f & r & Hf & Hassign & Hfut & Hw)%complete_Ok.
  unfold Future.setError in Hassign.
  destruct (Future.completed f) eqn:Hcompleted; [done|]. simplify_eq.
  simpl in Hfut. split_and!; [|  |done].
  - apply failed_states. rewrite Hfut. apply list_lookup_insert_eq.
    rewrite length_fmap. by eapply lookup_lt_Some.
  - intros fut' w. rewrite !failed_states, Hfut.
    destruct (decide (fut' = fut)) as [->|].
    + rewrite list_lookup_fmap, Hf. simpl. intros [= Hw'].
      unfold Future.completed in Hcompleted. by rewrite Hw' in Hcompleted.
    + by rewrite list_lookup_insert_ne.
Qed.


(** A cell is assigned once: an error set on a cell that is complete stops
    the callback that sets it. *)
Lemma setError_completed s fut f what :
  futures s !! fut = Some f →
  Future.completed f = true →
  setError fut what s = Abort AlreadyCompleted.
Proof.
  intros Hf Hdone. unfold setError, complete, Future.setError.
  rewrite Hf. simpl. by rewrite Hdone.
Qed.

(** A completion leaves complete the cells that are. *)
Lemma setError_keeps_completed fut what s s' fut' f' :
  setError fut what s = Ok s' →
  futures s !! fut' = Some f' →
  Future.completed f' = true →
  ∃ f'', futures s' !! fut' = Some f'' ∧ Future.completed f'' = true.
Proof.
  intros Hrun Hf' Hdone.
  destruct (decide (fut' = fut)) as [->|Hne].
  { by rewrite (setError_completed s fut f' what) in Hrun. }
  apply complete_Ok in Hrun as (f & r & _ & _ & Hfut & _).
  assert ((state_ <$> futures s') !! fut' = Some (state_ f')) as Hstate.
  { rewrite Hfut, list_lookup_insert_ne by done.
    by rewrite list_lookup_fmap, Hf'. }
  rewrite list_lookup_fmap in Hstate.
  destruct (futures s' !! fut') as [f''|]; [|done].
  exists f''. split; [done|]. simpl in Hstate.
  unfold Future.completed in *. injection Hstate as Hstate.
  by rewrite Hstate.
Qed.

End Completion.

Section Send.
Context `{External}.
Variable showMessageType : MessageType → string.

Abbreviation send := (send showMessageType).
Abbreviation step := (step showMessageType).

(** C6. A call of [send] with a message that is not a request, or on an
    agent that is not running, throws to its caller and leaves the agent
    as it was: no url or connection is looked up, no pending table or
    counter changes, nothing is handed to the transport.  A message that
    is not a request is refused as such; a request on a stopped agent is
    refused with the "no longer running" error. *)
Theorem send_refused_without_effect (toWorkerInfo : WorkerInfo)
    (requestMessage : Message) (s : State) :
  isRequest requestMessage = false ∨ rpcAgentRunning_ s = false →
  ∃ e, send toWorkerInfo requestMessage s = inl e
       ∧ step (SendCall toWorkerInfo requestMessage) s = Ok s
       ∧ (isRequest requestMessage = false →
          e = C10Error
                "TensorPipeAgent::send(..) is only for sending requests.")
       ∧ (isRequest requestMessage = true →
          e = RuntimeError
                ("Node " +:+ pretty (w_id_ (workerInfo_ s))
                   +:+ "tried to send() a message of type "
                   +:+ showMessageType (type_ requestMessage)
                   +:+ " but RPC is no longer running on this node.")).
Proof.
  intros Hpre. unfold step, send.
  destruct (isRequest requestMessage) eqn:Hreq; simpl.
  - destruct Hpre as [|Hrun]; [done|]. rewrite Hrun. simpl.
    eexists. split_and!; [reflexivity|reflexivity|done|reflexivity].
  - eexists. split_and!; [reflexivity|reflexivity|reflexivity|done].
Qed.

(** C2, as the code has it. A call of [send] to a peer that has an entry
    in [connectedPipes_] uses that entry, whether its errored flag is set
    or not: no connection is opened, the handle is registered in the
    pending table of the existing entry, whose pipe and flag stay as they
    are, and the request is written on the existing pipe. *)
Theorem send_reuses_registered_connection (toWorkerInfo : WorkerInfo)
    (requestMessage : Message) (s : State) (clientPipe : ClientPipe)
    (url : string) :
  isRequest requestMessage = true →
  rpcAgentRunning_ s = true →
  workerNameToURL_ s !! w_name_ toWorkerInfo = Some url →
  connectedPipes_ s !! w_id_ toWorkerInfo = Some clientPipe →
  readError_ clientPipe = true →
  ∃ fut s' clientPipe',
    send toWorkerInfo requestMessage s = inr (fut, s')
    ∧ pipes s' = pipes s
    ∧ connectedPipes_ s' !! w_id_ toWorkerInfo = Some clientPipe'
    ∧ pipe_ clientPipe' = pipe_ clientPipe
    ∧ readError_ clientPipe' = true
    ∧ pendingResponseMessage_ clientPipe' !! u64 (nextMessageID_ s)
      = Some fut
    ∧ ∃ tpMessage reserved copied,
        operations s'
        = operations s
          ++ [WriteOp (pipe_ clientPipe) tpMessage
                (setId requestMessage (nextMessageID_ s)) reserved copied
                (RequestWrittenFn (w_id_ toWorkerInfo) fut)].
Proof.
  intros Hreq Hrun Hurl Hcp Hflag. unfold send, findWorkerURL.
  rewrite Hreq, Hrun, Hurl, Hcp. simpl.
  eexists _, _, _. split; [reflexivity|]. simpl.
  rewrite lookup_insert_eq.
  split_and!; [done|reflexivity|done|done|apply lookup_insert_eq|].
  by eexists _, _, _.
Qed.

(** The handle [send] returns is a new cell, not complete, and the write
    [send] hands to the transport holds it in its completion lambda. *)
Lemma send_arms_write (toWorkerInfo : WorkerInfo) (requestMessage : Message)
    (s : State) (fut : FutureId) (s' : State) :
  send toWorkerInfo requestMessage s = inr (fut, s') →
  awaiting s' fut
  ∧ ∃ pipe tpMessage reserved copied,
      operations s'
      = operations s
        ++ [WriteOp pipe tpMessage (setId requestMessage (nextMessageID_ s))
              reserved copied (RequestWrittenFn (w_id_ toWorkerInfo) fut)].
Proof.
  unfold send, findWorkerURL. intros Hsend.
  destruct (negb (isRequest requestMessage)); [done|].
  destruct (negb (rpcAgentRunning_ s)); [done|].
  destruct (workerNameToURL_ s !! w_name_ toWorkerInfo) as [url|]; [|done].
  destruct (connectedPipes_ s !! w_id_ toWorkerInfo) as [clientPipe|];
    simpl in Hsend; simplify_eq; (split; [|by eexists _, _, _, _]);
    unfold awaiting; simpl; by apply list_lookup_middle.
Qed.

(** The write-error branch on a handle that is not complete yet.  Whenever
    the completion callback of a failed write runs to its end, the state
    it leaves has the handle failed with the error of the write, no task
    has been queued, and the callback has handed nothing to the transport
    but the writes of callbacks that waited on the handle: no read has
    been armed.  On a handle that is not complete yet the callback does
    run to its end, and the only change to the outstanding operations is
    that the write is gone.  A handle the read-error branch has flushed
    is another matter, see [write_failure_on_completed_handle]. *)
Lemma write_failure_fails_handle (s : State) (n : nat) (pipe : PipeId)
    (tpMessage : TpMessage) (rpcMessage : Message) (reserved : list Tensor)
    (copied : list (list byte)) (to : worker_id_t) (fut : FutureId)
    (what : string) :
  operations s !! n
  = Some (WriteOp pipe tpMessage rpcMessage reserved copied
            (RequestWrittenFn to fut)) →
  (∀ s', step (WriteDone n (Some what)) s = Ok s' →
         failed s' fut what
         ∧ threadPool_ s' = threadPool_ s
         ∧ ∃ new, operations s' = delete n (operations s) ++ new
                  ∧ Forall (λ op, isWrite op) new)
  ∧ (awaiting s fut →
     ∃ s', step (WriteDone n (Some what)) s = Ok s'
           ∧ operations s' = delete n (operations s)).
Proof.
  intros Hop. unfold step. rewrite Hop. simpl. unfold onRequestWritten.
  split.
  - intros s' (Hfailed & _ & _ & Hpool & new & Hops & Hnew)%setError_Ok.
    split_and!; [done|done|]. by exists new.
  - intros Haw. rewrite setError_awaiting; [|exact Haw]. by eexists.
Qed.

(** C10. The write-error path completes the handle but does not take it
    out of the pending table: whenever the callback runs to its end the
    connections, and with them the table of the connection the request
    went out on, are what they were, so the handle, now failed, is still
    registered under its id.  The callback runs to its end on a handle that
    is not complete yet. *)
Theorem write_failure_keeps_entry (s : State) (n : nat) (pipe : PipeId)
    (tpMessage : TpMessage) (rpcMessage : Message) (reserved : list Tensor)
    (copied : list (list byte)) (to : worker_id_t) (fut : FutureId)
    (what : string) (clientPipe : ClientPipe) (messageId : Z) :
  operations s !! n
  = Some (WriteOp pipe tpMessage rpcMessage reserved copied
            (RequestWrittenFn to fut)) →
  connectedPipes_ s !! to = Some clientPipe →
  pendingResponseMessage_ clientPipe !! messageId = Some fut →
  (∀ s', step (WriteDone n (Some what)) s = Ok s' →
         connectedPipes_ s' = connectedPipes_ s
         ∧ (∃ clientPipe',
              connectedPipes_ s' !! to = Some clientPipe'
              ∧ pendingResponseMessage_ clientPipe' !! messageId = Some fut)
         ∧ failed s' fut what)
  ∧ (awaiting s fut → is_Ok (step (WriteDone n (Some what)) s)).
Proof.
  intros Hop Hcp Hk. unfold step. rewrite Hop. simpl.
  unfold onRequestWritten. split.
  - intros s' (Hfailed & _ & Hpipes & _)%setError_Ok. simpl in Hpipes.
    split_and!; [done| |done].
    rewrite Hpipes. by exists clientPipe.
  - intros Haw. rewrite setError_awaiting; [|exact Haw]. by eexists.
Qed.

(** The write-error branch on a handle that is complete, as the handle of
    a write is once the read-error branch has flushed the table: the
    callback sets the error on a cell that is assigned already, and is cut
    short there. *)
Lemma write_failure_on_completed_handle (s : State) (n : nat)
    (pipe : PipeId) (tpMessage : TpMessage) (rpcMessage : Message)
    (reserved : list Tensor) (copied : list (list byte)) (to : worker_id_t)
    (fut : FutureId) (what : string) (f : FutureMessage) :
  operations s !! n
  = Some (WriteOp pipe tpMessage rpcMessage reserved copied
            (RequestWrittenFn to fut)) →
  futures s !! fut = Some f →
  Future.completed f = true →
  step (WriteDone n (Some what)) s = Abort AlreadyCompleted.
Proof.
  intros Hop Hf Hdone. unfold step. rewrite Hop. simpl.
  unfold onRequestWritten. by apply (setError_completed _ fut f).
Qed.

End Send.

Section Receive.
Context `{External}.
Variable showMessageType : MessageType → string.

Abbreviation step := (step showMessageType).

Lemma set_futures_twice (a b : list FutureMessage) (s : State) :
  set_futures a (set_futures b s) = set_futures a s.
Proof. reflexivity. Qed.

Lemma flush_awaiting (handles : list FutureId) (what : string) (s : State) :
  NoDup handles →
  (∀ fut, fut ∈ handles → awaiting s fut) →
  ∃ s', flush handles what s = Ok s'
        ∧ (∀ fut, fut ∈ handles → failed s' fut what)
        ∧ (∀ fut, fut ∉ handles → futures s' !! fut = futures s !! fut)
        ∧ set_futures (futures s) s' = s.
Proof.
  revert s. induction handles as [|fut handles IH]; intros s Hnd Haw.
  - exists s. split_and!; [done|by intros ? ?%elem_of_nil|done|by destruct s].
  - apply NoDup_cons in Hnd as [Hnotin Hnd].
    assert (awaiting s fut) as Hfut by (apply Haw; left).
    simpl. rewrite (setError_awaiting _ _ _ Hfut). simpl.
    set (s1 := set_futures _ s).
    destruct (IH s1 Hnd) as (s' & Hrun & Hfailed & Hother & Hframe).
    { intros fut' Hin. unfold awaiting. simpl.
      rewrite list_lookup_insert_ne; [|by intros ->].
      apply Haw. by right. }
    exists s'. split_and!; [done| | |].
    + intros fut' [->|Hin]%elem_of_cons; [|by apply Hfailed].
      unfold failed. rewrite (Hother _ Hnotin).
      by apply (failed_insert s).
    + intros fut' Hnotin'. apply not_elem_of_cons in Hnotin' as [Hne Hnotin'].
      rewrite (Hother _ Hnotin'). simpl.
      by rewrite list_lookup_insert_ne.
    + rewrite <- (set_futures_twice (futures s) (futures s1) s'), Hframe.
      by destruct s.
Qed.

Lemma flush_Ok (handles : list FutureId) (what : string) (s s' : State) :
  flush handles what s = Ok s' →
  (∀ fut, fut ∈ handles → failed s' fut what)
  ∧ (∀ fut w, failed s fut w → failed s' fut w)
  ∧ writesOnly s s'.
Proof.
  revert s. induction handles as [|fut handles IH]; intros s Hrun.
  - simpl in Hrun. simplify_eq.
    split_and!; [by intros ? ?%elem_of_nil|done|apply writesOnly_refl].
  - simpl in Hrun. destruct (setError fut what s) as [s1|] eqn:Hset; [|done].
    simpl in Hrun. apply setError_Ok in Hset as (Hfut & Hkept1 & Hw1).
    apply IH in Hrun as (Hrest & Hkept2 & Hw2). split_and!.
    + intros fut' [->|Hin]%elem_of_cons; [by apply Hkept2|by apply Hrest].
    + intros fut' w Hfailed. by apply Hkept2, Hkept1.
    + by eapply writesOnly_trans.
Qed.

(** The read-error branch, whenever it runs to its end. *)
Lemma onResponseRead_error_Ok (s s' : State) (to : worker_id_t)
    (clientPipe : ClientPipe) (what : string) (responseMessage : Message) :
  connectedPipes_ s !! to = Some clientPipe →
  onResponseRead to (Some what) responseMessage s = Ok s' →
  (∀ k fut, pendingResponseMessage_ clientPipe !! k = Some fut →
            failed s' fut what)
  ∧ connectedPipes_ s'
    = <[to := mkClientPipe (pipe_ clientPipe) true ∅]> (connectedPipes_ s).
Proof.
  intros Hcp. unfold onResponseRead. rewrite Hcp. intros Hrun.
  destruct (flush _ what _) as [s1|] eqn:Hflush; [|done].
  simpl in Hrun. simplify_eq.
  apply flush_Ok in Hflush as (Hfailed & _ & Hpipes & _).
  simpl in Hpipes. split.
  - intros k fut Hk. destruct (Hfailed fut) as (f & Hf & Hfw).
    { apply list_elem_of_fmap. exists (k, fut).
      split; [done|]. by apply elem_of_map_to_list. }
    by exists f.
  - simpl. rewrite Hpipes.
    by apply (alter_alt_Some (λ cp, mkClientPipe (pipe_ cp) true ∅)).
Qed.

Lemma awaiting_same_futures (s s' : State) (fut : FutureId) :
  futures s' = futures s → awaiting s fut → awaiting s' fut.
Proof. unfold awaiting. by intros ->. Qed.

Lemma onResponseRead_error (s : State) (to : worker_id_t)
    (clientPipe : ClientPipe) (what : string) (responseMessage : Message) :
  connectedPipes_ s !! to = Some clientPipe →
  map_Forall (λ _ fut, awaiting s fut) (pendingResponseMessage_ clientPipe) →
  NoDup (map_to_list (pendingResponseMessage_ clientPipe)).*2 →
  ∃ s', onResponseRead to (Some what) responseMessage s = Ok s'
        ∧ (∀ k fut, pendingResponseMessage_ clientPipe !! k = Some fut →
                    failed s' fut what)
        ∧ connectedPipes_ s'
          = <[to := mkClientPipe (pipe_ clientPipe) true ∅]>
              (connectedPipes_ s)
        ∧ operations s' = operations s
        ∧ threadPool_ s' = threadPool_ s.
Proof.
  intros Hcp Haw Hnd. unfold onResponseRead. rewrite Hcp.
  set (s0 := warn _ s).
  destruct (flush_awaiting
              (map_to_list (pendingResponseMessage_ clientPipe)).*2 what s0)
    as (s1 & Hrun & Hfailed & _ & Hframe).
  { done. }
  { intros fut ([k f] & -> & Hin%elem_of_map_to_list)%list_elem_of_fmap.
    apply (awaiting_same_futures s); [done|]. by eapply Haw. }
  rewrite Hrun. simpl. eexists. split; [reflexivity|].
  assert (connectedPipes_ s1 = connectedPipes_ s
          ∧ operations s1 = operations s
          ∧ threadPool_ s1 = threadPool_ s) as (Hpipes & Hops & Hpool).
  { split_and!.
    - by apply (f_equal connectedPipes_) in Hframe.
    - by apply (f_equal operations) in Hframe.
    - by apply (f_equal threadPool_) in Hframe. }
  simpl. split_and!; [| |done|done].
  2:{ rewrite Hpipes.
      by apply (alter_alt_Some (λ cp, mkClientPipe (pipe_ cp) true ∅)). }
  intros k fut Hk. destruct (Hfailed fut) as (f & Hf & Hfw).
  { apply list_elem_of_fmap. exists (k, fut).
    split; [done|]. by apply elem_of_map_to_list. }
  by exists f.
Qed.

(** The read-error branch on a table whose handles are not complete yet.
    Whenever the callback of a failed read runs to its end, every handle
    registered in the pending table of the connection is completed with
    the error of the read, the errored flag of the connection is set and
    its pending table is empty.  It runs to its end when the handles are
    the ones [send] registered and none is complete yet: each id has its
    own handle.  A table that registers a handle a failed write has
    completed is another matter, see [read_failure_on_completed_handle]. *)
Lemma read_failure_fails_all_pending (s : State) (to : worker_id_t)
    (clientPipe : ClientPipe) (what : string) (e : Event) :
  readFails s to what e →
  connectedPipes_ s !! to = Some clientPipe →
  (∀ s', step e s = Ok s' →
         (∀ k fut, pendingResponseMessage_ clientPipe !! k = Some fut →
                   failed s' fut what)
         ∧ ∃ clientPipe', connectedPipes_ s' !! to = Some clientPipe'
                          ∧ readError_ clientPipe' = true
                          ∧ pendingResponseMessage_ clientPipe' = ∅
                          ∧ pipe_ clientPipe' = pipe_ clientPipe)
  ∧ (map_Forall (λ _ fut, awaiting s fut)
       (pendingResponseMessage_ clientPipe) →
     NoDup (map_to_list (pendingResponseMessage_ clientPipe)).*2 →
     is_Ok (step e s)).
Proof.
  intros Hfails Hcp.
  assert (∀ n rpcMessage,
            (∀ s', onResponseRead to (Some what) rpcMessage (completed_op n s)
                   = Ok s' →
                   (∀ k fut,
                      pendingResponseMessage_ clientPipe !! k = Some fut →
                      failed s' fut what)
                   ∧ ∃ clientPipe',
                       connectedPipes_ s' !! to = Some clientPipe'
                       ∧ readError_ clientPipe' = true
                       ∧ pendingResponseMessage_ clientPipe' = ∅
                       ∧ pipe_ clientPipe' = pipe_ clientPipe)
            ∧ (map_Forall (λ _ fut, awaiting s fut)
                 (pendingResponseMessage_ clientPipe) →
               NoDup (map_to_list (pendingResponseMessage_ clientPipe)).*2 →
               is_Ok (onResponseRead to (Some what) rpcMessage
                        (completed_op n s))))
    as Hcallback.
  { intros n rpcMessage. split.
    - intros s' Hrun.
      destruct (onResponseRead_error_Ok (completed_op n s) s' to clientPipe
                  what rpcMessage Hcp Hrun) as (Hfailed & Hpipes).
      split; [done|].
      eexists. rewrite Hpipes, lookup_insert_eq. by split_and!.
    - intros Haw Hinj.
      destruct (onResponseRead_error (completed_op n s) to clientPipe what
                  rpcMessage Hcp) as (s' & Hrun & _).
      { intros k fut Hk. apply (awaiting_same_futures s); [done|].
        by eapply Haw. }
      { done. }
      by exists s'. }
  destruct e as [| |n [w|] tpMessage|n [w|] bytes| | | |]; try done.
  - destruct Hfails as (-> & pipe & Hop). simpl. rewrite Hop.
    apply Hcallback.
  - destruct Hfails as (-> & pipe & tpMessage & rpcMessage & Hop). simpl.
    rewrite Hop. apply Hcallback.
Qed.

(** The loop of the read-error branch does not get past a handle that is
    complete. *)
Lemma flush_completed (handles : list FutureId) (what : string) (s : State)
    (fut : FutureId) (f : FutureMessage) :
  fut ∈ handles →
  futures s !! fut = Some f →
  Future.completed f = true →
  ¬ is_Ok (flush handles what s).
Proof.
  revert s f.
  induction handles as [|h handles IH]; intros s f Hin Hf Hdone [s' Hrun].
  - by apply elem_of_nil in Hin.
  - simpl in Hrun.
    destruct (setError h what s) as [s1|] eqn:Hset; [|done].
    simpl in Hrun.
    destruct (setError_keeps_completed h what s s1 fut f Hset Hf Hdone)
      as (f1 & Hf1 & Hdone1).
    apply elem_of_cons in Hin as [->|Hin].
    + by rewrite (setError_completed s h f what) in Hset.
    + eapply IH; [exact Hin|exact Hf1|exact Hdone1|]. by exists s'.
Qed.

(** The read-error branch on a table that registers a handle that is
    complete, as the handle of a failed write is, which the write-error
    branch leaves registered: the callback does not run to its end.  No
    state follows in which the flag is set and the table empty. *)
Lemma read_failure_on_completed_handle (s : State) (to : worker_id_t)
    (clientPipe : ClientPipe) (what : string) (e : Event) (k : Z)
    (fut : FutureId) (f : FutureMessage) :
  readFails s to what e →
  connectedPipes_ s !! to = Some clientPipe →
  pendingResponseMessage_ clientPipe !! k = Some fut →
  futures s !! fut = Some f →
  Future.completed f = true →
  ¬ is_Ok (step e s).
Proof.
  intros Hfails Hcp Hk Hf Hdone.
  assert (∀ n rpcMessage,
            ¬ is_Ok (onResponseRead to (Some what) rpcMessage
                       (completed_op n s))) as Hcallback.
  { intros n rpcMessage [s' Hrun]. unfold onResponseRead in Hrun.
    simpl in Hrun. rewrite Hcp in Hrun.
    destruct (flush _ _ _) as [s1|] eqn:Hflush; [|done].
    eapply (flush_completed _ _ _ fut f); [| | |by exists s1]; [|done|done].
    apply list_elem_of_fmap. exists (k, fut).
    split; [done|]. by apply elem_of_map_to_list. }
  destruct e as [| |n [w|] tpMessage|n [w|] bytes| | | |]; try done.
  - destruct Hfails as (-> & pipe & Hop). simpl. rewrite Hop.
    apply Hcallback.
  - destruct Hfails as (-> & pipe & tpMessage & rpcMessage & Hop). simpl.
    rewrite Hop. apply Hcallback.
Qed.


End Receive.

Section Frames.
Context `{External}.

(** The state differs at most in the tasks, the cells or the log. *)
Local Ltac same_operations :=
  unfold evolves; simpl; split_and!; try done;
  exists []; by rewrite app_nil_r.

Lemma evolves_refl s : evolves s s.
Proof. same_operations. Qed.

Lemma evolves_trans s1 s2 s3 : evolves s1 s2 → evolves s2 s3 → evolves s1 s3.
Proof.
  intros (? & ? & ? & ? & ? & new1 & Hops1 & Hnew1)
         (? & ? & ? & ? & ? & new2 & Hops2 & Hnew2).
  unfold evolves. split_and!; try congruence.
  exists (new1 ++ new2). split.
  - by rewrite Hops2, Hops1, app_assoc.
  - by apply Forall_app.
Qed.

Lemma evolves_warn msg s : evolves s (warn msg s).
Proof. same_operations. Qed.

Lemma evolves_set_futures v s : evolves s (set_futures v s).
Proof. same_operations. Qed.

Lemma evolves_set_threadPool v s : evolves s (set_threadPool v s).
Proof. same_operations. Qed.

Lemma evolves_submit op s : op ≠ AcceptOp → evolves s (submit op s).
Proof.
  intros Hop. unfold evolves. split_and!; try done.
  exists [op]. split; [done|]. by apply Forall_singleton.
Qed.

Lemma evolves_pipeWrite pipe rpcMessage fn s :
  evolves s (pipeWrite pipe rpcMessage fn s).
Proof. by apply evolves_submit. Qed.

Lemma evolves_pipeRead pipe fn s : evolves s (pipeRead pipe fn s).
Proof. by apply evolves_submit. Qed.

Lemma evolves_holds fut value s : evolves s (holds fut value s).
Proof. same_operations. Qed.

Lemma evolves_sendCompleted pipe fut messageId s s' :
  sendCompletedResponseMessage pipe fut messageId s = Ok s' → evolves s s'.
Proof.
  unfold sendCompletedResponseMessage. intros Hrun.
  repeat case_match; simplify_eq;
    eauto 6 using evolves_warn, evolves_pipeWrite, evolves_holds,
      evolves_trans.
Qed.

Lemma evolves_runCallbacks cbs s s' :
  runCallbacks cbs s = Ok s' → evolves s s'.
Proof.
  revert s. induction cbs as [|[pipe fut messageId] cbs IH]; intros s Hrun.
  - simpl in Hrun. simplify_eq. apply evolves_refl.
  - simpl in Hrun.
    destruct (sendCompletedResponseMessage pipe fut messageId s) as [s1|]
      eqn:Hsend; [|done].
    simpl in Hrun. eapply evolves_trans; [|by apply IH].
    by eapply evolves_sendCompleted.
Qed.

Lemma evolves_complete assign fut s s' :
  complete assign fut s = Ok s' → evolves s s'.
Proof.
  unfold complete. intros Hrun.
  destruct (futures s !! fut) as [f|]; [|done].
  destruct (assign f) as [r|]; [|done]. simpl in Hrun.
  eapply evolves_trans; [|by eapply evolves_runCallbacks].
  apply evolves_set_futures.
Qed.

Lemma evolves_addCallback fut cb s s' :
  addCallback fut cb s = Ok s' → evolves s s'.
Proof.
  unfold addCallback. intros Hrun.
  destruct (futures s !! fut) as [f|]; [|done].
  eapply evolves_trans; [|by eapply evolves_runCallbacks].
  apply evolves_set_futures.
Qed.

Lemma evolves_flush handles what s s' :
  flush handles what s = Ok s' → evolves s s'.
Proof.
  revert s. induction handles as [|fut handles IH]; intros s Hrun.
  - simpl in Hrun. simplify_eq. apply evolves_refl.
  - simpl in Hrun. destruct (setError fut what s) as [s1|] eqn:Hset; [|done].
    simpl in Hrun. eapply evolves_trans; [|by apply IH].
    by eapply evolves_complete.
Qed.

Lemma evolves_onRequestRead pipe error requestMessage s :
  evolves s (onRequestRead pipe error requestMessage s).
Proof.
  unfold onRequestRead, respond, threadPool_run. destruct error.
  - apply evolves_warn.
  - eapply evolves_trans; [apply evolves_pipeRead|].
    apply evolves_set_threadPool.
Qed.

Lemma evolves_serve pipe messageId requestMessage s s' :
  serve pipe messageId requestMessage s = Ok s' → evolves s s'.
Proof.
  unfold serve, newFuture. intros Hrun.
  destruct (cb_ requestMessage) as [what|outcome]; simpl in Hrun.
  - destruct (setError _ what _) as [s1|] eqn:Hset; [|done].
    simpl in Hrun. apply evolves_complete in Hset.
    destruct (futures s1 !! _) as [f|]; [|done].
    eapply evolves_trans; [apply evolves_set_futures|].
    eapply evolves_trans; [exact Hset|].
    destruct (Future.completed f);
      eauto using evolves_sendCompleted, evolves_addCallback.
  - destruct (_ !! _) as [f|]; [|done].
    eapply evolves_trans; [apply evolves_set_futures|].
    destruct (Future.completed f);
      eauto using evolves_sendCompleted, evolves_addCallback.
Qed.

Lemma evolves_onRequestWritten to fut error s s' :
  onRequestWritten to fut error s = Ok s' → evolves s s'.
Proof.
  unfold onRequestWritten. intros Hrun. destruct error as [what|].
  - eapply evolves_trans; [apply evolves_warn|].
    by eapply evolves_complete.
  - destruct (connectedPipes_ s !! to); [|done]. simplify_eq.
    apply evolves_pipeRead.
Qed.

Lemma evolves_callWriteFn fn error s s' :
  callWriteFn fn error s = Ok s' → evolves s s'.
Proof.
  unfold callWriteFn. intros Hrun.
  destruct fn, error; simplify_eq;
    eauto using evolves_warn, evolves_refl, evolves_onRequestWritten.
Qed.

Lemma evolves_completeResponse fut responseMessage s s' :
  completeResponse fut responseMessage s = Ok s' → evolves s s'.
Proof.
  unfold completeResponse. intros Hrun.
  case_decide; by eapply evolves_complete.
Qed.

Lemma evolves_runTask t s s' : runTask t s = Ok s' → evolves s s'.
Proof.
  destruct t; simpl; eauto using evolves_serve, evolves_completeResponse.
Qed.

End Frames.

Section Server.
Context `{External}.

Lemma lookup_new_future (l : list FutureMessage) (f : FutureMessage) :
  (l ++ [f]) !! length l = Some f.
Proof. by apply list_lookup_middle. Qed.

Lemma insert_new_future (l : list FutureMessage) (f g : FutureMessage) :
  <[length l := g]> (l ++ [f]) = l ++ [g].
Proof.
  rewrite insert_app_r_alt; [|done]. by rewrite Nat.sub_diag.
Qed.

Lemma alter_new_future (l : list FutureMessage) (f : FutureMessage)
    (g : FutureMessage → FutureMessage) :
  alter g (length l) (l ++ [f]) = l ++ [g f].
Proof.
  replace (length l) with (length l + 0)%nat by lia.
  by rewrite alter_app_r.
Qed.

(** [sendCompletedResponseMessage] on a cell that exists runs to its end;
    on a running agent it hands the transport one write, the response of
    the cell, and on a stopped one nothing. *)
Lemma sendCompleted_exact pipe fut messageId s f :
  futures s !! fut = Some f →
  ∃ s',
    sendCompletedResponseMessage pipe fut messageId s = Ok s'
    ∧ operations s'
      = operations s
        ++ (if rpcAgentRunning_ s then [completedWrite pipe messageId f]
            else [])
    ∧ callbacks_ <$> futures s' = callbacks_ <$> futures s.
Proof.
  intros Hf. unfold sendCompletedResponseMessage, completedWrite.
  rewrite Hf. destruct (rpcAgentRunning_ s); simpl.
  - assert (∀ value (cells : list FutureMessage),
              callbacks_ <$> alter (Future.setValue value) fut cells
              = callbacks_ <$> cells) as Hcbs.
    { intros value cells.
      rewrite (list_fmap_alter callbacks_ (Future.setValue value) id).
      - by apply list_alter_id.
      - by apply Forall_true. }
    destruct (Future.error f) as [what|]; (eexists; split; [reflexivity|]);
      simpl; by rewrite ?Hcbs.
  - eexists. split; [reflexivity|]. simpl. by rewrite app_nil_r.
Qed.

(** The task of [respond] runs to its end; it writes at once the response
    to a request whose cell is complete, on a running agent, and leaves
    the callback that will write it on a cell that is not. *)
Lemma serve_exact pipe messageId requestMessage s :
  ∃ s' f,
    serve pipe messageId requestMessage s = Ok s'
    ∧ operations s'
      = operations s
        ++ (if rpcAgentRunning_ s then
              servedWrites pipe messageId (cb_ requestMessage)
            else [])
    ∧ futures s' = futures s ++ [f]
    ∧ callbacks_ f
      = servedCallbacks pipe (length (futures s)) messageId
          (cb_ requestMessage).
Proof.
  unfold serve, newFuture, servedWrites, servedCallbacks.
  assert (∀ (s1 : State) (f : FutureMessage) (written : list Operation),
            futures s1 = futures s ++ [f] → operations s1 = operations s →
            rpcAgentRunning_ s1 = rpcAgentRunning_ s →
            callbacks_ f = [] →
            written = [completedWrite pipe messageId f] →
            ∃ s' f',
              sendCompletedResponseMessage pipe (length (futures s))
                messageId s1 = Ok s'
              ∧ operations s'
                = operations s ++ (if rpcAgentRunning_ s then written else [])
              ∧ futures s' = futures s ++ [f']
              ∧ callbacks_ f' = []) as Hdone.
  { intros s1 f written Hfut Hops Hon Hcbs ->.
    unfold sendCompletedResponseMessage, completedWrite.
    rewrite Hfut, lookup_new_future, Hon.
    destruct (rpcAgentRunning_ s); simpl.
    - destruct (Future.error f) as [what|]; eexists _, _;
        (split; [reflexivity|]); simpl; rewrite Hops, Hfut;
        rewrite ?alter_new_future; (split; [done|]);
        (split; [reflexivity|]); done.
    - eexists _, _. split; [reflexivity|]. simpl.
      rewrite Hops, Hfut, app_nil_r. by split_and!. }
  destruct (cb_ requestMessage) as [what|[[what|value]|]]; simpl.
  - rewrite setError_awaiting
      by (unfold awaiting; simpl; apply lookup_new_future).
    simpl. rewrite insert_new_future, lookup_new_future. simpl.
    by eapply Hdone.
  - rewrite lookup_new_future. simpl. by eapply Hdone.
  - rewrite lookup_new_future. simpl. by eapply Hdone.
  - rewrite lookup_new_future. simpl. unfold addCallback. simpl.
    rewrite lookup_new_future. simpl. rewrite insert_new_future.
    eexists _, _. split; [reflexivity|]. simpl. split_and!; [|done|done].
    by destruct (rpcAgentRunning_ s); rewrite app_nil_r.
Qed.

(** The responses of a request are writes, on the pipe of the request, of
    a Message that has the id of the request, serialized as it is. *)
Lemma responses_stamped pipe messageId op :
  (∃ r, op ∈ servedWrites pipe messageId r)
  ∨ (∃ f, op = completedWrite pipe messageId f) →
  ∃ responseMessage fn,
    op = responseWrite pipe responseMessage fn
    ∧ id_ responseMessage = messageId
    ∧ (fn = ResponseWrittenFn ∨ fn = ErrorResponseWrittenFn).
Proof.
  intros [[r Hin]|[f ->]].
  - destruct r as [what|[[what|value]|]]; simpl in Hin.
    + apply list_elem_of_singleton in Hin as ->. eexists _, _. eauto.
    + apply list_elem_of_singleton in Hin as ->. eexists _, _. eauto.
    + apply list_elem_of_singleton in Hin as ->. eexists _, _. eauto.
    + by apply elem_of_nil in Hin.
  - unfold completedWrite. destruct (Future.error f); eexists _, _; eauto.
Qed.

(** C3. The response the server loop writes for a request carries the id
    of that request, on the pipe the request came from.  The read callback
    hands the id to the task it queues.  The task runs to its end: on a
    running agent it writes at once, for a callback that threw or returned
    a complete cell, one response, the exception response made of the
    error or the response of the cell with the id of the request in place
    of its own, and for a cell that is not complete it writes nothing and
    leaves on the cell the one callback that holds the same pipe and id.
    That callback, when the cell is completed, writes on a running agent
    the one response of the cell.  Each of these writes is the write, on
    that pipe, of a Message whose id is the id of the request, handed to
    the transport as the serialization makes it.  A stopped agent writes
    nothing. *)
Theorem response_carries_request_id (pipe : PipeId)
    (requestMessage : Message) (s : State) :
  0 ≤ id_ requestMessage < 2 ^ 64 →
  let messageId := id_ requestMessage in
  threadPool_ (onRequestRead pipe None requestMessage s)
  = threadPool_ s ++ [ServeTask pipe messageId requestMessage]
  ∧ (∀ s1,
       ∃ s2 f,
         runTask (ServeTask pipe messageId requestMessage) s1 = Ok s2
         ∧ operations s2
           = operations s1
             ++ (if rpcAgentRunning_ s1 then
                   servedWrites pipe messageId (cb_ requestMessage)
                 else [])
         ∧ futures s2 = futures s1 ++ [f]
         ∧ callbacks_ f
           = servedCallbacks pipe (length (futures s1)) messageId
               (cb_ requestMessage))
  ∧ (∀ fut f s3,
       futures s3 !! fut = Some f →
       ∃ s4,
         runCallback (SendCompleted pipe fut messageId) s3 = Ok s4
         ∧ operations s4
           = operations s3
             ++ (if rpcAgentRunning_ s3 then
                   [completedWrite pipe messageId f]
                 else []))
  ∧ (∀ op,
       op ∈ servedWrites pipe messageId (cb_ requestMessage)
       ∨ (∃ f, op = completedWrite pipe messageId f) →
       ∃ responseMessage fn,
         op = responseWrite pipe responseMessage fn
         ∧ id_ responseMessage = messageId
         ∧ (fn = ResponseWrittenFn ∨ fn = ErrorResponseWrittenFn)).
Proof.
  intros Hid messageId. split_and!.
  - unfold onRequestRead. simpl. by rewrite u64_small.
  - intros s1. apply serve_exact.
  - intros fut f s3 Hf.
    destruct (sendCompleted_exact pipe fut messageId s3 f Hf)
      as (s4 & Hrun & Hops & _).
    by exists s4.
  - intros op [Hin|Hop]; apply responses_stamped; eauto.
Qed.

End Server.

Section Descriptor.
Context `{External}.
Variable showMessageType : MessageType → string.

Abbreviation step := (step showMessageType).

Lemma fill_loop (rpcMessage : Message) (tpTensors : list TpTensor) (n : nat) :
  let r := foldl (fillTensor rpcMessage) tpTensors (seq 0 n) in
  length r = length tpTensors
  ∧ (∀ i, (i < n)%nat → r !! i = filled rpcMessage tpTensors i)
  ∧ (∀ i, (n ≤ i)%nat → r !! i = tpTensors !! i).
Proof.
  induction n as [|n (Hlen & Hlow & Hhigh)].
  { simpl. split_and!; [done|lia|done]. }
  rewrite seq_S, foldl_app. simpl.
  set (r := foldl (fillTensor rpcMessage) tpTensors (seq 0 n)) in *.
  assert (r !! n = tpTensors !! n) as Hn by (apply Hhigh; lia).
  unfold fillTensor. rewrite Hn.
  destruct (tensors_ rpcMessage !! n) as [rpcTensor|] eqn:Hrpc;
    [destruct (tpTensors !! n) as [tpTensor|] eqn:Htp|].
  - split_and!.
    + by rewrite length_insert.
    + intros i Hi. destruct (decide (i = n)) as [->|Hne].
      * rewrite list_lookup_insert_eq.
        -- unfold filled. by rewrite Hrpc, Htp.
        -- rewrite Hlen. by eapply lookup_lt_Some.
      * rewrite list_lookup_insert_ne by done. apply Hlow. lia.
    + intros i Hi. rewrite list_lookup_insert_ne by lia. apply Hhigh. lia.
  - split_and!; [done| |intros i Hi; apply Hhigh; lia].
    intros i Hi. destruct (decide (i = n)) as [->|Hne].
    + unfold filled. by rewrite Hrpc, Htp, Hn.
    + apply Hlow. lia.
  - split_and!; [done| |intros i Hi; apply Hhigh; lia].
    intros i Hi. destruct (decide (i = n)) as [->|Hne].
    + unfold filled. by rewrite Hrpc, Hn.
    + apply Hlow. lia.
Qed.

End Descriptor.

Section Steps.
Context `{External}.
Variable showMessageType : MessageType → string.

Abbreviation send := (send showMessageType).
Abbreviation step := (step showMessageType).

Lemma evolves_settles s s' : evolves s s' → settles s s'.
Proof.
  intros (_ & _ & Hpipes & Hid & Hp & Hops). unfold settles, registered.
  split_and!; try done. intros k w. by rewrite Hpipes.
Qed.

Lemma settles_trans s1 s2 s3 : settles s1 s2 → settles s2 s3 → settles s1 s3.
Proof.
  intros (? & ? & Hreg1 & new1 & Hops1 & Hnew1)
         (? & ? & Hreg2 & new2 & Hops2 & Hnew2).
  unfold settles. split_and!; try congruence.
  - eauto.
  - exists (new1 ++ new2). split.
    + by rewrite Hops2, Hops1, app_assoc.
    + by apply Forall_app.
Qed.

Lemma registered_alterPipe to g s k w :
  (∀ cp, is_Some (pendingResponseMessage_ (g cp) !! k) →
         is_Some (pendingResponseMessage_ cp !! k)) →
  registered (alterPipe to g s) k w → registered s k w.
Proof.
  intros Hg (cp' & Hcp' & Hk). unfold registered. simpl in Hcp'.
  destruct (decide (to = w)) as [->|Hne].
  - rewrite lookup_alter_eq in Hcp'.
    destruct (connectedPipes_ s !! w) as [cp|]; [|done].
    simpl in Hcp'. simplify_eq. eauto.
  - rewrite lookup_alter_ne in Hcp' by done. eauto.
Qed.

Lemma settles_alterPipe to g s :
  (∀ cp k, is_Some (pendingResponseMessage_ (g cp) !! k) →
           is_Some (pendingResponseMessage_ cp !! k)) →
  settles s (alterPipe to g s).
Proof.
  intros Hg. unfold settles. split_and!; try done.
  - intros k w. apply registered_alterPipe. intros cp. apply Hg.
  - exists []. by rewrite app_nil_r.
Qed.

Lemma onResponseRead_settles to error responseMessage s s' :
  onResponseRead to error responseMessage s = Ok s' → settles s s'.
Proof.
  unfold onResponseRead. intros Hrun.
  destruct (connectedPipes_ s !! to) as [clientPipe|]; [|done].
  destruct error as [what|].
  - destruct (flush _ what _) as [s1|] eqn:Hflush; [|done].
    simpl in Hrun. simplify_eq.
    apply evolves_flush, evolves_settles in Hflush.
    eapply settles_trans; [|eapply settles_trans; [exact Hflush|]].
    + apply evolves_settles, evolves_warn.
    + apply settles_alterPipe. intros cp k. simpl.
      rewrite lookup_empty. by intros [? ?].
  - destruct (readError_ clientPipe); [done|].
    destruct (_ !! u64 _) as [fut|]; [|done]. simplify_eq.
    eapply settles_trans;
      [|apply evolves_settles, evolves_set_threadPool].
    apply settles_alterPipe. intros cp k. simpl.
    rewrite lookup_delete_is_Some. by intros [_ ?].
Qed.

Lemma callReadFn_settles fn error rpcMessage s s' :
  callReadFn fn error rpcMessage s = Ok s' → settles s s'.
Proof.
  destruct fn as [pipe|to]; simpl; intros Hrun.
  - simplify_eq. apply evolves_settles, evolves_onRequestRead.
  - by eapply onResponseRead_settles.
Qed.

Lemma onDescriptor_settles pipe fn error tpMessage s s' :
  onDescriptor pipe fn error tpMessage s = Ok s' → settles s s'.
Proof.
  unfold onDescriptor. intros Hrun. destruct error as [what|].
  - by eapply callReadFn_settles.
  - case_bool_decide; [|done]. simplify_eq.
    by apply evolves_settles, evolves_submit.
Qed.

(** Every event but a call of [send] and the completion of an accept. *)
Lemma step_settles e s s' :
  step e s = Ok s' →
  (∀ to m, e ≠ SendCall to m) → (∀ n error, e ≠ AcceptDone n error) →
  settles (after e s) s'
  ∧ ∀ n, completes e = Some n →
         ∃ op, operations s !! n = Some op ∧ isAccept op = false.
Proof.
  intros Hstep Hsend Haccept.
  destruct e as [to m|n error|n error tpMessage|n error bytes|n error|n
                |fut [what|value]|]; simpl in Hstep.
  - by destruct (Hsend to m).
  - by destruct (Haccept n error).
  - destruct (operations s !! n) as [[]|] eqn:Hop; try done.
    split; [by eapply onDescriptor_settles|].
    intros ? [= <-]. by eexists.
  - destruct (operations s !! n) as [[]|] eqn:Hop; try done.
    split; [by eapply callReadFn_settles|].
    intros ? [= <-]. by eexists.
  - destruct (operations s !! n) as [[]|] eqn:Hop; try done.
    split; [by eapply evolves_settles, evolves_callWriteFn|].
    intros ? [= <-]. by eexists.
  - destruct (threadPool_ s !! n) as [t|]; [|done].
    split; [|done]. apply evolves_settles.
    eapply evolves_trans; [apply evolves_set_threadPool|].
    by eapply evolves_runTask.
  - split; [|done]. by eapply evolves_settles, evolves_complete.
  - split; [|done]. by eapply evolves_settles, evolves_complete.
  - simplify_eq. split; [|done].
    unfold settles. simpl. split_and!; try done.
    exists []. by rewrite app_nil_r.
Qed.

Lemma written_pipeWrite pipe rpcMessage to fut s :
  written (pipeWrite pipe rpcMessage (RequestWrittenFn to fut) s)
  = Some rpcMessage.
Proof. unfold written, pipeWrite, submit. simpl. by rewrite last_snoc. Qed.

Lemma send_effect toWorkerInfo requestMessage s fut s' :
  send toWorkerInfo requestMessage s = inr (fut, s') →
  nextMessageID_ s' = u64 (nextMessageID_ s + 1)
  ∧ written s' = Some (setId requestMessage (nextMessageID_ s))
  ∧ (∃ newp, pipes s' = pipes s ++ newp ∧ Forall (λ o, o ≠ Accepted) newp)
  ∧ (∃ op, operations s' = operations s ++ [op] ∧ isAccept op = false)
  ∧ ∀ k w, registered s' k w →
           registered s k w
           ∨ (k = u64 (nextMessageID_ s) ∧ w = w_id_ toWorkerInfo).
Proof.
  unfold send, findWorkerURL. intros Hsend.
  destruct (negb (isRequest requestMessage)); [done|].
  destruct (negb (rpcAgentRunning_ s)); [done|].
  destruct (workerNameToURL_ s !! w_name_ toWorkerInfo) as [url|]; [|done].
  destruct (connectedPipes_ s !! w_id_ toWorkerInfo) as [clientPipe|]
    eqn:Hcp; simpl in Hsend; simplify_eq; simpl.
  - split_and!; [done|apply written_pipeWrite| | |].
    + exists []. by rewrite app_nil_r.
    + by eexists.
    + intros k w (cp' & Hcp' & Hk). simpl in Hcp'.
      destruct (decide (w_id_ toWorkerInfo = w)) as [<-|Hne].
      * rewrite lookup_insert_eq in Hcp'. simplify_eq. simpl in Hk.
        apply lookup_insert_is_Some in Hk as [<-|[_ Hk]]; [by right|].
        left. by exists clientPipe.
      * rewrite lookup_insert_ne in Hcp' by done. left. by exists cp'.
  - split_and!; [done|apply written_pipeWrite| | |].
    + eexists [_]. split; [done|]. by apply Forall_singleton.
    + by eexists.
    + intros k w (cp' & Hcp' & Hk). simpl in Hcp'.
      destruct (decide (w_id_ toWorkerInfo = w)) as [<-|Hne].
      * rewrite lookup_insert_eq in Hcp'. simplify_eq. simpl in Hk.
        apply lookup_insert_is_Some in Hk as [<-|[_ Hk]]; [by right|].
        rewrite lookup_empty in Hk. by destruct Hk.
      * rewrite !lookup_insert_ne in Hcp' by done. left. by exists cp'.
Qed.

Lemma numbered_step log e s s' :
  numbered log s → step e s = Ok s' →
  numbered (log ++ assigned showMessageType e s) s'.
Proof.
  intros (Hnext & Hlog & Hreg) Hstep.
  assert (∀ s1, nextMessageID_ s1 = nextMessageID_ s →
                (∀ k w, registered s1 k w → registered s k w) →
                numbered (log ++ []) s1) as Hsame.
  { intros s1 Hnext1 Hreg1. rewrite app_nil_r. unfold numbered.
    split_and!; [congruence|done|eauto]. }
  destruct e as [to m|n error|n error tpMessage|n error bytes|n error|n
                |fut outcome|].
  { simpl in *. destruct (send to m s) as [exn|[fut s1]] eqn:Hsend.
    - simplify_eq. by apply Hsame.
    - simplify_eq. simpl.
      apply send_effect in Hsend as (Hnext' & -> & _ & _ & Hreg').
      simpl. unfold numbered.
      rewrite length_app, fmap_app, Nat.add_1_r, seq_S, fmap_app. simpl.
      split_and!.
      + rewrite Hnext', Hnext, Nat2Z.inj_succ. unfold u64.
        by rewrite <- Z.add_1_r, Zplus_mod_idemp_l.
      + by rewrite <- Hlog, Hnext.
      + intros k w [Hold|[-> ->]]%Hreg'.
        * apply elem_of_app. left. by apply Hreg.
        * apply elem_of_app. right. rewrite Hnext, u64_idem, <- Hnext.
          by apply list_elem_of_singleton. }
  { simpl in Hstep. destruct (operations s !! n) as [[]|]; try done.
    destruct error; simplify_eq; by apply Hsame. }
  all: apply step_settles in Hstep as [(Hnext' & _ & Hreg' & _) _];
    [|done..]; by apply Hsame.
Qed.

Lemma numbered_run es log s s' :
  numbered log s → run showMessageType es s = Ok s' →
  numbered (log ++ issued showMessageType es s) s'.
Proof.
  revert log s. induction es as [|e es IH]; intros log s Hnum Hrun.
  - simpl in *. simplify_eq. by rewrite app_nil_r.
  - simpl in *. destruct (step e s) as [s1|] eqn:Hstep; [|done].
    simpl in Hrun. rewrite app_assoc. apply IH; [|done].
    by eapply numbered_step.
Qed.

Lemma numbered_NoDup log s :
  numbered log s → (Z.of_nat (length log) ≤ 2 ^ 64)%Z → NoDup log.*1.
Proof.
  intros (_ & -> & _) Hlen. apply NoDup_fmap_2_strong; [|apply NoDup_seq].
  intros i j Hi%elem_of_seq Hj%elem_of_seq Heq.
  rewrite !u64_small in Heq by lia. lia.
Qed.

Lemma numbered_started self urls : numbered [] (started self urls).
Proof.
  unfold numbered. split_and!; [done|done|].
  intros k w (cp & Hcp & _). simpl in Hcp. by rewrite lookup_empty in Hcp.
Qed.

Lemma one_peer_per_id (log : list (Z * worker_id_t)) k w1 w2 :
  NoDup log.*1 → (k, w1) ∈ log → (k, w2) ∈ log → w1 = w2.
Proof.
  intros Hnd H1 H2.
  apply (elem_of_list_to_map (M := gmap Z) log k w1 Hnd) in H1.
  apply (elem_of_list_to_map (M := gmap Z) log k w2 Hnd) in H2.
  congruence.
Qed.

(** C5. Along a run of the agent from its start, as long as the counter
    has not gone round (at most 2^64 ids assigned), the message ids the
    calls of [send] assign are pairwise distinct, every id in a pending
    table is one of them, registered for the peer it was assigned for, and
    so an id is in the pending table of at most one connection. *)
Theorem message_ids_distinct (self : WorkerInfo) (urls : gmap string string)
    (es : list Event) (s : State) :
  let ids := issued showMessageType es (started self urls) in
  run showMessageType es (started self urls) = Ok s →
  (Z.of_nat (length ids) ≤ 2 ^ 64)%Z →
  NoDup ids.*1
  ∧ (∀ k w, registered s k w → (k, w) ∈ ids)
  ∧ ∀ k w1 w2, registered s k w1 → registered s k w2 → w1 = w2.
Proof.
  intros ids Hrun Hlen.
  pose proof (numbered_run es [] _ _ (numbered_started self urls) Hrun)
    as Hnum.
  simpl in Hnum. fold ids in Hnum.
  pose proof (numbered_NoDup _ _ Hnum Hlen) as Hnd.
  destruct Hnum as (_ & _ & Hreg). split_and!; [done|done|].
  intros k w1 w2 H1%Hreg H2%Hreg. by eapply one_peer_per_id.
Qed.

End Steps.

Section Listener.
Context `{External}.
Variable showMessageType : MessageType → string.

Abbreviation step := (step showMessageType).
Abbreviation run := (run showMessageType).

Lemma count_accepts_app (ops new : list Operation) :
  Forall (λ op, op ≠ AcceptOp) new →
  filter (λ op, isAccept op) (ops ++ new) = filter (λ op, isAccept op) ops.
Proof.
  intros Hnew. rewrite filter_app.
  replace (filter (λ op, isAccept op) new) with (@nil Operation);
    [by rewrite app_nil_r|].
  induction Hnew as [|op new Hop _ IH].
  - reflexivity.
  - rewrite filter_cons_False; [done|]. by destruct op; simpl; intros ?.
Qed.

Lemma count_accepts_delete (ops : list Operation) (n : nat) (op : Operation) :
  ops !! n = Some op →
  length (filter (λ op, isAccept op) ops)
  = (length (filter (λ op, isAccept op) (delete n ops))
     + (if isAccept op then 1 else 0))%nat.
Proof.
  revert n. induction ops as [|op' ops IH]; intros n Hn; [done|].
  destruct n as [|n]; simpl in Hn.
  - simplify_eq. simpl. rewrite filter_cons.
    destruct (isAccept op); simpl; lia.
  - change (delete (S n) (op' :: ops)) with (op' :: delete n ops).
    rewrite !filter_cons. specialize (IH n Hn).
    destruct (decide (isAccept op')); simpl; lia.
Qed.

Lemma none_accepted (newp : list PipeOrigin) :
  Forall (λ o, o ≠ Accepted) newp → filter (λ o, o = Accepted) newp = [].
Proof.
  induction 1 as [|o newp Ho _ IH]; [reflexivity|].
  by rewrite filter_cons_False.
Qed.

Lemma accepts_settles s s' :
  settles s s' → accepts s' = accepts s ∧ inbound s' = inbound s.
Proof.
  intros (_ & Hpipes & _ & new & Hops & Hnew). unfold accepts, inbound.
  by rewrite Hpipes, Hops, count_accepts_app.
Qed.

Lemma accepts_send toWorkerInfo requestMessage s fut s' :
  send showMessageType toWorkerInfo requestMessage s = inr (fut, s') →
  accepts s' = accepts s ∧ inbound s' = inbound s.
Proof.
  intros (_ & _ & (newp & Hpipes & Hnewp) & (op & Hops & Hop) & _)%send_effect.
  unfold accepts, inbound. rewrite Hpipes, Hops. split.
  - rewrite count_accepts_app; [done|].
    apply Forall_singleton. by destruct op.
  - rewrite filter_app, (none_accepted newp) by done. by rewrite app_nil_r.
Qed.

(** An event that is not the completion of an accept neither arms an
    accept nor accepts a connection. *)
Lemma accepts_step e s s' :
  step e s = Ok s' → (∀ n error, e ≠ AcceptDone n error) →
  accepts s' = accepts s ∧ inbound s' = inbound s.
Proof.
  intros Hstep Hnoaccept.
  destruct e as [to m|n error|n error tpMessage|n error bytes|n error|n
                |fut outcome|].
  { simpl in Hstep. destruct (send _ to m s) as [exn|[fut s1]] eqn:Hsend.
    - by simplify_eq.
    - simplify_eq. by eapply accepts_send. }
  { by destruct (Hnoaccept n error). }
  all: apply step_settles in Hstep as [Hsettles Hop]; [|done..];
    apply accepts_settles in Hsettles as [Hacc Hin];
    rewrite Hacc, Hin; simpl; try done.
  all: destruct (Hop n eq_refl) as (op & Hn & Hnot);
    unfold accepts, inbound; simpl;
    rewrite (count_accepts_delete (operations s) n op Hn), Hnot;
    split; [lia|done].
Qed.

(** The completion of an accept takes one accept off the transport, and
    puts one back when, and only when, it brings a connection. *)
Lemma accepts_AcceptDone n error s s' :
  step (AcceptDone n error) s = Ok s' →
  operations s !! n = Some AcceptOp
  ∧ (accepts s' + match error with Some _ => 1 | None => 0 end)%nat
    = accepts s
  ∧ inbound s'
    = (inbound s + match error with Some _ => 0 | None => 1 end)%nat.
Proof.
  simpl. intros Hstep.
  destruct (operations s !! n) as [[]|] eqn:Hn; try done.
  split; [done|]. unfold accepts, inbound.
  rewrite (count_accepts_delete (operations s) n AcceptOp Hn). simpl.
  destruct error as [what|]; simplify_eq; simpl.
  - split; [lia|done].
  - rewrite !filter_app, !length_app. simpl. lia.
Qed.

Lemma accepts_never_grow es s s' :
  run es s = Ok s' → (accepts s' ≤ accepts s)%nat.
Proof.
  revert s. induction es as [|e es IH]; intros s Hrun; simpl in Hrun.
  - simplify_eq. lia.
  - destruct (step e s) as [s1|] eqn:Hstep; [|done]. simpl in Hrun.
    specialize (IH _ Hrun).
    destruct e as [| n error | | | | | |];
      try (apply accepts_step in Hstep as [? _]; [lia|done]).
    apply accepts_AcceptDone in Hstep as (_ & ? & _). lia.
Qed.

(** With no accept outstanding, none completes, and no connection comes
    in. *)
Lemma listener_stalled es s s' :
  accepts s = 0%nat → run es s = Ok s' →
  accepts s' = 0%nat ∧ inbound s' = inbound s
  ∧ ∀ e, e ∈ es → ∀ n error, e ≠ AcceptDone n error.
Proof.
  revert s. induction es as [|e es IH]; intros s Hzero Hrun; simpl in Hrun.
  - simplify_eq. split_and!; [done|done|]. by intros e ?%elem_of_nil.
  - destruct (step e s) as [s1|] eqn:Hstep; [|done]. simpl in Hrun.
    assert (∀ n error, e ≠ AcceptDone n error) as Hnoaccept.
    { intros n error ->. apply accepts_AcceptDone in Hstep as (Hn & _).
      pose proof (count_accepts_delete _ _ _ Hn) as Hcount.
      unfold accepts in Hzero. simpl in Hcount. lia. }
    apply accepts_step in Hstep as [Hacc Hin]; [|done].
    destruct (IH s1) as (Hzero' & Hin' & Hes); [lia|done|].
    split_and!; [done|congruence|].
    intros e' [->|He']%elem_of_cons; eauto.
Qed.

Lemma accepts_onListenerAccepted error pipe s :
  accepts (onListenerAccepted error pipe s)
  = (accepts s + match error with Some _ => 0 | None => 1 end)%nat.
Proof.
  unfold accepts. destruct error as [what|]; simpl; [lia|].
  rewrite !filter_app, !length_app. simpl. lia.
Qed.

(** C8. The accept handler arms a new accept if and only if the accept
    that completed brought a connection; on an error it logs the error
    and returns, leaving the outstanding operations as they were.  The
    listener has one accept outstanding at a time, so once an accept has
    completed with an error none is outstanding: in every run that
    follows, no accept completes and no connection is accepted any
    more. *)
Theorem accept_rearmed_only_after_success (self : WorkerInfo)
    (urls : gmap string string) (es : list Event) (s : State) (n : nat)
    (what : string) (s1 : State) :
  run es (started self urls) = Ok s →
  step (AcceptDone n (Some what)) s = Ok s1 →
  (∀ error pipe s0,
     (accepts (onListenerAccepted error pipe s0) = S (accepts s0)
      ↔ error = None)
     ∧ (error ≠ None →
        operations (onListenerAccepted error pipe s0) = operations s0))
  ∧ warnings s1 = warnings s ++ ["got error from listener: " +:+ what]
  ∧ accepts s1 = 0%nat
  ∧ ∀ es2 s2,
      run es2 s1 = Ok s2 →
      accepts s2 = 0%nat
      ∧ inbound s2 = inbound s1
      ∧ ∀ e, e ∈ es2 → ∀ k error, e ≠ AcceptDone k error.
Proof.
  intros Hrun Hstep. split_and!.
  - intros error pipe s0. rewrite accepts_onListenerAccepted.
    destruct error as [w|].
    + split; [|done]. split; [lia|done].
    + split; [|done]. split; [done|intros _; lia].
  - simpl in Hstep. destruct (operations s !! n) as [[]|]; try done.
    by simplify_eq.
  - apply accepts_never_grow in Hrun.
    apply accepts_AcceptDone in Hstep as (_ & Hacc & _).
    change (accepts (started self urls)) with 1%nat in Hrun. lia.
  - intros es2 s2 Hrun2. eapply listener_stalled; [|done].
    apply accepts_never_grow in Hrun.
    apply accepts_AcceptDone in Hstep as (_ & Hacc & _).
    change (accepts (started self urls)) with 1%nat in Hrun. lia.
Qed.

End Listener.

Section KeptAlive.
Context `{External}.
Variable showMessageType : MessageType → string.

Abbreviation step := (step showMessageType).

Lemma elem_of_delete_or {A} (l : list A) (n : nat) (x : A) :
  x ∈ l → x ∈ delete n l ∨ l !! n = Some x.
Proof.
  intros [i Hi]%list_elem_of_lookup.
  destruct (lt_eq_lt_dec i n) as [[Hlt| ->]|Hgt].
  - left. apply list_elem_of_lookup. exists i.
    by rewrite list_lookup_delete_lt.
  - by right.
  - left. apply list_elem_of_lookup. exists (pred i).
    rewrite list_lookup_delete_ge by lia.
    by replace (S (pred i)) with i by lia.
Qed.

Lemma step_operations e s s' :
  step e s = Ok s' → ∃ new, operations s' = operations (after e s) ++ new.
Proof.
  intros Hstep.
  destruct e as [to m|n error|n error tpMessage|n error bytes|n error|n
                |fut outcome|].
  { simpl in Hstep. destruct (send _ to m s) as [exn|[fut s1]] eqn:Hsend.
    - simplify_eq. exists []. by rewrite app_nil_r.
    - simplify_eq.
      apply send_effect in Hsend as (_ & _ & _ & (op & Hops & _) & _).
      by exists [op]. }
  { simpl in Hstep. destruct (operations s !! n) as [[]|]; try done.
    destruct error; simplify_eq; simpl.
    - exists []. by rewrite app_nil_r.
    - eexists [_; _]. by rewrite <- app_assoc. }
  all: apply step_settles in Hstep as [(_ & _ & _ & new & Hops & _) _];
    [|done..]; by exists new.
Qed.

(** An operation stays with the transport, and with it what its
    completion lambda holds, until the event that completes it. *)
Lemma operation_kept e s s' op :
  step e s = Ok s' → op ∈ operations s →
  op ∈ operations s' ∨ ∃ n, completes e = Some n ∧ operations s !! n = Some op.
Proof.
  intros Hstep Hop. destruct (step_operations _ _ _ Hstep) as [new ->].
  unfold after. destruct (completes e) as [n|].
  - destruct (elem_of_delete_or _ n _ Hop) as [Hin|Hn].
    + left. apply elem_of_app. by left.
    + right. by exists n.
  - left. apply elem_of_app. by left.
Qed.

(** C9. When the descriptor of an incoming message arrives, [pipeRead]
    allocates the destination Message; if the number of its tensors is not
    the number of buffers the descriptor announces, the callback stops on
    a fatal assertion and no read is issued; otherwise it puts the address
    of the payload and of every tensor in the descriptor, keeping the
    announced sizes, and only then hands the read to the transport.  The
    read holds the allocated Message: it stays with the transport through
    every other event, and its completion hands that Message to the
    continuation. *)
Theorem descriptor_read_allocates_then_reads (s : State) (n : nat)
    (pipe : PipeId) (fn : ReadFn) (tpMessage : TpMessage) :
  let rpcMessage := tensorpipeAllocateMessage tpMessage in
  let e := DescriptorDone n None tpMessage in
  operations s !! n = Some (ReadDescriptorOp pipe fn) →
  (length (tensors_ rpcMessage) ≠ length (tp_tensors tpMessage) →
   step e s = Abort (InternalAssert "Tensor num mismatch"))
  ∧ (length (tensors_ rpcMessage) = length (tp_tensors tpMessage) →
     ∃ filledMessage,
       let read := ReadOp pipe filledMessage rpcMessage fn in
       step e s = Ok (submit read (completed_op n s))
       ∧ tp_data filledMessage = payload_data rpcMessage
       ∧ tp_length filledMessage = tp_length tpMessage
       ∧ length (tp_tensors filledMessage) = length (tensors_ rpcMessage)
       ∧ (∀ i rpcTensor,
            tensors_ rpcMessage !! i = Some rpcTensor →
            ∃ tpTensor,
              tp_tensors tpMessage !! i = Some tpTensor
              ∧ tp_tensors filledMessage !! i
                = Some {| tt_data := data_ptr rpcTensor;
                          tt_length := tt_length tpTensor |})
       ∧ (∀ e' s1 s2,
            read ∈ operations s1 → step e' s1 = Ok s2 →
            read ∈ operations s2
            ∨ ∃ k error bytes, e' = ReadDone k error bytes
                               ∧ operations s1 !! k = Some read)
       ∧ ∀ s1 k error bytes,
           operations s1 !! k = Some read →
           step (ReadDone k error bytes) s1
           = callReadFn fn error (received bytes rpcMessage)
               (completed_op k s1)).
Proof.
  intros rpcMessage e Hop. subst e. unfold step. rewrite Hop.
  unfold onDescriptor. fold rpcMessage. split.
  { intros Hne. by rewrite bool_decide_eq_false_2. }
  intros Heq. rewrite bool_decide_eq_true_2 by done.
  eexists. split_and!; [reflexivity|done|done| | | |].
  - simpl. destruct (fill_loop rpcMessage (tp_tensors tpMessage)
                       (length (tensors_ rpcMessage))) as (Hlen & _).
    by rewrite Hlen.
  - intros i rpcTensor Hi. simpl.
    destruct (fill_loop rpcMessage (tp_tensors tpMessage)
                (length (tensors_ rpcMessage))) as (_ & Hlow & _).
    assert (i < length (tensors_ rpcMessage))%nat as Hlt
      by (by eapply lookup_lt_Some).
    destruct (lookup_lt_is_Some_2 (tp_tensors tpMessage) i) as [tpTensor Htp];
      [by rewrite <- Heq|].
    exists tpTensor. split; [done|].
    rewrite (Hlow i Hlt). unfold filled. by rewrite Hi, Htp.
  - intros e' s1 s2 Hin Hstep.
    destruct (operation_kept _ _ _ _ Hstep Hin) as [?|(k & Hk & Hread)];
      [by left|right].
    destruct e' as [| | | | | | |]; simpl in Hk, Hstep; simplify_eq;
      rewrite Hread in Hstep; try done.
    by eexists _, _, _.
  - intros s1 k error bytes Hread. by rewrite Hread.
Qed.

End KeptAlive.

(** * The rest of the agent *)

Section Workers.

Lemma lookup_emplace `{Countable K} {V : Type} (k k' : K) (v : V)
    (m : gmap K V) :
  emplace k v m !! k'
  = match m !! k' with
    | Some x => Some x
    | None => if decide (k = k') then Some v else None
    end.
Proof.
  unfold emplace. destruct (m !! k) as [x|] eqn:Hk.
  - destruct (m !! k') as [x'|] eqn:Hk'; [done|].
    case_decide; [congruence|done].
  - destruct (decide (k = k')) as [<-|Hne].
    + by rewrite lookup_insert_eq, Hk.
    + rewrite lookup_insert_ne by done. by destruct (m !! k').
Qed.

(** The two tables after the loop of the constructor: a name, or an id, is
    bound to the first entry of the options that has it. *)
Lemma constructor_loop (workerNameToId : list (string * Z)) :
  (∀ name, workerNameToInfo_ (TensorPipeAgent workerNameToId) !! name
           = (λ id, mkWorkerInfo name id)
               <$> (list_to_map workerNameToId : gmap string Z) !! name)
  ∧ (∀ id, workerIdToInfo_ (TensorPipeAgent workerNameToId) !! id
           = (λ name, mkWorkerInfo name id)
               <$> (list_to_map (prod_swap <$> workerNameToId) : gmap Z string)
                     !! id).
Proof.
  unfold TensorPipeAgent.
  set (body := λ (d : Directory) (kv : string * Z), _).
  assert (∀ kvs d0,
            let d := foldl body d0 kvs in
            (∀ name, workerNameToInfo_ d !! name
                     = match workerNameToInfo_ d0 !! name with
                       | Some info => Some info
                       | None =>
                           (λ id, mkWorkerInfo name id)
                             <$> (list_to_map kvs : gmap string Z) !! name
                       end)
            ∧ (∀ id, workerIdToInfo_ d !! id
                     = match workerIdToInfo_ d0 !! id with
                       | Some info => Some info
                       | None =>
                           (λ name, mkWorkerInfo name id)
                             <$> (list_to_map (prod_swap <$> kvs)
                                    : gmap Z string) !! id
                       end)) as Hloop.
  { induction kvs as [|[n i] kvs IH]; intros d0.
    - simpl. split; intros k; rewrite lookup_empty; by destruct (_ !! k).
    - simpl. destruct (IH (body d0 (n, i))) as [Hnames Hids]. split.
      + intros name. rewrite Hnames. simpl. rewrite lookup_emplace.
        destruct (workerNameToInfo_ d0 !! name) as [info|]; [done|].
        destruct (decide (n = name)) as [->|Hne].
        * by rewrite lookup_insert_eq.
        * by rewrite lookup_insert_ne.
      + intros id. rewrite Hids. simpl. rewrite lookup_emplace.
        destruct (workerIdToInfo_ d0 !! id) as [info|]; [done|].
        destruct (decide (i = id)) as [->|Hne].
        * by rewrite lookup_insert_eq.
        * by rewrite lookup_insert_ne. }
  destruct (Hloop workerNameToId (mkDirectory ∅ ∅)) as [Hn Hi].
  split; intros k.
  - rewrite Hn. simpl. by rewrite lookup_empty.
  - rewrite Hi. simpl. by rewrite lookup_empty.
Qed.

(** X1. The worker of a name is the one the options bind the name to; an
    unknown name is an error. *)
Theorem getWorkerInfo_by_name (workerNameToId : list (string * Z))
    (workerName : string) :
  NoDup workerNameToId.*1 →
  (∀ workerId,
     (workerName, workerId) ∈ workerNameToId →
     getWorkerInfo workerName (TensorPipeAgent workerNameToId)
     = inr (mkWorkerInfo workerName workerId))
  ∧ (workerName ∉ workerNameToId.*1 →
     getWorkerInfo workerName (TensorPipeAgent workerNameToId)
     = inl (C10Error ("Unknown destination worker " +:+ workerName))).
Proof.
  intros Hnd. unfold getWorkerInfo.
  destruct (constructor_loop workerNameToId) as [-> _]. split.
  - intros workerId Hin.
    by rewrite (elem_of_list_to_map_1 _ _ _ Hnd Hin).
  - intros Hnotin. by rewrite (not_elem_of_list_to_map_1 _ _ Hnotin).
Qed.

(** X2. The worker of an id is the first worker of the options that has the
    id, also when a later one has it too; an id no worker has is an
    error. *)
Theorem getWorkerInfo_by_id (workerNameToId : list (string * Z))
    (workerId : Z) :
  (∀ before workerName later,
     workerNameToId = before ++ (workerName, workerId) :: later →
     workerId ∉ before.*2 →
     getWorkerInfoById workerId (TensorPipeAgent workerNameToId)
     = inr (mkWorkerInfo workerName workerId))
  ∧ (workerId ∉ workerNameToId.*2 →
     getWorkerInfoById workerId (TensorPipeAgent workerNameToId)
     = inl (C10Error ("Unknown destination worker " +:+ pretty workerId))).
Proof.
  unfold getWorkerInfoById.
  destruct (constructor_loop workerNameToId) as [_ ->]. split.
  - intros before workerName later -> Hnotin.
    rewrite fmap_app, list_to_map_app, lookup_union_r.
    + simpl. by rewrite lookup_insert_eq.
    + apply not_elem_of_list_to_map_1.
      by rewrite <- list_fmap_compose.
  - intros Hnotin. rewrite (not_elem_of_list_to_map_1 _ workerId); [done|].
    by rewrite <- list_fmap_compose.
Qed.

(** X3. When the options give every worker its own id, the two lookups are
    inverse to each other. *)
Theorem worker_name_id_round_trip (workerNameToId : list (string * Z)) :
  NoDup workerNameToId.*1 → NoDup workerNameToId.*2 →
  (∀ workerName info,
     getWorkerInfo workerName (TensorPipeAgent workerNameToId) = inr info →
     w_name_ info = workerName
     ∧ getWorkerInfoById (w_id_ info) (TensorPipeAgent workerNameToId)
       = inr info)
  ∧ (∀ workerId info,
       getWorkerInfoById workerId (TensorPipeAgent workerNameToId)
       = inr info →
       w_id_ info = workerId
       ∧ getWorkerInfo (w_name_ info) (TensorPipeAgent workerNameToId)
         = inr info).
Proof.
  intros Hnames Hids. unfold getWorkerInfo, getWorkerInfoById.
  destruct (constructor_loop workerNameToId) as [Hn Hi].
  assert (NoDup (prod_swap <$> workerNameToId).*1) as Hids'
    by (by rewrite <- list_fmap_compose).
  split.
  - intros workerName info. rewrite Hn.
    destruct (_ !! workerName) as [workerId|] eqn:Hname; [|done].
    simpl. intros [= <-]. simpl. split; [done|].
    apply elem_of_list_to_map_2 in Hname. rewrite Hi.
    rewrite (elem_of_list_to_map_1 _ workerId workerName Hids'); [done|].
    apply list_elem_of_fmap. by exists (workerName, workerId).
  - intros workerId info. rewrite Hi.
    destruct (_ !! workerId) as [workerName|] eqn:Hid; [|done].
    simpl. intros [= <-]. simpl. split; [done|].
    apply elem_of_list_to_map_2 in Hid.
    apply list_elem_of_fmap in Hid as ([n i] & [= -> ->] & Hin).
    rewrite Hn. by rewrite (elem_of_list_to_map_1 _ _ _ Hnames Hin).
Qed.

(** X4. [getWorkerInfos] lists the workers of the options, each once. *)
Theorem getWorkerInfos_all (workerNameToId : list (string * Z)) :
  NoDup workerNameToId.*1 →
  getWorkerInfos (TensorPipeAgent workerNameToId)
  ≡ₚ (λ kv, mkWorkerInfo kv.1 kv.2) <$> workerNameToId.
Proof.
  intros Hnd. unfold getWorkerInfos.
  assert (workerNameToInfo_ (TensorPipeAgent workerNameToId)
          = list_to_map ((λ kv, (kv.1, mkWorkerInfo kv.1 kv.2))
                           <$> workerNameToId)) as ->.
  { apply map_eq. intros name.
    destruct (constructor_loop workerNameToId) as [-> _].
    destruct (list_to_map workerNameToId !! name) as [workerId|] eqn:Hname.
    - apply elem_of_list_to_map_2 in Hname. simpl. symmetry.
      apply elem_of_list_to_map_1.
      + by rewrite <- list_fmap_compose.
      + apply list_elem_of_fmap. by exists (name, workerId).
    - apply not_elem_of_list_to_map in Hname. simpl. symmetry.
      apply not_elem_of_list_to_map_1. by rewrite <- list_fmap_compose. }
  rewrite map_to_list_to_map by (by rewrite <- list_fmap_compose).
  by rewrite <- list_fmap_compose.
Qed.

End Workers.

Section Start.

Lemma fetchURLs_Some (names : list string)
    (addressStore : gmap string (list byte))
    (workerNameToURL urls : gmap string string) :
  fetchURLs names addressStore workerNameToURL = Some urls →
  ∀ name,
    urls !! name
    = match workerNameToURL !! name with
      | Some url => Some url
      | None =>
          if decide (name ∈ names) then
            string_of_list_byte <$> addressStore !! name
          else None
      end.
Proof.
  revert workerNameToURL.
  induction names as [|n names IH]; intros acc Hrun name; simpl in Hrun.
  - simplify_eq. destruct (urls !! name); [done|].
    case_decide as Hin; [by apply elem_of_nil in Hin|done].
  - destruct (addressStore !! n) as [data|] eqn:Hn; [|done]. simpl in Hrun.
    rewrite (IH _ Hrun name), lookup_emplace.
    destruct (acc !! name) as [url|]; [done|].
    destruct (decide (n = name)) as [->|Hne].
    + rewrite Hn. simpl. rewrite decide_True; [done|]. by left.
    + destruct (decide (name ∈ names)) as [Hin|Hnotin].
      * rewrite decide_True; [done|]. by right.
      * rewrite decide_False; [done|].
        intros [->|?]%elem_of_cons; done.
Qed.

Lemma fetchURLs_returns (names : list string)
    (addressStore : gmap string (list byte))
    (workerNameToURL : gmap string string) :
  is_Some (fetchURLs names addressStore workerNameToURL)
  ↔ ∀ name, name ∈ names → is_Some (addressStore !! name).
Proof.
  revert workerNameToURL.
  induction names as [|n names IH]; intros acc; simpl.
  - split; [by intros _ name ?%elem_of_nil|by eexists].
  - destruct (addressStore !! n) as [data|] eqn:Hn; simpl.
    + rewrite IH. split.
      * intros Hall name [->|Hin]%elem_of_cons; [by eexists|by apply Hall].
      * intros Hall name Hin. apply Hall. by right.
    + split; [by intros [? ?]|].
      intros Hall. destruct (Hall n) as [data Hdata]; [by left|].
      congruence.
Qed.

Lemma directory_names (d : Directory) (name : string) :
  name ∈ (map_to_list (workerNameToInfo_ d)).*1
  ↔ is_Some (workerNameToInfo_ d !! name).
Proof.
  rewrite list_elem_of_fmap. split.
  - intros ([n info] & -> & Hin%elem_of_map_to_list). by eexists.
  - intros [info Hinfo]. exists (name, info). split; [done|].
    by apply elem_of_map_to_list.
Qed.

(** X5. [startImpl] returns when, and only when, the store has the address of
    every worker of the directory, the agent's own apart, which it stores
    itself. *)
Theorem startImpl_returns (address : string) (d : Directory)
    (addressStore : gmap string (list byte)) (s : State) :
  is_Some (startImpl address d addressStore s)
  ↔ ∀ name, is_Some (workerNameToInfo_ d !! name) →
            name = w_name_ (workerInfo_ s)
            ∨ is_Some (addressStore !! name).
Proof.
  unfold startImpl.
  set (store' := <[_ := _]> addressStore).
  assert (is_Some (fetchURLs (map_to_list (workerNameToInfo_ d)).*1 store'
                     (workerNameToURL_ s))
          ↔ ∀ name, is_Some (workerNameToInfo_ d !! name) →
                    name = w_name_ (workerInfo_ s)
                    ∨ is_Some (addressStore !! name)) as <-.
  { rewrite fetchURLs_returns. unfold store'.
    split; intros Hall name Hname.
    - apply directory_names, Hall in Hname.
      apply lookup_insert_is_Some in Hname as [<-|[_ ?]]; [by left|by right].
    - apply directory_names, Hall in Hname.
      apply lookup_insert_is_Some.
      destruct (decide (w_name_ (workerInfo_ s) = name)); [by left|].
      right. by destruct Hname as [->|?]. }
  destruct (fetchURLs _ _ _) as [urls|]; simpl.
  - split; by eexists.
  - split; by intros [? ?].
Qed.

(** X6. What [startImpl] leaves: the store has the agent's url under the
    agent's name, the url table has, for the workers of the directory and
    for them only, the text of what the store holds for the name, and the
    agent is the started agent of that table, one accept outstanding. *)
Theorem startImpl_fetches_urls (address : string) (d : Directory)
    (addressStore addressStore' : gmap string (list byte))
    (self : WorkerInfo) (s' : State) :
  startImpl address d addressStore (created self)
  = Some (s', addressStore') →
  addressStore'
  = <[w_name_ self := list_byte_of_string address]> addressStore
  ∧ s' = started self (workerNameToURL_ s')
  ∧ (∀ name info,
       workerNameToInfo_ d !! name = Some info →
       ∃ nodeAddrData,
         addressStore' !! name = Some nodeAddrData
         ∧ workerNameToURL_ s' !! name
           = Some (string_of_list_byte nodeAddrData))
  ∧ (∀ name, workerNameToInfo_ d !! name = None →
             workerNameToURL_ s' !! name = None).
Proof.
  unfold startImpl. intros Hstart.
  destruct (fetchURLs _ _ _) as [urls|] eqn:Hfetch; [|done].
  simpl in Hstart, Hfetch. simplify_eq. simpl.
  split_and!; [done|done| |].
  - intros name info Hname.
    assert (is_Some (fetchURLs (map_to_list (workerNameToInfo_ d)).*1
                       (<[w_name_ self := list_byte_of_string address]>
                          addressStore) ∅)) as Hsome by (by eexists).
    rewrite fetchURLs_returns in Hsome.
    destruct (Hsome name) as [data Hdata].
    { apply directory_names. by eexists. }
    exists data. split; [done|].
    rewrite (fetchURLs_Some _ _ _ _ Hfetch name), lookup_empty.
    rewrite decide_True by (apply directory_names; by eexists).
    by rewrite Hdata.
  - intros name Hname.
    rewrite (fetchURLs_Some _ _ _ _ Hfetch name), lookup_empty.
    rewrite decide_False; [done|].
    rewrite directory_names, Hname. by intros [? ?].
Qed.

(** X7. The agent finds its own address: the url the listener reported goes
    through the store, as bytes, and comes back as the url of the agent's
    own name. *)
Theorem startImpl_own_address (address : string) (d : Directory)
    (addressStore addressStore' : gmap string (list byte))
    (self info : WorkerInfo) (s' : State) :
  workerNameToInfo_ d !! w_name_ self = Some info →
  startImpl address d addressStore (created self)
  = Some (s', addressStore') →
  findWorkerURL self s' = inr address.
Proof.
  unfold startImpl, findWorkerURL. intros Hself Hstart.
  destruct (fetchURLs _ _ _) as [urls|] eqn:Hfetch; [|done].
  simpl in Hstart, Hfetch. simplify_eq. simpl.
  rewrite (fetchURLs_Some _ _ _ _ Hfetch (w_name_ self)), lookup_empty.
  rewrite decide_True by (apply directory_names; by eexists).
  rewrite lookup_insert_eq. simpl.
  by rewrite string_of_list_byte_of_string.
Qed.

Lemma startImpl_url_known (address : string) (d : Directory)
    (addressStore addressStore' : gmap string (list byte)) (s s' : State)
    (name : string) :
  startImpl address d addressStore s = Some (s', addressStore') →
  is_Some (workerNameToInfo_ d !! name) →
  is_Some (workerNameToURL_ s' !! name).
Proof.
  unfold startImpl. intros Hstart Hname.
  destruct (fetchURLs _ _ _) as [urls|] eqn:Hfetch; [|done].
  simpl in Hstart. simplify_eq. simpl.
  assert (is_Some (fetchURLs (map_to_list (workerNameToInfo_ d)).*1
                     (<[w_name_ (workerInfo_ s)
                        := list_byte_of_string address]> addressStore)
                     (workerNameToURL_ s))) as Hsome by (by eexists).
  rewrite fetchURLs_returns in Hsome.
  destruct (Hsome name) as [data Hdata]; [by apply directory_names|].
  rewrite (fetchURLs_Some _ _ _ _ Hfetch name).
  destruct (workerNameToURL_ s !! name); [by eexists|].
  rewrite decide_True by (by apply directory_names).
  rewrite Hdata. by eexists.
Qed.

End Start.

Section Shm.

Lemma u32_add_inj (n i j : Z) :
  (0 ≤ i < 2 ^ 32)%Z → (0 ≤ j < 2 ^ 32)%Z →
  u32 (n + i) = u32 (n + j) → i = j.
Proof.
  unfold u32. change (2 ^ 32) with 4294967296. intros Hi Hj Heq.
  Z.div_mod_to_equations. lia.
Qed.

Lemma shmAddrs_counter (calls : nat) (threadId : string) (pid n : Z)
    (from : nat) :
  shmAddrs calls threadId pid (u32 (n + Z.of_nat from))
  = (λ i, (createUniqueShmAddr threadId pid (u32 (n + Z.of_nat i))).1)
      <$> seq from calls.
Proof.
  revert from. induction calls as [|calls IH]; intros from; [done|].
  simpl. f_equal. rewrite <- IH. f_equal.
  unfold u32. rewrite Zplus_mod_idemp_l. f_equal. lia.
Qed.

(** X8. The addresses successive calls on a thread return are pairwise
    distinct, as long as the thread's 32-bit counter has not gone round. *)
Theorem shm_addresses_distinct (calls : nat) (threadId : string)
    (pid threadLocalId : Z) :
  (0 ≤ threadLocalId < 2 ^ 32)%Z →
  (Z.of_nat calls ≤ 2 ^ 32)%Z →
  NoDup (shmAddrs calls threadId pid threadLocalId).
Proof.
  intros Hid Hcalls.
  replace threadLocalId with (u32 (threadLocalId + Z.of_nat 0)).
  2:{ unfold u32. rewrite Z.add_0_r. by apply Z.mod_small. }
  rewrite shmAddrs_counter.
  apply NoDup_fmap_2_strong; [|apply NoDup_seq].
  intros i j Hi%elem_of_seq Hj%elem_of_seq Heq. simpl in Heq.
  do 5 apply (inj (String.append _)) in Heq.
  apply (inj pretty) in Heq.
  apply u32_add_inj in Heq; lia.
Qed.

End Shm.

Section Answers.
Context `{External}.

Local Ltac nothing_new :=
  unfold answers; simpl; split_and!; try done;
  exists []; split_and!; [by rewrite app_nil_r|done|done].

Lemma answers_refl s : answers s s.
Proof. nothing_new. Qed.

Lemma answers_trans s1 s2 s3 : answers s1 s2 → answers s2 s3 → answers s1 s3.
Proof.
  intros (Hrun1 & ? & ? & ? & ? & ? & new1 & Hops1 & Hnew1 & Hoff1)
         (? & ? & ? & ? & ? & ? & new2 & Hops2 & Hnew2 & Hoff2).
  unfold answers. split_and!; try congruence.
  exists (new1 ++ new2). split_and!.
  - by rewrite Hops2, Hops1, app_assoc.
  - by apply Forall_app.
  - intros Hoff. rewrite Hoff1, Hoff2; [done|congruence|done].
Qed.

Lemma answers_warn msg s : answers s (warn msg s).
Proof. nothing_new. Qed.

Lemma answers_set_futures v s : answers s (set_futures v s).
Proof. nothing_new. Qed.

Lemma answers_sendCompleted pipe fut messageId s s' :
  sendCompletedResponseMessage pipe fut messageId s = Ok s' → answers s s'.
Proof.
  unfold sendCompletedResponseMessage, pipeWrite. intros Hrun.
  destruct (rpcAgentRunning_ s) eqn:Hrunning; simpl in Hrun.
  - destruct (futures s !! fut) as [f|]; [|done].
    destruct (Future.error f) as [what|]; simplify_eq;
      unfold answers; simpl; (split_and!; try done);
      eexists [_]; (split_and!; [reflexivity| |congruence]);
      by apply Forall_singleton.
  - simplify_eq. apply answers_warn.
Qed.

Lemma answers_runCallbacks cbs s s' :
  runCallbacks cbs s = Ok s' → answers s s'.
Proof.
  revert s. induction cbs as [|[pipe fut messageId] cbs IH]; intros s Hrun.
  - simpl in Hrun. simplify_eq. apply answers_refl.
  - simpl in Hrun.
    destruct (sendCompletedResponseMessage pipe fut messageId s) as [s1|]
      eqn:Hsend; [|done].
    simpl in Hrun. eapply answers_trans; [|by apply IH].
    by eapply answers_sendCompleted.
Qed.

Lemma answers_complete assign fut s s' :
  complete assign fut s = Ok s' → answers s s'.
Proof.
  unfold complete. intros Hrun.
  destruct (futures s !! fut) as [f|]; [|done].
  destruct (assign f) as [r|]; [|done]. simpl in Hrun.
  eapply answers_trans; [|by eapply answers_runCallbacks].
  apply answers_set_futures.
Qed.

Lemma answers_addCallback fut cb s s' :
  addCallback fut cb s = Ok s' → answers s s'.
Proof.
  unfold addCallback. intros Hrun.
  destruct (futures s !! fut) as [f|]; [|done].
  eapply answers_trans; [|by eapply answers_runCallbacks].
  apply answers_set_futures.
Qed.

Lemma answers_flush handles what s s' :
  flush handles what s = Ok s' → answers s s'.
Proof.
  revert s. induction handles as [|fut handles IH]; intros s Hrun.
  - simpl in Hrun. simplify_eq. apply answers_refl.
  - simpl in Hrun. destruct (setError fut what s) as [s1|] eqn:Hset; [|done].
    simpl in Hrun. eapply answers_trans; [|by apply IH].
    by eapply answers_complete.
Qed.

Lemma answers_serve pipe messageId requestMessage s s' :
  serve pipe messageId requestMessage s = Ok s' → answers s s'.
Proof.
  unfold serve, newFuture. intros Hrun.
  destruct (cb_ requestMessage) as [what|outcome]; simpl in Hrun.
  - destruct (setError _ what _) as [s1|] eqn:Hset; [|done].
    simpl in Hrun. apply answers_complete in Hset.
    destruct (futures s1 !! _) as [f|]; [|done].
    eapply answers_trans; [apply answers_set_futures|].
    eapply answers_trans; [exact Hset|].
    destruct (Future.completed f);
      eauto using answers_sendCompleted, answers_addCallback.
  - destruct (_ !! _) as [f|]; [|done].
    eapply answers_trans; [apply answers_set_futures|].
    destruct (Future.completed f);
      eauto using answers_sendCompleted, answers_addCallback.
Qed.

Lemma answers_completeResponse fut responseMessage s s' :
  completeResponse fut responseMessage s = Ok s' → answers s s'.
Proof.
  unfold completeResponse. intros Hrun.
  case_decide; by eapply answers_complete.
Qed.

Lemma answers_runTask t s s' : runTask t s = Ok s' → answers s s'.
Proof.
  destruct t; simpl; eauto using answers_serve, answers_completeResponse.
Qed.

End Answers.

Section Events.
Context `{External}.
Variable showMessageType : MessageType → string.

Abbreviation send := (send showMessageType).
Abbreviation step := (step showMessageType).
Abbreviation run := (run showMessageType).

Lemma entryKept_refl cp : entryKept cp cp.
Proof. by split. Qed.

Lemma persists_refl s s' : connectedPipes_ s' = connectedPipes_ s → persists s s'.
Proof.
  intros Heq w cp Hcp. exists cp. rewrite Heq. split; [done|].
  apply entryKept_refl.
Qed.

Lemma persists_trans s1 s2 s3 :
  persists s1 s2 → persists s2 s3 → persists s1 s3.
Proof.
  intros H12 H23 w cp Hcp.
  destruct (H12 w cp Hcp) as (cp2 & Hcp2 & Hp2 & Hf2).
  destruct (H23 w cp2 Hcp2) as (cp3 & Hcp3 & Hp3 & Hf3).
  exists cp3. split; [done|]. split; [congruence|auto].
Qed.

Lemma persists_alterPipe to g s :
  (∀ cp, entryKept cp (g cp)) → persists s (alterPipe to g s).
Proof.
  intros Hg w cp Hcp. simpl. destruct (decide (to = w)) as [->|Hne].
  - exists (g cp). by rewrite lookup_alter_eq, Hcp.
  - exists cp. rewrite lookup_alter_ne by done. split; [done|].
    apply entryKept_refl.
Qed.

Lemma wiring_alterPipe to g s :
  (∀ cp, entryKept cp (g cp)) → wiring (alterPipe to g s) = wiring s.
Proof.
  intros Hg. unfold wiring. simpl. apply map_eq. intros w.
  rewrite !lookup_fmap. destruct (decide (to = w)) as [->|Hne].
  - rewrite lookup_alter_eq.
    destruct (connectedPipes_ s !! w) as [cp|]; [|done].
    simpl. f_equal. apply Hg.
  - by rewrite lookup_alter_ne.
Qed.

Lemma wiring_answers s s' : answers s s' → wiring s' = wiring s.
Proof. intros (_ & _ & Hcp & _). unfold wiring. by rewrite Hcp. Qed.

(** The inner lambda of [send], whenever it runs to its end. *)
Lemma onResponseRead_frame to error responseMessage s s' :
  onResponseRead to error responseMessage s = Ok s' →
  rpcAgentRunning_ s' = rpcAgentRunning_ s
  ∧ workerNameToURL_ s' = workerNameToURL_ s
  ∧ persists s s'
  ∧ wiring s' = wiring s
  ∧ nextMessageID_ s' = nextMessageID_ s
  ∧ ∃ new, operations s' = operations s ++ new
           ∧ Forall (λ op, isResponseWrite op) new
           ∧ (rpcAgentRunning_ s = false → new = []).
Proof.
  unfold onResponseRead. intros Hrun.
  destruct (connectedPipes_ s !! to) as [clientPipe|]; [|done].
  destruct error as [what|].
  - destruct (flush _ what _) as [s1|] eqn:Hflush; [|done].
    simpl in Hrun. simplify_eq.
    apply answers_flush in Hflush
      as (Hrunning & Hurls & Hcp & Hid & _ & _ & new & Hops & Hnew & Hoff).
    simpl in *. split_and!; [done|done| | |done|by exists new].
    + eapply persists_trans; [apply persists_refl, Hcp|].
      apply persists_alterPipe. by intros cp.
    + rewrite wiring_alterPipe by (by intros cp).
      unfold wiring. by rewrite Hcp.
  - destruct (readError_ clientPipe); [done|].
    destruct (_ !! u64 _) as [fut|]; [|done]. simplify_eq. simpl.
    split_and!; [done|done| | |done|].
    + apply (persists_alterPipe to _ s). by intros cp.
    + apply (wiring_alterPipe to _ s). by intros cp.
    + exists []. by rewrite app_nil_r.
Qed.

Lemma send_frame toWorkerInfo requestMessage s fut s' :
  send toWorkerInfo requestMessage s = inr (fut, s') →
  rpcAgentRunning_ s = true
  ∧ rpcAgentRunning_ s' = true
  ∧ workerNameToURL_ s' = workerNameToURL_ s
  ∧ persists s s'
  ∧ (∃ pipe tpMessage rpcMessage reserved copied,
       operations s'
       = operations s
         ++ [WriteOp pipe tpMessage rpcMessage reserved copied
               (RequestWrittenFn (w_id_ toWorkerInfo) fut)])
  ∧ ((is_Some (connectedPipes_ s !! w_id_ toWorkerInfo)
      ∧ pipes s' = pipes s ∧ wiring s' = wiring s)
     ∨ (connectedPipes_ s !! w_id_ toWorkerInfo = None
        ∧ (∃ url, pipes s' = pipes s ++ [Connected url])
        ∧ wiring s' = <[w_id_ toWorkerInfo := length (pipes s)]> (wiring s))).
Proof.
  unfold send, findWorkerURL. intros Hsend.
  destruct (negb (isRequest requestMessage)); [done|].
  destruct (rpcAgentRunning_ s) eqn:Hrunning; [|done]. simpl in Hsend.
  destruct (workerNameToURL_ s !! w_name_ toWorkerInfo) as [url|]; [|done].
  destruct (connectedPipes_ s !! w_id_ toWorkerInfo) as [clientPipe|]
    eqn:Hcp; simpl in Hsend; simplify_eq; simpl.
  - split_and!; [done|done|done| |by eexists _, _, _, _, _|].
    + intros w cp Hw. simpl.
      destruct (decide (w_id_ toWorkerInfo = w)) as [<-|Hne].
      * eexists. rewrite lookup_insert_eq. split; [done|].
        simplify_eq. by split.
      * exists cp. rewrite lookup_insert_ne by done. split; [done|].
        apply entryKept_refl.
    + left. split_and!; [by eexists|done|].
      unfold wiring. simpl. rewrite fmap_insert. simpl.
      apply insert_id. by rewrite lookup_fmap, Hcp.
  - split_and!; [done|done|done| |by eexists _, _, _, _, _|].
    + intros w cp Hw. simpl.
      destruct (decide (w_id_ toWorkerInfo = w)) as [<-|Hne].
      * congruence.
      * exists cp. rewrite !lookup_insert_ne by done. split; [done|].
        apply entryKept_refl.
    + right. split_and!; [done|by eexists|].
      unfold wiring. simpl. rewrite insert_insert_eq, fmap_insert. done.
Qed.

(** What an event leaves of the configuration, and what it hands to the
    transport. *)
Lemma step_hands e s s' :
  step e s = Ok s' →
  workerNameToURL_ s' = workerNameToURL_ s
  ∧ rpcAgentRunning_ s'
    = match e with Stop => false | _ => rpcAgentRunning_ s end
  ∧ persists s s'
  ∧ ((∀ to m, e ≠ SendCall to m) →
     wiring s' = wiring s ∧ nextMessageID_ s' = nextMessageID_ s)
  ∧ ∃ new, operations s' = operations (after e s) ++ new ∧ hands e s new.
Proof.
  assert (∀ s0, hands e s0 []) as Hnone.
  { intros s0. by left. }
  assert (∀ s1, answers (after e s) s1 →
                (match e with SendCall _ _ | Stop => False | _ => True end) →
                workerNameToURL_ s1 = workerNameToURL_ s
                ∧ rpcAgentRunning_ s1
                  = match e with Stop => false | _ => rpcAgentRunning_ s end
                ∧ persists s s1
                ∧ ((∀ to m, e ≠ SendCall to m) →
                   wiring s1 = wiring s
                   ∧ nextMessageID_ s1 = nextMessageID_ s)
                ∧ ∃ new, operations s1 = operations (after e s) ++ new
                         ∧ hands e s new) as Hanswers.
  { intros s1 (Hon & Hurls & Hcp & Hid & _ & _ & new & Hops & Hnew & Hoff) He.
    assert (connectedPipes_ (after e s) = connectedPipes_ s
            ∧ workerNameToURL_ (after e s) = workerNameToURL_ s
            ∧ rpcAgentRunning_ (after e s) = rpcAgentRunning_ s
            ∧ nextMessageID_ (after e s) = nextMessageID_ s)
      as (Hcp0 & Hurls0 & Hon0 & Hid0).
    { unfold after. by destruct (completes e). }
    split_and!.
    - congruence.
    - destruct e; try done; congruence.
    - apply persists_refl. congruence.
    - intros _. unfold wiring. split; congruence.
    - exists new. split; [done|]. left. split; [done|].
      intros Hoff'. apply Hoff. congruence. }
  intros Hstep.
  destruct e as [to m|n error|n error tpMessage|n error bytes|n error|n
                |fut outcome|]; simpl in Hstep.
  - destruct (send to m s) as [exn|[fut s1]] eqn:Hsend; simplify_eq; simpl.
    + split_and!; [done|done|by apply persists_refl|by intros He; destruct (He to m)|].
      exists []. by rewrite app_nil_r.
    + apply send_frame in Hsend
        as (Hon & Hon' & Hurls & Hkeep & Hops & _).
      split_and!; [done|congruence|done|by intros He; destruct (He to m)|].
      destruct Hops as (pipe & tp & rpc & res & cop & Hops).
      eexists [_]. split; [exact Hops|].
      right. simpl. split; [done|]. by eexists _, _, _, _, _, _.
  - destruct (operations s !! n) as [[]|] eqn:Hn; try done.
    destruct error as [what|]; simplify_eq.
    + apply (Hanswers _ (answers_warn _ _)). done.
    + unfold after. simpl.
      split_and!; [done|done|by apply persists_refl|done|].
      eexists [_; _]. rewrite <- app_assoc. split; [reflexivity|].
      by right.
  - destruct (operations s !! n) as [[|pipe fn| |]|] eqn:Hn; try done.
    unfold onDescriptor in Hstep. destruct error as [what|].
    + destruct fn as [p|to]; simpl in Hstep.
      * simplify_eq. apply (Hanswers _ (answers_warn _ _)). done.
      * apply onResponseRead_frame in Hstep
          as (Hon & Hurls & Hkeep & Hwire & Hid & new & Hops & Hnew & Hoff).
        split_and!; [done|done|done|done|].
        exists new. split; [done|]. by left.
    + case_bool_decide; [|done]. simplify_eq. unfold after. simpl.
      split_and!; [done|done|by apply persists_refl|done|].
      eexists [_]. split; [reflexivity|].
      right. simpl. by eexists _, _, _, _.
  - destruct (operations s !! n) as [[| |pipe tp rpc fn|]|] eqn:Hn; try done.
    unfold onRead in Hstep. destruct fn as [p|to]; simpl in Hstep.
    + simplify_eq. destruct error as [what|].
      * apply (Hanswers _ (answers_warn _ _)). done.
      * unfold after. simpl.
        split_and!; [done|done|by apply persists_refl|done|].
        eexists [_]. split; [reflexivity|].
        right. simpl. by eexists _, _, _, _.
    + apply onResponseRead_frame in Hstep
        as (Hon & Hurls & Hkeep & Hwire & Hid & new & Hops & Hnew & Hoff).
      split_and!; [done|done|done|done|].
      exists new. split; [done|]. by left.
  - destruct (operations s !! n) as [[| | |pipe tp rpc res cop fn]|] eqn:Hn;
      try done.
    unfold callWriteFn in Hstep.
    destruct fn as [| |to fut]; [destruct error; simplify_eq..|].
    1, 3: apply (Hanswers _ (answers_warn _ _)); done.
    1, 2: apply (Hanswers _ (answers_refl _)); done.
    unfold onRequestWritten in Hstep. destruct error as [what|].
    + apply Hanswers; [|done].
      eapply answers_trans; [apply answers_warn|].
      by eapply answers_complete.
    + destruct (connectedPipes_ _ !! to) as [cp|]; [|done].
      simplify_eq. unfold after. simpl.
      split_and!; [done|done|by apply persists_refl|done|].
      eexists [_]. split; [reflexivity|].
      right. simpl. by eexists _, _, _, _, _, _, _, _.
  - destruct (threadPool_ s !! n) as [t|]; [|done].
    apply answers_runTask in Hstep
      as (Hon & Hurls & Hcp & Hid & _ & _ & new & Hops & Hnew & Hoff).
    split_and!; [done|done|by apply persists_refl| |].
    + intros _. unfold wiring. by rewrite Hcp.
    + exists new. split; [done|]. by left.
  - apply Hanswers; [|done].
    destruct outcome; by eapply answers_complete.
  - simplify_eq. simpl.
    split_and!; [done|done|by apply persists_refl|done|].
    exists []. by rewrite app_nil_r.
Qed.

(** X9. Every operation the agent hands to the transport has its cause
    in the event that is being handled: it is the write of a response, and
    then the agent is running, or it is what the event arms, the request
    of a [send], the next accept and the first read after an accept that
    brought a connection, the read of the data after a descriptor, the
    next read of the server after a request, the read of the response
    after a request is written.  Nothing else is handed to the transport,
    and nothing is taken from it but the operation that completes. *)
Theorem every_operation_has_a_cause (e : Event) (s s' : State) :
  step e s = Ok s' →
  ∃ new,
    operations s' = operations (after e s) ++ new
    ∧ ((Forall (λ op, isResponseWrite op) new
        ∧ (rpcAgentRunning_ s = false → new = []))
       ∨ arms e s new).
Proof.
  intros Hstep. by apply step_hands in Hstep as (_ & _ & _ & _ & ?).
Qed.

End Events.

Section Counting.
Context {A : Type} (P : A → bool).

Lemma count_delete (l : list A) (n : nat) (x : A) :
  l !! n = Some x →
  length (filter (λ x, P x) l)
  = (length (filter (λ x, P x) (delete n l)) + (if P x then 1 else 0))%nat.
Proof.
  revert n. induction l as [|y l IH]; intros n Hn; [done|].
  destruct n as [|n]; simpl in Hn.
  - simplify_eq. simpl. rewrite filter_cons.
    destruct (P x); simpl; lia.
  - change (delete (S n) (y :: l)) with (y :: delete n l).
    rewrite !filter_cons. specialize (IH n Hn).
    destruct (decide (P y)); simpl; lia.
Qed.

Lemma count_delete_le (l : list A) (n : nat) :
  (length (filter (λ x, P x) (delete n l))
   ≤ length (filter (λ x, P x) l))%nat.
Proof.
  destruct (l !! n) as [x|] eqn:Hn.
  - rewrite (count_delete l n x Hn). lia.
  - apply lookup_ge_None in Hn.
    by rewrite delete_take_drop, take_ge, drop_ge, app_nil_r by lia.
Qed.

Lemma count_none (l : list A) :
  Forall (λ x, P x = false) l → filter (λ x, P x) l = [].
Proof.
  induction 1 as [|x l Hx _ IH]; [done|].
  rewrite filter_cons_False; [done|]. rewrite Hx. by intros ?.
Qed.

End Counting.

Section Invariants.
Context `{External}.
Variable showMessageType : MessageType → string.

Abbreviation send := (send showMessageType).
Abbreviation step := (step showMessageType).
Abbreviation run := (run showMessageType).

Lemma run_snoc es e s :
  run (es ++ [e]) s = (s1 ← run es s; step e s1).
Proof.
  revert s. induction es as [|e' es IH]; intros s; simpl.
  - by destruct (step e s).
  - destruct (step e' s) as [s1|]; simpl; [apply IH|done].
Qed.

(** An invariant of the steps is an invariant of the runs. *)
Lemma run_invariant (I : State → Prop) :
  (∀ e s s', I s → step e s = Ok s' → I s') →
  ∀ es s s', I s → run es s = Ok s' → I s'.
Proof.
  intros Hstep es. induction es as [|e es IH]; intros s s' Hs Hrun.
  - simpl in Hrun. by simplify_eq.
  - simpl in Hrun. destruct (step e s) as [s1|] eqn:He; [|done].
    simpl in Hrun. eapply IH; [|done]. by eapply Hstep.
Qed.

Lemma run_persists es s s' : run es s = Ok s' → persists s s'.
Proof.
  revert s. induction es as [|e es IH]; intros s Hrun; simpl in Hrun.
  - simplify_eq. by apply persists_refl.
  - destruct (step e s) as [s1|] eqn:He; [|done]. simpl in Hrun.
    eapply persists_trans; [|by apply IH].
    by apply step_hands in He as (_ & _ & ? & _).
Qed.

Lemma run_urls es s s' :
  run es s = Ok s' → workerNameToURL_ s' = workerNameToURL_ s.
Proof.
  apply (run_invariant (λ s1, workerNameToURL_ s1 = workerNameToURL_ s));
    [|done].
  intros e s1 s2 Hs1 (Hurls & _)%step_hands. congruence.
Qed.

(** How an event changes the pipes and the pipe of each peer. *)
Lemma step_wiring e s s' :
  step e s = Ok s' →
  (pipes s' = pipes s ∧ wiring s' = wiring s)
  ∨ (∃ n, e = AcceptDone n None
          ∧ pipes s' = pipes s ++ [Accepted] ∧ wiring s' = wiring s)
  ∨ (∃ to m url,
       e = SendCall to m ∧ wiring s !! w_id_ to = None
       ∧ pipes s' = pipes s ++ [Connected url]
       ∧ wiring s' = <[w_id_ to := length (pipes s)]> (wiring s)).
Proof.
  intros Hstep.
  destruct e as [to m|n error|n error tpMessage|n error bytes|n error|n
                |fut outcome|].
  { simpl in Hstep. destruct (send to m s) as [exn|[fut s1]] eqn:Hsend.
    - simplify_eq. by left.
    - simplify_eq. simpl.
      apply send_frame in Hsend
        as (_ & _ & _ & _ & _ & [(_ & ? & ?)|(Hnone & [url ?] & ?)]).
      + by left.
      + right. right. exists to, m, url. split_and!; try done.
        unfold wiring. by rewrite lookup_fmap, Hnone. }
  { simpl in Hstep. destruct (operations s !! n) as [[]|]; try done.
    destruct error as [what|]; simplify_eq; simpl.
    - by left.
    - right. left. by exists n. }
  all: left; pose proof Hstep as (_ & _ & _ & [Hwire _] & _)%step_hands;
    [done|];
    apply step_settles in Hstep as [(_ & Hpipes & _) _]; [|done..];
    split; [|done]; rewrite Hpipes; unfold after; simpl;
    try done; by destruct (completes _).
Qed.

(** X10. A worker of the directory can be sent to at any time after the
    start: [startImpl] has put the url of its name in the table, no event
    takes it out, and so [send] gets past the lookup of the url: a request
    for it, on a running agent, is accepted. *)
Theorem known_worker_is_reachable (workerNameToId : list (string * Z))
    (address : string) (addressStore addressStore' : gmap string (list byte))
    (self : WorkerInfo) (es : list Event) (s0 s : State)
    (workerName : string) (toWorkerInfo : WorkerInfo)
    (requestMessage : Message) :
  startImpl address (TensorPipeAgent workerNameToId) addressStore
    (created self) = Some (s0, addressStore') →
  run es s0 = Ok s →
  getWorkerInfo workerName (TensorPipeAgent workerNameToId)
  = inr toWorkerInfo →
  isRequest requestMessage = true →
  rpcAgentRunning_ s = true →
  ∃ fut s', send toWorkerInfo requestMessage s = inr (fut, s').
Proof.
  intros Hstart Hrun Hinfo Hreq Hon.
  assert (w_name_ toWorkerInfo = workerName
          ∧ is_Some (workerNameToInfo_ (TensorPipeAgent workerNameToId)
                       !! workerName)) as [Hname Hknown].
  { unfold getWorkerInfo in Hinfo.
    destruct (workerNameToInfo_ _ !! workerName) as [info|] eqn:Hlookup;
      [|done].
    simplify_eq. split; [|by eexists].
    destruct (constructor_loop workerNameToId) as [Hnames _].
    rewrite Hnames in Hlookup.
    destruct (list_to_map workerNameToId !! workerName); [|done].
    simpl in Hlookup. by simplify_eq. }
  destruct (startImpl_url_known _ _ _ _ _ _ workerName Hstart Hknown)
    as [url Hurl].
  rewrite <- (run_urls _ _ _ Hrun), <- Hname in Hurl.
  unfold send, findWorkerURL. rewrite Hreq, Hon, Hurl. simpl.
  destruct (connectedPipes_ s !! w_id_ toWorkerInfo); by eexists _, _.
Qed.

End Invariants.

Section Connections.
Context `{External}.
Variable showMessageType : MessageType → string.

Abbreviation send := (send showMessageType).
Abbreviation step := (step showMessageType).
Abbreviation run := (run showMessageType).

(** X11. A connection, once in [connectedPipes_], stays for the life of the
    agent, on the pipe it was opened with; its errored flag, once set, is
    never cleared, and from then on a read of a response that succeeds on
    it stops on the assertion. *)
Theorem connection_is_permanent (es : list Event) (s s' : State)
    (w : Z) (clientPipe : ClientPipe) :
  run es s = Ok s' →
  connectedPipes_ s !! w = Some clientPipe →
  ∃ clientPipe',
    connectedPipes_ s' !! w = Some clientPipe'
    ∧ pipe_ clientPipe' = pipe_ clientPipe
    ∧ (readError_ clientPipe = true →
       readError_ clientPipe' = true
       ∧ ∀ n pipe tpMessage rpcMessage bytes,
           operations s' !! n
           = Some (ReadOp pipe tpMessage rpcMessage (ResponseFn w)) →
           step (ReadDone n None bytes) s'
           = Abort (InternalAssert "Shouldn't in error state")).
Proof.
  intros Hrun Hcp.
  destruct (run_persists _ _ _ _ Hrun w clientPipe Hcp)
    as (cp' & Hcp' & Hpipe & Hflag).
  exists cp'. split_and!; [done|done|].
  intros Herr. split; [by apply Hflag|].
  intros n pipe tpMessage rpcMessage bytes Hop. simpl. rewrite Hop.
  unfold onRead. simpl. unfold onResponseRead.
  change (connectedPipes_ (completed_op n s')) with (connectedPipes_ s').
  by rewrite Hcp', (Hflag Herr).
Qed.

Lemma wired_step e s s' : wired s → step e s = Ok s' → wired s'.
Proof.
  intros (Hcount & Hopen & Hinj) Hstep. unfold wired, outbound in *.
  destruct (step_wiring _ _ _ _ Hstep)
    as [[-> ->]|[(n & -> & -> & ->)|(to & m & url & -> & Hnew & -> & ->)]].
  - done.
  - split_and!; [|  |done].
    + by rewrite filter_app, length_app, Nat.add_0_r.
    + intros w p Hw. destruct (Hopen w p Hw) as [url Hp].
      exists url. by apply lookup_app_l_Some.
  - split_and!.
    + rewrite filter_app, length_app, map_size_insert_None by done.
      simpl. lia.
    + intros w p. destruct (decide (w_id_ to = w)) as [<-|Hne].
      * rewrite lookup_insert_eq. intros [= <-]. exists url.
        by apply list_lookup_middle.
      * rewrite lookup_insert_ne by done. intros Hw.
        destruct (Hopen w p Hw) as [url' Hp].
        exists url'. by apply lookup_app_l_Some.
    + assert (∀ w p, wiring s !! w = Some p → p ≠ length (pipes s))
        as Hold.
      { intros w p Hw. destruct (Hopen w p Hw) as [url' Hp].
        apply lookup_lt_Some in Hp. lia. }
      intros w1 w2 p.
      destruct (decide (w_id_ to = w1)) as [<-|Hne1];
        destruct (decide (w_id_ to = w2)) as [<-|Hne2]; try done.
      * rewrite lookup_insert_eq, lookup_insert_ne by done.
        intros [= <-] Hw2. by destruct (Hold _ _ Hw2).
      * rewrite lookup_insert_eq, lookup_insert_ne by done.
        intros Hw1 [= <-]. by destruct (Hold _ _ Hw1).
      * rewrite !lookup_insert_ne by done. apply Hinj.
Qed.

(** X12. The agent holds one outbound pipe per peer it has sent to: in every
    state it reaches from its start the pipes it has opened are as many as
    the connections of [connectedPipes_], the pipe of a connection is one
    that [connect] opened, and no two peers share a pipe. *)
Theorem one_pipe_per_peer (self : WorkerInfo) (urls : gmap string string)
    (es : list Event) (s : State) :
  run es (started self urls) = Ok s →
  outbound s = size (connectedPipes_ s)
  ∧ (∀ w clientPipe,
       connectedPipes_ s !! w = Some clientPipe →
       ∃ url, pipes s !! pipe_ clientPipe = Some (Connected url))
  ∧ (∀ w1 w2 clientPipe1 clientPipe2,
       connectedPipes_ s !! w1 = Some clientPipe1 →
       connectedPipes_ s !! w2 = Some clientPipe2 →
       pipe_ clientPipe1 = pipe_ clientPipe2 → w1 = w2).
Proof.
  intros Hrun.
  assert (wired s) as (Hcount & Hopen & Hinj).
  { eapply (run_invariant showMessageType wired); [|  |exact Hrun].
    - intros e s1 s2. apply wired_step.
    - unfold wired, outbound, wiring. simpl. rewrite fmap_empty.
      split_and!; [done| |]; intros ?; intros; by rewrite lookup_empty in *. }
  unfold wiring in *. rewrite map_size_fmap in Hcount.
  split_and!; [done| |].
  - intros w cp Hcp. apply (Hopen w). by rewrite lookup_fmap, Hcp.
  - intros w1 w2 cp1 cp2 H1 H2 Heq. apply (Hinj w1 w2 (pipe_ cp1)).
    + by rewrite lookup_fmap, H1.
    + by rewrite lookup_fmap, H2, Heq.
Qed.

Lemma stopped_step (e : Event) (s0 s1 s2 : State) :
  rpcAgentRunning_ s1 = false
  ∧ nextMessageID_ s1 = nextMessageID_ s0
  ∧ wiring s1 = wiring s0
  ∧ (∀ op, op ∈ operations s1 → isWrite op = true → op ∈ operations s0) →
  step e s1 = Ok s2 →
  rpcAgentRunning_ s2 = false
  ∧ nextMessageID_ s2 = nextMessageID_ s0
  ∧ wiring s2 = wiring s0
  ∧ (∀ op, op ∈ operations s2 → isWrite op = true → op ∈ operations s0).
Proof.
  intros (Hoff & Hid & Hwire & Hops) Hstep.
  destruct (step_hands _ _ _ _ Hstep)
    as (_ & Hon & _ & Hsame & new & Hnew & Hhands).
  assert (∀ op, op ∈ operations (after e s1) → op ∈ operations s1) as Hafter.
  { intros op. unfold after. destruct (completes e); [|done].
    apply list_elem_of_delete_inv. }
  assert (∀ to m, e = SendCall to m → s2 = s1) as Hrefused.
  { intros to m ->. simpl in Hstep.
    destruct (send to m s1) as [exn|[fut s3]] eqn:Hsend; [by simplify_eq|].
    apply send_frame in Hsend as (Hon' & _). congruence. }
  destruct e as [to m|n error|n error tpMessage|n error bytes|n error|n
                |fut outcome|].
  { by rewrite (Hrefused to m eq_refl). }
  all: destruct Hsame as [-> ->]; [done|];
    (split_and!; [congruence|done|done|]);
    intros op; rewrite Hnew; intros [Hin| Hin]%elem_of_app Hwrite;
    [by apply Hops; [apply Hafter|]|]; exfalso;
    destruct Hhands as [[_ Hnone]|Harms];
    [rewrite Hnone in Hin by done; by apply elem_of_nil in Hin|].
  - destruct error; [done|]. simpl in Harms. subst new.
    apply elem_of_cons in Hin as [->|Hin]; [done|].
    apply list_elem_of_singleton in Hin as ->. done.
  - destruct error; [done|]. destruct Harms as (? & ? & ? & ? & _ & ->).
    apply list_elem_of_singleton in Hin as ->. done.
  - destruct error; [done|]. destruct Harms as (? & ? & ? & ? & _ & ->).
    apply list_elem_of_singleton in Hin as ->. done.
  - destruct error; [done|].
    destruct Harms as (? & ? & ? & ? & ? & ? & ? & ? & _ & ->).
    apply list_elem_of_singleton in Hin as ->. done.
  - done.
  - done.
  - done.
Qed.

(** X13. Once the agent is stopped it stays stopped, and from then on it hands
    no write to the transport, assigns no message id, and neither opens a
    connection nor changes the pipe of one. *)
Theorem stopped_agent_writes_nothing (es : list Event) (s s' : State) :
  rpcAgentRunning_ s = false →
  run es s = Ok s' →
  rpcAgentRunning_ s' = false
  ∧ nextMessageID_ s' = nextMessageID_ s
  ∧ wiring s' = wiring s
  ∧ ∀ op, op ∈ operations s' → isWrite op = true → op ∈ operations s.
Proof.
  intros Hoff Hrun.
  eapply (run_invariant showMessageType
            (λ s1, rpcAgentRunning_ s1 = false
                   ∧ nextMessageID_ s1 = nextMessageID_ s
                   ∧ wiring s1 = wiring s
                   ∧ ∀ op, op ∈ operations s1 → isWrite op = true →
                           op ∈ operations s)); [|  |exact Hrun].
  - intros e s1 s2. apply stopped_step.
  - done.
Qed.

End Connections.

Section Inbound.
Context `{External}.
Variable showMessageType : MessageType → string.

Abbreviation step := (step showMessageType).
Abbreviation run := (run showMessageType).

Lemma readsFor_same_fn p pipe pipe' tpMessage rpcMessage fn :
  readsFor p (ReadOp pipe tpMessage rpcMessage fn)
  = readsFor p (ReadDescriptorOp pipe' fn).
Proof. by destruct fn. Qed.

Lemma serverReads_after e s p :
  (serverReads p (after e s) ≤ serverReads p s)%nat.
Proof.
  unfold after, serverReads. destruct (completes e); [|done].
  apply count_delete_le.
Qed.

(** An event leaves the reads of an inbound pipe as many as they were, or
    fewer; the completion of an accept arms one, for the pipe it brings. *)
Lemma serverReads_step e s s' p :
  step e s = Ok s' →
  (serverReads p s' ≤ serverReads p s)%nat
  ∨ (∃ n, e = AcceptDone n None ∧ p = length (pipes s)
          ∧ (serverReads p s' ≤ S (serverReads p s))%nat).
Proof.
  intros Hstep.
  destruct (step_hands _ _ _ _ Hstep) as (_ & _ & _ & _ & new & Hnew & Hhands).
  pose proof (serverReads_after e s p) as Hafter.
  assert (serverReads p s'
          = (serverReads p (after e s)
             + length (filter (λ op, readsFor p op) new))%nat) as Hcount.
  { unfold serverReads. by rewrite Hnew, filter_app, length_app. }
  destruct Hhands as [[Hresp _]|Harms].
  { left. rewrite Hcount, (count_none (readsFor p) new); [simpl; lia|].
    eapply Forall_impl; [exact Hresp|]. intros op Hop. by destruct op. }
  destruct e as [to m|n [what|]|n [what|] tpMessage|n [what|] bytes
                |n [what|]|n|fut outcome|]; try done; simpl in Harms.
  - left. destruct Harms as (_ & ? & ? & ? & ? & ? & ? & ->).
    rewrite Hcount. simpl. lia.
  - subst new. rewrite Hcount, !filter_cons. simpl.
    destruct (decide (length (pipes s) = p)) as [<-|Hne].
    + right. exists n. split_and!; [done|done|].
      rewrite bool_decide_true by done. simpl. lia.
    + left. rewrite bool_decide_false by done. simpl. lia.
  - left. destruct Harms as (pipe & fn & tp & rpc & Hn & ->).
    rewrite Hcount. unfold after, serverReads. simpl.
    rewrite (count_delete (readsFor p) (operations s) n _ Hn).
    rewrite filter_cons, filter_nil.
    rewrite (readsFor_same_fn p pipe pipe tp rpc fn).
    destruct (readsFor p (ReadDescriptorOp pipe fn)); simpl; lia.
  - left. destruct Harms as (pipe & tp & rpc & q & Hn & ->).
    rewrite Hcount. unfold after, serverReads. simpl.
    rewrite (count_delete (readsFor p) (operations s) n _ Hn).
    rewrite filter_cons, filter_nil. simpl.
    destruct (bool_decide (q = p)); simpl; lia.
  - left. destruct Harms as (? & ? & ? & ? & ? & ? & ? & ? & _ & ->).
    rewrite Hcount. simpl. lia.
Qed.

Lemma pipes_step e s s' :
  step e s = Ok s' → (length (pipes s) ≤ length (pipes s'))%nat.
Proof.
  intros Hstep.
  destruct (step_wiring _ _ _ _ Hstep)
    as [[-> _]|[(n & _ & -> & _)|(to & m & url & _ & _ & -> & _)]];
    rewrite ?length_app; simpl; lia.
Qed.

Lemma served_step e s s' : served s → step e s = Ok s' → served s'.
Proof.
  intros Hserved Hstep p. destruct (Hserved p) as [Hone Hnone].
  pose proof (pipes_step _ _ _ Hstep) as Hpipes.
  destruct (serverReads_step _ _ _ p Hstep) as [Hle|(n & -> & -> & Hle)].
  - split; [lia|]. intros Hp. specialize (Hnone ltac:(lia)). lia.
  - specialize (Hnone ltac:(lia)). split; [lia|].
    intros Hp. simpl in Hstep.
    destruct (operations s !! n) as [[]|]; try done. simplify_eq.
    simpl in Hp. rewrite length_app in Hp. simpl in Hp. lia.
Qed.

Lemma served_started self urls : served (started self urls).
Proof. intros p. unfold serverReads. simpl. split; [lia|done]. Qed.

(** X14. The server keeps one read armed per inbound connection, never two: in
    every state the agent reaches from its start, each pipe has at most one
    read outstanding for the handler of the requests, and a pipe that has
    not been handed out yet has none. *)
Theorem one_read_per_inbound_pipe (self : WorkerInfo)
    (urls : gmap string string) (es : list Event) (s : State) (p : nat) :
  run es (started self urls) = Ok s →
  (serverReads p s ≤ 1)%nat
  ∧ ((length (pipes s) ≤ p)%nat → serverReads p s = 0%nat).
Proof.
  intros Hrun. revert p.
  eapply (run_invariant showMessageType served); [|  |exact Hrun].
  - intros e s1 s2. apply served_step.
  - apply served_started.
Qed.

Lemma serverReads_closed es s s' p :
  (p < length (pipes s))%nat → serverReads p s = 0%nat →
  run es s = Ok s' → serverReads p s' = 0%nat.
Proof.
  intros Hp Hzero Hrun.
  eapply (run_invariant showMessageType
            (λ s1, (p < length (pipes s1))%nat ∧ serverReads p s1 = 0%nat));
    [|  |exact Hrun]; [|done].
  intros e s1 s2 [Hp1 Hzero1] Hstep.
  pose proof (pipes_step _ _ _ Hstep) as Hpipes. split; [lia|].
  destruct (serverReads_step _ _ _ p Hstep) as [Hle|(n & _ & -> & _)]; lia.
Qed.

(** X15. When a read of the server fails, the handler logs the error and
    returns: no task is queued and the read is not armed again, so the
    inbound connection is never read from any more. *)
Theorem server_read_error_closes_pipe (self : WorkerInfo)
    (urls : gmap string string) (es : list Event) (s s1 : State) (p : nat)
    (what : string) (e : Event) :
  run es (started self urls) = Ok s →
  serverReadFails s p what e →
  step e s = Ok s1 →
  s1 = warn ("Server read message: " +:+ what) (after e s)
  ∧ serverReads p s1 = 0%nat
  ∧ ∀ es2 s2, run es2 s1 = Ok s2 → serverReads p s2 = 0%nat.
Proof.
  intros Hrun Hfails Hstep.
  assert (served s) as Hserved.
  { eapply (run_invariant showMessageType served); [|  |exact Hrun].
    - intros e' s2 s3. apply served_step.
    - apply served_started. }
  destruct (Hserved p) as [Hone Hnone].
  assert (s1 = warn ("Server read message: " +:+ what) (after e s)
          ∧ ∃ n op, completes e = Some n ∧ operations s !! n = Some op
                    ∧ readsFor p op = true) as (-> & n & op & Hn & Hop & Hp).
  { destruct e as [| |n [w|] tpMessage|n [w|] bytes| | | |]; try done.
    - destruct Hfails as (-> & pipe & Hop). simpl in Hstep.
      rewrite Hop in Hstep. simpl in Hstep. simplify_eq.
      split; [done|]. eexists _, _. split_and!; [done|exact Hop|].
      simpl. by rewrite bool_decide_true.
    - destruct Hfails as (-> & pipe & tp & rpc & Hop). simpl in Hstep.
      rewrite Hop in Hstep. simpl in Hstep. simplify_eq.
      split; [done|]. eexists _, _. split_and!; [done|exact Hop|].
      simpl. by rewrite bool_decide_true. }
  pose proof (count_delete (readsFor p) (operations s) n op Hop) as Hcount.
  rewrite Hp in Hcount. fold (serverReads p s) in Hcount.
  assert (serverReads p (warn ("Server read message: " +:+ what) (after e s))
          = 0%nat) as Hzero.
  { unfold after, serverReads in *. rewrite Hn. simpl. lia. }
  split_and!; [done|done|].
  intros es2 s2 Hrun2. eapply serverReads_closed; [|exact Hzero|exact Hrun2].
  unfold after. rewrite Hn. simpl.
  destruct (decide (p < length (pipes s))%nat) as [|Hge]; [done|].
  specialize (Hnone ltac:(lia)). lia.
Qed.

(** X16. The tasks of the pool, run in any order, as [shutdownImpl] waits for
    them to be: each run takes its task off the pool and queues none, and
    leaves the connections and the outstanding operations alone, handing
    only writes of responses to the transport.  So the pool is empty once
    as many tasks have run as were queued. *)
Theorem tasks_drain (picks : list nat) (s s' : State) :
  run (TaskRun <$> picks) s = Ok s' →
  (length (threadPool_ s') + length picks)%nat = length (threadPool_ s)
  ∧ connectedPipes_ s' = connectedPipes_ s
  ∧ ∃ new, operations s' = operations s ++ new
           ∧ Forall (λ op, isResponseWrite op = true) new.
Proof.
  revert s. induction picks as [|n picks IH]; intros s Hrun; simpl in Hrun.
  - simplify_eq. split_and!; [simpl; lia|done|].
    exists []. by rewrite app_nil_r.
  - destruct (threadPool_ s !! n) as [t|] eqn:Hn; [|done].
    destruct (runTask t _) as [s1|] eqn:Htask; [|done]. simpl in Hrun.
    apply answers_runTask in Htask
      as (_ & _ & Hcp & _ & _ & Hpool & new1 & Hops1 & Hnew1 & _).
    destruct (IH _ Hrun) as (Hlen & Hcp' & new2 & Hops2 & Hnew2).
    simpl in *. split_and!.
    + rewrite Hpool, length_delete in Hlen by done.
      apply lookup_lt_Some in Hn. lia.
    + congruence.
    + exists (new1 ++ new2). split.
      * by rewrite Hops2, Hops1, app_assoc.
      * apply Forall_app. split; [|done].
        eapply Forall_impl; [exact Hnew1|]. intros op.
        apply Is_true_true.
Qed.

End Inbound.

Section Edges.
Context `{External}.
Variable showMessageType : MessageType → string.

Abbreviation send := (send showMessageType).
Abbreviation step := (step showMessageType).
Abbreviation run := (run showMessageType).

(** X17. A request for a worker whose name has no url is refused with
    "Unknown worker name", before anything is done: no connection, no
    handle, no id. *)
Theorem send_to_unknown_worker (toWorkerInfo : WorkerInfo)
    (requestMessage : Message) (s : State) :
  isRequest requestMessage = true →
  rpcAgentRunning_ s = true →
  workerNameToURL_ s !! w_name_ toWorkerInfo = None →
  send toWorkerInfo requestMessage s
  = inl (C10Error ("Unknown worker name: " +:+ w_name_ toWorkerInfo))
  ∧ step (SendCall toWorkerInfo requestMessage) s = Ok s.
Proof.
  intros Hreq Hon Hname. simpl. unfold send, findWorkerURL.
  by rewrite Hreq, Hon, Hname.
Qed.

(** X18. The first request for a peer opens the connection: one pipe, to the
    url of the peer's name; the connection is registered under the peer's
    id, not errored, with the new handle as its only pending one, under the
    id the counter had; the counter moves on by one, and the request, with
    that id, is written on the new pipe. *)
Theorem send_opens_connection (toWorkerInfo : WorkerInfo)
    (requestMessage : Message) (s : State) (url : string) :
  isRequest requestMessage = true →
  rpcAgentRunning_ s = true →
  workerNameToURL_ s !! w_name_ toWorkerInfo = Some url →
  connectedPipes_ s !! w_id_ toWorkerInfo = None →
  let fut := length (futures s) in
  let pipe := length (pipes s) in
  let stamped := setId requestMessage (nextMessageID_ s) in
  ∃ s',
    send toWorkerInfo requestMessage s = inr (fut, s')
    ∧ futures s' = futures s ++ [Future.make]
    ∧ pipes s' = pipes s ++ [Connected url]
    ∧ connectedPipes_ s'
      = <[w_id_ toWorkerInfo :=
            mkClientPipe pipe false {[u64 (nextMessageID_ s) := fut]}]>
          (connectedPipes_ s)
    ∧ nextMessageID_ s' = u64 (nextMessageID_ s + 1)
    ∧ operations s'
      = operations s
        ++ [WriteOp pipe (message (tensorpipeSerialize stamped)) stamped
              (reservedTensors (tensorpipeSerialize stamped))
              (copiedTensors (tensorpipeSerialize stamped))
              (RequestWrittenFn (w_id_ toWorkerInfo) fut)].
Proof.
  intros Hreq Hon Hname Hcp fut pipe stamped. unfold send, findWorkerURL.
  rewrite Hreq, Hon, Hname, Hcp. simpl.
  eexists. split; [reflexivity|]. simpl.
  split_and!; try done. by rewrite insert_insert_eq.
Qed.

(** X19. A response that comes on a connection marked errored, or whose id is
    not in the pending table of the connection, stops the callback on an
    assertion. *)
Theorem unexpected_response_is_fatal (s : State) (n : nat) (pipe : nat)
    (tpMessage : TpMessage) (rpcMessage : Message) (bytes : list byte)
    (to : Z) (clientPipe : ClientPipe) :
  let messageId := u64 (id_ (received bytes rpcMessage)) in
  operations s !! n = Some (ReadOp pipe tpMessage rpcMessage (ResponseFn to)) →
  connectedPipes_ s !! to = Some clientPipe →
  (readError_ clientPipe = true →
   step (ReadDone n None bytes) s
   = Abort (InternalAssert "Shouldn't in error state"))
  ∧ (readError_ clientPipe = false →
     pendingResponseMessage_ clientPipe !! messageId = None →
     step (ReadDone n None bytes) s
     = Abort (InternalAssert
                ("message ID " +:+ pretty messageId
                   +:+ " is not recognized"))).
Proof.
  intros messageId Hop Hcp. simpl. rewrite Hop.
  unfold onRead. simpl. unfold onResponseRead.
  change (connectedPipes_ (completed_op n s)) with (connectedPipes_ s).
  rewrite Hcp. split.
  - by intros ->.
  - intros -> Hid. fold messageId. by rewrite Hid.
Qed.

(** X20. A response takes its entry, and only its entry, out of the pending
    table of its connection; a second response with the same id is then
    not recognized. *)
Theorem response_consumes_entry (s : State) (n : nat) (pipe : nat)
    (tpMessage : TpMessage) (rpcMessage : Message) (bytes : list byte)
    (to : Z) (clientPipe : ClientPipe) (fut : nat) :
  let messageId := u64 (id_ (received bytes rpcMessage)) in
  operations s !! n = Some (ReadOp pipe tpMessage rpcMessage (ResponseFn to)) →
  connectedPipes_ s !! to = Some clientPipe →
  readError_ clientPipe = false →
  pendingResponseMessage_ clientPipe !! messageId = Some fut →
  ∃ s1,
    step (ReadDone n None bytes) s = Ok s1
    ∧ connectedPipes_ s1
      = <[to := mkClientPipe (pipe_ clientPipe) false
                  (delete messageId (pendingResponseMessage_ clientPipe))]>
          (connectedPipes_ s)
    ∧ operations s1 = delete n (operations s)
    ∧ ∀ n' pipe' tpMessage' rpcMessage' bytes',
        operations s1 !! n'
        = Some (ReadOp pipe' tpMessage' rpcMessage' (ResponseFn to)) →
        u64 (id_ (received bytes' rpcMessage')) = messageId →
        step (ReadDone n' None bytes') s1
        = Abort (InternalAssert
                   ("message ID " +:+ pretty messageId
                      +:+ " is not recognized")).
Proof.
  intros messageId Hop Hcp Hflag Hid. simpl. rewrite Hop.
  unfold onRead. simpl. unfold onResponseRead.
  change (connectedPipes_ (completed_op n s)) with (connectedPipes_ s).
  rewrite Hcp, Hflag. fold messageId. rewrite Hid.
  eexists. split; [reflexivity|]. simpl.
  assert (alter
            (λ cp, mkClientPipe (pipe_ cp) (readError_ cp)
                     (delete messageId (pendingResponseMessage_ cp)))
            to (connectedPipes_ s)
          = <[to := mkClientPipe (pipe_ clientPipe) false
                      (delete messageId
                         (pendingResponseMessage_ clientPipe))]>
              (connectedPipes_ s)) as ->.
  { rewrite <- Hflag.
    by apply (alter_alt_Some
                (λ cp, mkClientPipe (pipe_ cp) (readError_ cp)
                         (delete messageId (pendingResponseMessage_ cp)))). }
  split_and!; [done|done|].
  intros n' pipe' tpMessage' rpcMessage' bytes' Hop' Hid'.
  rewrite Hop'. unfold onRead. simpl. unfold onResponseRead. simpl.
  rewrite lookup_alter_eq, Hcp. simpl.
  by rewrite Hflag, Hid', lookup_delete_eq.
Qed.

(** X21. The failure of a read on a connection that has no pending handle
    completes no cell and writes nothing: the callback logs the error and
    marks the connection. *)
Theorem read_failure_on_empty_table (s : State) (to : Z)
    (clientPipe : ClientPipe) (what : string) (e : Event) :
  readFails s to what e →
  connectedPipes_ s !! to = Some clientPipe →
  pendingResponseMessage_ clientPipe = ∅ →
  ∃ s',
    step e s = Ok s'
    ∧ futures s' = futures s
    ∧ operations s' = operations (after e s)
    ∧ threadPool_ s' = threadPool_ s
    ∧ warnings s' = warnings s ++ ["Read response error: " +:+ what]
    ∧ connectedPipes_ s'
      = <[to := mkClientPipe (pipe_ clientPipe) true ∅]> (connectedPipes_ s).
Proof.
  intros Hfails Hcp Hempty.
  assert (∀ n rpcMessage,
            ∃ s', onResponseRead to (Some what) rpcMessage (completed_op n s)
                  = Ok s'
                  ∧ futures s' = futures s
                  ∧ operations s' = operations (completed_op n s)
                  ∧ threadPool_ s' = threadPool_ s
                  ∧ warnings s'
                    = warnings s ++ ["Read response error: " +:+ what]
                  ∧ connectedPipes_ s'
                    = <[to := mkClientPipe (pipe_ clientPipe) true ∅]>
                        (connectedPipes_ s)) as Hcallback.
  { intros n rpcMessage. unfold onResponseRead.
    change (connectedPipes_ (completed_op n s)) with (connectedPipes_ s).
    rewrite Hcp, Hempty, map_to_list_empty. simpl.
    eexists. split; [reflexivity|]. simpl. split_and!; try done.
    by apply (alter_alt_Some (λ cp, mkClientPipe (pipe_ cp) true ∅)). }
  destruct e as [| |n [w|] tpMessage|n [w|] bytes| | | |]; try done.
  - destruct Hfails as (-> & pipe & Hop). simpl. rewrite Hop.
    apply Hcallback.
  - destruct Hfails as (-> & pipe & tpMessage & rpcMessage & Hop). simpl.
    rewrite Hop. apply Hcallback.
Qed.

(** X22. The write of a message holds the message and what the serialization
    reserved and copied for it: it stays with the transport through every
    event but the completion of the write itself. *)
Theorem write_keeps_message_alive (pipe : nat) (rpcMessage : Message)
    (fn : WriteFn) (s : State) :
  let tpEntry := tensorpipeSerialize rpcMessage in
  let write := WriteOp pipe (message tpEntry) rpcMessage
                 (reservedTensors tpEntry) (copiedTensors tpEntry) fn in
  operations (pipeWrite pipe rpcMessage fn s) = operations s ++ [write]
  ∧ ∀ e s1 s2,
      write ∈ operations s1 → step e s1 = Ok s2 →
      write ∈ operations s2
      ∨ ∃ n error, e = WriteDone n error ∧ operations s1 !! n = Some write.
Proof.
  intros tpEntry write. split; [done|].
  intros e s1 s2 Hin Hstep.
  destruct (operation_kept _ _ _ _ _ Hstep Hin) as [?|(n & Hn & Hop)];
    [by left|right].
  destruct e as [| | | |k error| | |]; simpl in Hn, Hstep; simplify_eq;
    rewrite Hop in Hstep; try done.
  by exists n, error.
Qed.

End Edges.

Section Answering.
Context `{External}.
Variable showMessageType : MessageType → string.

Abbreviation step := (step showMessageType).

(** X23. A request whose callback throws, or returns a cell that holds an
    error, is answered at once by an exception response: its payload is
    the text of the error and its id the id of the request. *)
Theorem failure_is_answered_with_its_text (pipe : nat) (messageId : Z)
    (requestMessage : Message) (s : State) (what : string) :
  rpcAgentRunning_ s = true →
  cb_ requestMessage = Throws what
  ∨ cb_ requestMessage = Returns (Some (inl what)) →
  ∃ s',
    serve pipe messageId requestMessage s = Ok s'
    ∧ operations s'
      = operations s
        ++ [responseWrite pipe (createExceptionResponse what messageId)
              ErrorResponseWrittenFn]
    ∧ payload_ (createExceptionResponse what messageId)
      = list_byte_of_string what
    ∧ failed s' (length (futures s)) what.
Proof.
  intros Hon Hcb. unfold serve, newFuture.
  destruct Hcb as [-> | ->]; simpl.
  - rewrite setError_awaiting
      by (unfold awaiting; simpl; apply lookup_new_future).
    simpl. rewrite insert_new_future, lookup_new_future. simpl.
    unfold sendCompletedResponseMessage. simpl.
    rewrite Hon, lookup_new_future. simpl.
    eexists. split; [reflexivity|]. split_and!; [done|done|].
    eexists. split.
    + simpl. rewrite alter_new_future. apply lookup_new_future.
    + done.
  - rewrite lookup_new_future. simpl.
    unfold sendCompletedResponseMessage. simpl.
    rewrite Hon, lookup_new_future. simpl.
    eexists. split; [reflexivity|]. split_and!; [done|done|].
    eexists. split.
    + simpl. rewrite alter_new_future. apply lookup_new_future.
    + done.
Qed.

(** X24. A request whose callback returns a cell that holds a response is
    answered at once by that response, with the id of the request put in
    place of its own.  The response is stamped in the cell and moved from
    it into the write: the cell stays complete, and what it holds
    afterwards is what the move leaves of the stamped response. *)
Theorem value_is_answered_stamped (pipe : nat) (messageId : Z)
    (requestMessage value : Message) (s : State) :
  rpcAgentRunning_ s = true →
  cb_ requestMessage = Returns (Some (inr value)) →
  ∃ s',
    serve pipe messageId requestMessage s = Ok s'
    ∧ operations s'
      = operations s
        ++ [responseWrite pipe (setId value messageId) ResponseWrittenFn]
    ∧ futures s'
      = futures s
        ++ [mkFuture (Value value) (moved (setId value messageId)) []].
Proof.
  intros Hon Hcb. unfold serve, newFuture. rewrite Hcb. simpl.
  rewrite lookup_new_future. simpl.
  unfold sendCompletedResponseMessage. simpl.
  rewrite Hon, lookup_new_future. simpl.
  eexists. split; [reflexivity|]. split; [done|].
  simpl. by rewrite !alter_new_future.
Qed.

(** X25. A request whose callback returns a cell that is not complete is not
    answered by the task: the task leaves on the cell the callback that
    will answer.  When user code completes the cell, and the agent is
    running, the response is written then, and is the one that would have
    been written at once. *)
Theorem deferred_answer_is_sent_on_completion (pipe : nat) (messageId : Z)
    (requestMessage : Message) (s : State) :
  cb_ requestMessage = Returns None →
  let fut := length (futures s) in
  let waiting :=
    mkFuture Incomplete emptyMessage [SendCompleted pipe fut messageId] in
  ∃ s1,
    serve pipe messageId requestMessage s = Ok s1
    ∧ operations s1 = operations s
    ∧ futures s1 = futures s ++ [waiting]
    ∧ ∀ s2 outcome,
        futures s2 !! fut = Some waiting →
        rpcAgentRunning_ s2 = true →
        ∃ s3,
          step (UserDone fut outcome) s2 = Ok s3
          ∧ operations s3
            = operations s2 ++ [deferredWrite pipe messageId outcome].
Proof.
  intros Hcb fut waiting. unfold serve, newFuture. rewrite Hcb. simpl.
  rewrite lookup_new_future. simpl. unfold addCallback. simpl.
  rewrite lookup_new_future. simpl. rewrite insert_new_future.
  eexists. split; [reflexivity|]. split_and!; [done|done|].
  intros s2 outcome Hcell Hon.
  assert (length (futures s) < length (futures s2))%nat as Hlt
    by (by eapply lookup_lt_Some).
  destruct outcome as [what|value]; simpl.
  - unfold setError, complete. fold fut. rewrite Hcell. simpl.
    unfold sendCompletedResponseMessage. simpl.
    rewrite Hon, list_lookup_insert_eq by done. simpl.
    by eexists.
  - unfold markCompleted, complete. fold fut. rewrite Hcell. simpl.
    unfold sendCompletedResponseMessage. simpl.
    rewrite Hon, list_lookup_insert_eq by done. simpl.
    by eexists.
Qed.

(** X26. The text of an error survives the way back: a response of the
    exception kind whose payload is the payload [createExceptionResponse]
    makes of the text [what] fails the handle with [what]. *)
Theorem exception_text_round_trip (s : State) (k : nat) (fut : nat)
    (responseMessage : Message) (what : string) (id : Z) :
  threadPool_ s !! k = Some (CompleteTask fut responseMessage) →
  type_ responseMessage = EXCEPTION →
  payload_ responseMessage = payload_ (createExceptionResponse what id) →
  awaiting s fut →
  ∃ s', step (TaskRun k) s = Ok s' ∧ failed s' fut what.
Proof.
  intros Htask Htype Hpayload Haw. simpl. rewrite Htask. simpl.
  unfold completeResponse. rewrite decide_True by done.
  rewrite Hpayload. simpl. rewrite string_of_list_byte_of_string.
  rewrite setError_awaiting by done.
  eexists. split; [reflexivity|].
  by apply (failed_insert (set_threadPool _ s)).
Qed.

End Answering.

(** * The properties on the concrete environment *)

Section Scenarios.
Import Sample.

Abbreviation send := (send show).
Abbreviation step := (step show).
Abbreviation run := (run show).

Lemma send_refused_without_effect_witness :
  (isRequest notARequest = false ∨ rpcAgentRunning_ start = false)
  ∧ ∃ e, send B notARequest start = inl e
         ∧ step (SendCall B notARequest) start = Ok start
         ∧ e = C10Error
                 "TensorPipeAgent::send(..) is only for sending requests.".
Proof.
  split; [by left|].
  destruct (send_refused_without_effect show B notARequest start)
    as (e & Hsend & Hstep & Hkind & _); [by left|].
  exists e. split_and!; [done|done|]. by apply Hkind.
Defined.

Lemma write_failure_fails_handle_witness :
  let s := reach [SendCall B ping] in
  ∃ s', step (WriteDone 1 (Some "broken pipe")) s = Ok s'
        ∧ failed s' 0 "broken pipe"
        ∧ operations s' = delete 1%nat (operations s)
        ∧ threadPool_ s' = threadPool_ s.
Proof.
  intros s.
  destruct (write_failure_fails_handle show s 1 0
              (message (serialize (setId ping 0))) (setId ping 0) [] [] 1 0
              "broken pipe") as [Hpost Hruns]; [compute_done|].
  destruct Hruns as (s' & Hstep & Hops); [compute_done|].
  destruct (Hpost s' Hstep) as (Hfailed & Hpool & _).
  by exists s'.
Defined.

(** C7. Where the code parts from the claim.  Two requests go out to B,
    [send] returns the handles 0 and 1; the first write completes, the read
    it arms fails and its callback flushes the table: both handles are
    failed with the error of the read.  The write of the second request
    is still outstanding, and its callback holds the handle 1.  When that
    write fails, the callback sets the error on a handle that is complete
    already: it is cut short, the handle is not completed by it and keeps
    the error of the read. *)
Theorem write_failure_after_flush :
  (∃ s1 s2, send B ping start = inr (0%nat, s1)
            ∧ send B ping s1 = inr (1%nat, s2))
  ∧ run severed start = Ok (reach severed)
  ∧ operations (reach severed) !! 1%nat
    = Some (WriteOp 0 (message (serialize (setId ping 1))) (setId ping 1)
              [] [] (RequestWrittenFn 1 1))
  ∧ failed (reach severed) 1 "connection reset"
  ∧ step (WriteDone 1 (Some "broken pipe")) (reach severed)
    = Abort AlreadyCompleted.
Proof.
  split_and!; [|compute_done|compute_done| |compute_done].
  - eexists _, _. split; [vm_compute; reflexivity|].
    vm_compute. reflexivity.
  - eexists. split; [vm_compute; reflexivity|reflexivity].
Qed.

Lemma write_failure_keeps_entry_witness :
  let s := reach [SendCall B ping] in
  ∃ s', step (WriteDone 1 (Some "broken pipe")) s = Ok s'
        ∧ connectedPipes_ s' = connectedPipes_ s
        ∧ (∃ clientPipe',
             connectedPipes_ s' !! 1 = Some clientPipe'
             ∧ pendingResponseMessage_ clientPipe' !! 0 = Some 0%nat)
        ∧ failed s' 0 "broken pipe".
Proof.
  intros s.
  destruct (write_failure_keeps_entry show s 1 0
              (message (serialize (setId ping 0))) (setId ping 0) [] [] 1 0
              "broken pipe" onePending 0) as [Hpost Hruns];
    [compute_done..|].
  destruct Hruns as [s' Hstep]; [compute_done|].
  exists s'. split; [done|]. by apply Hpost.
Defined.

Lemma send_reuses_registered_connection_witness :
  ∃ fut s' clientPipe',
    send B ping (reach severed) = inr (fut, s')
    ∧ pipes s' = pipes (reach severed)
    ∧ connectedPipes_ s' !! 1 = Some clientPipe'
    ∧ pipe_ clientPipe' = 0%nat
    ∧ readError_ clientPipe' = true
    ∧ pendingResponseMessage_ clientPipe' !! u64 2 = Some fut
    ∧ ∃ tpMessage reserved copied,
        operations s'
        = operations (reach severed)
          ++ [WriteOp 0 tpMessage (setId ping 2) reserved copied
                (RequestWrittenFn 1 fut)].
Proof.
  apply (send_reuses_registered_connection show B ping (reach severed)
           (mkClientPipe 0 true ∅) "tcp://127.0.0.1:2"); compute_done.
Defined.

(** C2 as stated does not hold: once the connection to B has failed and
    its two handles are flushed, the next [send] to B opens no connection
    and registers its handle on the failed one. *)
Lemma send_after_failure_reuses_broken_connection :
  ∃ s fut s' clientPipe,
    run severed start = Ok s
    ∧ failed s 0 "connection reset"
    ∧ failed s 1 "connection reset"
    ∧ send B ping s = inr (fut, s')
    ∧ pipes s' = pipes s
    ∧ pipes s' = [Connected "tcp://127.0.0.1:2"]
    ∧ connectedPipes_ s' !! 1 = Some clientPipe
    ∧ pipe_ clientPipe = 0%nat
    ∧ readError_ clientPipe = true
    ∧ pendingResponseMessage_ clientPipe !! 2 = Some fut.
Proof.
  exists (reach severed), 2%nat,
    (reach (severed ++ [SendCall B ping])),
    (mkClientPipe 0 true {[2 := 2%nat]}).
  split_and!; try compute_done.
  - eexists. split; [vm_compute; reflexivity|]. by split.
  - eexists. split; [vm_compute; reflexivity|]. by split.
Qed.

Lemma read_failure_fails_all_pending_witness :
  ∃ s', step severs (reach twoPending) = Ok s'
        ∧ (∀ k fut, pendingResponseMessage_ bothPending !! k = Some fut →
                    failed s' fut "connection reset")
        ∧ ∃ clientPipe', connectedPipes_ s' !! 1 = Some clientPipe'
                         ∧ readError_ clientPipe' = true
                         ∧ pendingResponseMessage_ clientPipe' = ∅
                         ∧ pipe_ clientPipe' = pipe_ bothPending.
Proof.
  destruct (read_failure_fails_all_pending show (reach twoPending) 1
              bothPending "connection reset" severs) as [Hpost Hruns].
  - split; [reflexivity|]. exists 0%nat. compute_done.
  - compute_done.
  - destruct Hruns as [s' Hstep]; [compute_done|compute_done|].
    exists s'. split; [done|]. by apply Hpost.
Defined.

(** C1. Where the code parts from the claim.  The first request to B is
    written and the read for its response armed; the write of the second
    request fails, which completes the handle 1 and leaves it registered.
    The pending table of the connection then registers the handle 0, not
    complete yet, and the handle 1, failed with the error of the write.
    When the armed read fails, the loop of the read-error branch sets the
    error on a handle that is complete already: the callback is cut
    short, so the flag is not set, the table is not cleared, and not
    every registered handle is completed with the error of the read. *)
Theorem read_failure_after_write_failure :
  run writeFailed start = Ok (reach writeFailed)
  ∧ connectedPipes_ (reach writeFailed) !! 1 = Some bothPending
  ∧ awaiting (reach writeFailed) 0
  ∧ failed (reach writeFailed) 1 "broken pipe"
  ∧ operations (reach writeFailed) !! 1%nat
    = Some (ReadDescriptorOp 0 (ResponseFn 1))
  ∧ step (DescriptorDone 1 (Some "connection reset") nothing)
      (reach writeFailed)
    = Abort AlreadyCompleted.
Proof.
  split_and!; [compute_done|compute_done|compute_done| |compute_done
              |compute_done].
  eexists. split; [vm_compute; reflexivity|reflexivity].
Qed.

Lemma response_carries_request_id_witness :
  threadPool_ (onRequestRead 0 None (setId ping 7) start)
  = threadPool_ start ++ [ServeTask 0 7 (setId ping 7)]
  ∧ (∀ s1, ∃ s2 f,
       runTask (ServeTask 0 7 (setId ping 7)) s1 = Ok s2
       ∧ operations s2
         = operations s1
           ++ (if rpcAgentRunning_ s1
               then servedWrites 0 7 (cb_ (setId ping 7)) else [])
       ∧ futures s2 = futures s1 ++ [f]
       ∧ callbacks_ f
         = servedCallbacks 0 (length (futures s1)) 7 (cb_ (setId ping 7)))
  ∧ (∀ fut f s3,
       futures s3 !! fut = Some f →
       ∃ s4,
         runCallback (SendCompleted 0 fut 7) s3 = Ok s4
         ∧ operations s4
           = operations s3
             ++ (if rpcAgentRunning_ s3
                 then [completedWrite 0 7 f] else []))
  ∧ (∀ op,
       op ∈ servedWrites 0 7 (cb_ (setId ping 7))
       ∨ (∃ f, op = completedWrite 0 7 f) →
       ∃ responseMessage fn,
         op = responseWrite 0 responseMessage fn
         ∧ id_ responseMessage = 7
         ∧ (fn = ResponseWrittenFn ∨ fn = ErrorResponseWrittenFn)).
Proof.
  apply (response_carries_request_id 0 (setId ping 7) start). by vm_compute.
Defined.


Lemma message_ids_distinct_witness :
  let es := [SendCall B ping; SendCall C ping; SendCall B ping] in
  NoDup (issued show es start).*1
  ∧ (∀ k w, registered (reach es) k w → (k, w) ∈ issued show es start)
  ∧ ∀ k w1 w2,
      registered (reach es) k w1 → registered (reach es) k w2 → w1 = w2.
Proof.
  apply (message_ids_distinct show A urls
           [SendCall B ping; SendCall C ping; SendCall B ping]).
  - compute_done.
  - by vm_compute.
Defined.

Lemma accept_rearmed_only_after_success_witness :
  let s1 := reach [AcceptDone 0 (Some "listener closed")] in
  (∀ error pipe s0,
     (accepts (onListenerAccepted error pipe s0) = S (accepts s0)
      ↔ error = None)
     ∧ (error ≠ None →
        operations (onListenerAccepted error pipe s0) = operations s0))
  ∧ warnings s1
    = warnings start ++ ["got error from listener: " +:+ "listener closed"]
  ∧ accepts s1 = 0%nat
  ∧ ∀ es2 s2,
      run es2 s1 = Ok s2 →
      accepts s2 = 0%nat
      ∧ inbound s2 = inbound s1
      ∧ ∀ e, e ∈ es2 → ∀ k error, e ≠ AcceptDone k error.
Proof.
  apply (accept_rearmed_only_after_success show A urls [] start 0
           "listener closed"); compute_done.
Defined.

Lemma descriptor_read_allocates_then_reads_witness :
  let s := reach [SendCall B ping; WriteDone 1 None] in
  let rpcMessage := allocate answer in
  let e := DescriptorDone 1 None answer in
  ∃ filledMessage,
    let read := ReadOp 0 filledMessage rpcMessage (ResponseFn 1) in
    step e s = Ok (submit read (completed_op 1 s))
    ∧ tp_data filledMessage = payload_data rpcMessage
    ∧ tp_length filledMessage = tp_length answer
    ∧ length (tp_tensors filledMessage) = length (tensors_ rpcMessage)
    ∧ (∀ i rpcTensor,
         tensors_ rpcMessage !! i = Some rpcTensor →
         ∃ tpTensor,
           tp_tensors answer !! i = Some tpTensor
           ∧ tp_tensors filledMessage !! i
             = Some {| tt_data := data_ptr rpcTensor;
                       tt_length := tt_length tpTensor |})
    ∧ (∀ e' s1 s2,
         read ∈ operations s1 → step e' s1 = Ok s2 →
         read ∈ operations s2
         ∨ ∃ k error bytes, e' = ReadDone k error bytes
                            ∧ operations s1 !! k = Some read)
    ∧ ∀ s1 k error bytes,
        operations s1 !! k = Some read →
        step (ReadDone k error bytes) s1
        = callReadFn (ResponseFn 1) error (received bytes rpcMessage)
            (completed_op k s1).
Proof.
  intros s rpcMessage e.
  refine (proj2 (descriptor_read_allocates_then_reads show s 1 0
                   (ResponseFn 1) answer _) _); compute_done.
Defined.

Lemma getWorkerInfo_by_name_witness :
  getWorkerInfo "B" (TensorPipeAgent workers) = inr B
  ∧ getWorkerInfo "D" (TensorPipeAgent workers)
    = inl (C10Error "Unknown destination worker D").
Proof.
  destruct (getWorkerInfo_by_name workers "B") as [Hfound _];
    [compute_done|].
  destruct (getWorkerInfo_by_name workers "D") as [_ Hmissing];
    [compute_done|].
  split.
  - apply (Hfound 1). compute_done.
  - apply Hmissing. compute_done.
Defined.

Lemma getWorkerInfo_by_id_witness :
  getWorkerInfoById 1 (TensorPipeAgent clashing) = inr B
  ∧ getWorkerInfoById 3 (TensorPipeAgent clashing)
    = inl (C10Error "Unknown destination worker 3").
Proof.
  destruct (getWorkerInfo_by_id clashing 1) as [Hfirst _].
  destruct (getWorkerInfo_by_id clashing 3) as [_ Hmissing].
  split.
  - apply (Hfirst [("A", 0)] "B" [("C", 1)]); compute_done.
  - apply Hmissing. compute_done.
Defined.

Lemma worker_name_id_round_trip_witness :
  getWorkerInfo "C" (TensorPipeAgent workers) = inr C
  ∧ getWorkerInfoById (w_id_ C) (TensorPipeAgent workers) = inr C.
Proof.
  destruct (worker_name_id_round_trip workers) as [Hname _];
    [compute_done..|].
  split; [compute_done|].
  apply (Hname "C" C). compute_done.
Defined.

Lemma getWorkerInfos_all_witness :
  getWorkerInfos (TensorPipeAgent workers) ≡ₚ [A; B; C].
Proof. apply (getWorkerInfos_all workers). compute_done. Defined.

Lemma startImpl_returns_witness :
  is_Some boot
  ∧ ¬ is_Some (startImpl "tcp://127.0.0.1:1" (TensorPipeAgent workers) ∅
                 (created A)).
Proof.
  split.
  - apply startImpl_returns. intros name [info Hname]. simpl.
    destruct (decide (name = "A")) as [->|]; [by left|right].
    destruct (decide (name = "B")) as [->|]; [compute_done|].
    destruct (decide (name = "C")) as [->|]; [compute_done|].
    exfalso. revert Hname.
    change (workerNameToInfo_ (TensorPipeAgent workers))
      with (<["A" := A]> (<["B" := B]> (<["C" := C]> (∅ : gmap string WorkerInfo)))).
    by rewrite !lookup_insert_ne, lookup_empty.
  - rewrite startImpl_returns. intros Hall.
    destruct (Hall "B") as [?|[? ?]]; [compute_done|done|done].
Defined.

Lemma startImpl_fetches_urls_witness :
  stored = <["A" := list_byte_of_string "tcp://127.0.0.1:1"]> published
  ∧ booted = started A (workerNameToURL_ booted)
  ∧ (∀ name info,
       workerNameToInfo_ (TensorPipeAgent workers) !! name = Some info →
       ∃ nodeAddrData,
         stored !! name = Some nodeAddrData
         ∧ workerNameToURL_ booted !! name
           = Some (string_of_list_byte nodeAddrData))
  ∧ (∀ name, workerNameToInfo_ (TensorPipeAgent workers) !! name = None →
             workerNameToURL_ booted !! name = None).
Proof.
  apply (startImpl_fetches_urls "tcp://127.0.0.1:1" (TensorPipeAgent workers)
           published stored A booted).
  compute_done.
Defined.

Lemma startImpl_own_address_witness :
  findWorkerURL A booted = inr "tcp://127.0.0.1:1".
Proof.
  apply (startImpl_own_address "tcp://127.0.0.1:1" (TensorPipeAgent workers)
           published stored A A booted); compute_done.
Defined.

Lemma shm_addresses_distinct_witness :
  NoDup (shmAddrs 3 "7f3a" 4242 (2 ^ 32 - 2)).
Proof. apply shm_addresses_distinct; [compute_done|compute_done]. Defined.

Lemma every_operation_has_a_cause_witness :
  ∃ new,
    operations (reach [AcceptDone 0 None])
    = operations (after (AcceptDone 0 None) start) ++ new
    ∧ ((Forall (λ op, isResponseWrite op) new
        ∧ (rpcAgentRunning_ start = false → new = []))
       ∨ arms (AcceptDone 0 None) start new).
Proof.
  apply (every_operation_has_a_cause show (AcceptDone 0 None) start).
  compute_done.
Defined.

Lemma known_worker_is_reachable_witness :
  ∃ fut s', send C ping (reachFrom booted [SendCall B ping]) = inr (fut, s').
Proof.
  apply (known_worker_is_reachable show workers "tcp://127.0.0.1:1"
           published stored A [SendCall B ping] booted
           (reachFrom booted [SendCall B ping]) "C" C ping); compute_done.
Defined.

Lemma connection_is_permanent_witness :
  ∃ clientPipe',
    connectedPipes_ (reach (severed ++ [WriteDone 1 None])) !! 1
    = Some clientPipe'
    ∧ pipe_ clientPipe' = 0%nat
    ∧ readError_ clientPipe' = true
    ∧ ∀ n pipe tpMessage rpcMessage bytes,
        operations (reach (severed ++ [WriteDone 1 None])) !! n
        = Some (ReadOp pipe tpMessage rpcMessage (ResponseFn 1)) →
        step (ReadDone n None bytes) (reach (severed ++ [WriteDone 1 None]))
        = Abort (InternalAssert "Shouldn't in error state").
Proof.
  destruct (connection_is_permanent show [WriteDone 1 None] (reach severed)
              (reach (severed ++ [WriteDone 1 None])) 1
              (mkClientPipe 0 true ∅))
    as (clientPipe' & Hcp & Hpipe & Hflag); [compute_done..|].
  exists clientPipe'. destruct Hflag as [Hflag Hfatal]; [done|].
  by split_and!.
Defined.

Lemma one_pipe_per_peer_witness :
  let s := reach [SendCall B ping; SendCall C ping; SendCall B ping] in
  outbound s = size (connectedPipes_ s)
  ∧ (∀ w clientPipe,
       connectedPipes_ s !! w = Some clientPipe →
       ∃ url, pipes s !! pipe_ clientPipe = Some (Connected url))
  ∧ (∀ w1 w2 clientPipe1 clientPipe2,
       connectedPipes_ s !! w1 = Some clientPipe1 →
       connectedPipes_ s !! w2 = Some clientPipe2 →
       pipe_ clientPipe1 = pipe_ clientPipe2 → w1 = w2).
Proof.
  apply (one_pipe_per_peer show A urls
           [SendCall B ping; SendCall C ping; SendCall B ping]).
  compute_done.
Defined.

Lemma stopped_agent_writes_nothing_witness :
  let s := reach [SendCall B ping; Stop] in
  let s' := reach [SendCall B ping; Stop; WriteDone 1 None; SendCall C ping] in
  rpcAgentRunning_ s' = false
  ∧ nextMessageID_ s' = nextMessageID_ s
  ∧ wiring s' = wiring s
  ∧ ∀ op, op ∈ operations s' → isWrite op = true → op ∈ operations s.
Proof.
  apply (stopped_agent_writes_nothing show
           [WriteDone 1 None; SendCall C ping]); compute_done.
Defined.

Lemma one_read_per_inbound_pipe_witness :
  let s := reach [AcceptDone 0 None; DescriptorDone 1 None (ask 2)] in
  (serverReads 0 s ≤ 1)%nat
  ∧ ((length (pipes s) ≤ 0)%nat → serverReads 0 s = 0%nat).
Proof.
  apply (one_read_per_inbound_pipe show A urls
           [AcceptDone 0 None; DescriptorDone 1 None (ask 2)]).
  compute_done.
Defined.

Lemma server_read_error_closes_pipe_witness :
  let s := reach [AcceptDone 0 None] in
  let e := DescriptorDone 1 (Some "reset") nothing in
  let s1 := reach [AcceptDone 0 None; e] in
  s1 = warn ("Server read message: " +:+ "reset") (after e s)
  ∧ serverReads 0 s1 = 0%nat
  ∧ ∀ es2 s2, run es2 s1 = Ok s2 → serverReads 0 s2 = 0%nat.
Proof.
  apply (server_read_error_closes_pipe show A urls [AcceptDone 0 None]).
  - compute_done.
  - split; [reflexivity|]. exists 0%nat. compute_done.
  - compute_done.
Defined.

Lemma tasks_drain_witness :
  let s := reach asked in
  let s' := reach (asked ++ [TaskRun 0]) in
  (length (threadPool_ s') + 1)%nat = length (threadPool_ s)
  ∧ connectedPipes_ s' = connectedPipes_ s
  ∧ ∃ new, operations s' = operations s ++ new
           ∧ Forall (λ op, isResponseWrite op = true) new.
Proof.
  apply (tasks_drain show [0%nat]). compute_done.
Defined.

Lemma send_to_unknown_worker_witness :
  send D ping start = inl (C10Error ("Unknown worker name: " +:+ "D"))
  ∧ step (SendCall D ping) start = Ok start.
Proof. apply (send_to_unknown_worker show D ping start); compute_done. Defined.

Lemma send_opens_connection_witness :
  let stamped := setId ping (nextMessageID_ start) in
  ∃ s',
    send B ping start = inr (length (futures start), s')
    ∧ futures s' = futures start ++ [Future.make]
    ∧ pipes s' = pipes start ++ [Connected "tcp://127.0.0.1:2"]
    ∧ connectedPipes_ s'
      = <[w_id_ B :=
            mkClientPipe (length (pipes start)) false
              {[u64 (nextMessageID_ start) := length (futures start)]}]>
          (connectedPipes_ start)
    ∧ nextMessageID_ s' = u64 (nextMessageID_ start + 1)
    ∧ operations s'
      = operations start
        ++ [WriteOp (length (pipes start))
              (message (tensorpipeSerialize stamped)) stamped
              (reservedTensors (tensorpipeSerialize stamped))
              (copiedTensors (tensorpipeSerialize stamped))
              (RequestWrittenFn (w_id_ B) (length (futures start)))].
Proof.
  apply (send_opens_connection show B ping start "tcp://127.0.0.1:2");
    compute_done.
Defined.

Lemma unexpected_response_is_fatal_witness :
  step (ReadDone 1 None [x6f; x6b]) (reach late)
  = Abort (InternalAssert "Shouldn't in error state").
Proof.
  destruct (unexpected_response_is_fatal show (reach late) 1 0
              (fillPointers (allocate answer) answer) (allocate answer)
              [x6f; x6b] 1 (mkClientPipe 0 true ∅)) as [Herrored _];
    [compute_done..|].
  by apply Herrored.
Defined.

Lemma response_consumes_entry_witness :
  ∃ s1,
    step (ReadDone 1 None [x6f; x6b]) (reach answered) = Ok s1
    ∧ connectedPipes_ s1 = {[1 := mkClientPipe 0 false ∅]}
    ∧ operations s1 = [AcceptOp]
    ∧ ∀ n' pipe' tpMessage' rpcMessage' bytes',
        operations s1 !! n'
        = Some (ReadOp pipe' tpMessage' rpcMessage' (ResponseFn 1)) →
        u64 (id_ (received bytes' rpcMessage')) = 0 →
        step (ReadDone n' None bytes') s1
        = Abort (InternalAssert
                   ("message ID " +:+ pretty 0 +:+ " is not recognized")).
Proof.
  apply (response_consumes_entry show (reach answered) 1 0
           (fillPointers (allocate answer) answer) (allocate answer)
           [x6f; x6b] 1 onePending 0); compute_done.
Defined.

Lemma read_failure_on_empty_table_witness :
  let s := reach flushed in
  let e := DescriptorDone 1 (Some "connection reset") nothing in
  ∃ s',
    step e s = Ok s'
    ∧ futures s' = futures s
    ∧ operations s' = operations (after e s)
    ∧ threadPool_ s' = threadPool_ s
    ∧ warnings s'
      = warnings s ++ ["Read response error: " +:+ "connection reset"]
    ∧ connectedPipes_ s'
      = <[1 := mkClientPipe 0 true ∅]> (connectedPipes_ s).
Proof.
  apply (read_failure_on_empty_table show (reach flushed) 1
           (mkClientPipe 0 true ∅) "connection reset").
  - split; [reflexivity|]. exists 0%nat. compute_done.
  - compute_done.
  - compute_done.
Defined.

Lemma failure_is_answered_with_its_text_witness :
  ∃ s',
    serve 0 7 (request []) start = Ok s'
    ∧ operations s'
      = operations start
        ++ [responseWrite 0 (createExceptionResponse "division by zero" 7)
              ErrorResponseWrittenFn]
    ∧ payload_ (createExceptionResponse "division by zero" 7)
      = list_byte_of_string "division by zero"
    ∧ failed s' (length (futures start)) "division by zero".
Proof.
  apply (failure_is_answered_with_its_text 0 7 (request []) start
           "division by zero"); [compute_done|by left].
Defined.

Lemma value_is_answered_stamped_witness :
  ∃ s',
    serve 0 7 ping start = Ok s'
    ∧ operations s'
      = operations start
        ++ [responseWrite 0 (setId echoed 7) ResponseWrittenFn]
    ∧ futures s'
      = futures start
        ++ [mkFuture (Value echoed) (moved (setId echoed 7)) []].
Proof.
  apply (value_is_answered_stamped 0 7 ping echoed start); compute_done.
Defined.

Lemma deferred_answer_is_sent_on_completion_witness :
  let waiting := mkFuture Incomplete emptyMessage [SendCompleted 0 0 7] in
  ∃ s1,
    serve 0 7 (request [x00]) start = Ok s1
    ∧ operations s1 = operations start
    ∧ futures s1 = futures start ++ [waiting]
    ∧ ∀ s2 outcome,
        futures s2 !! 0%nat = Some waiting →
        rpcAgentRunning_ s2 = true →
        ∃ s3,
          step (UserDone 0 outcome) s2 = Ok s3
          ∧ operations s3 = operations s2 ++ [deferredWrite 0 7 outcome].
Proof.
  apply (deferred_answer_is_sent_on_completion show 0 7 (request [x00])
           start). compute_done.
Defined.

Lemma exception_text_round_trip_witness :
  ∃ s', step (TaskRun 0) (reach refused) = Ok s' ∧ failed s' 0 "oops".
Proof.
  apply (exception_text_round_trip show (reach refused) 0 0
           (received [x6f; x6f; x70; x73] (allocate refusal)) "oops" 0);
    compute_done.
Defined.

End Scenarios.

(** An allocation with fewer tensors than the descriptor announces stops
    the callback: no read is issued, the continuation is not called. *)
Example tensor_num_mismatch_is_fatal :
  step (H := Sample.careless) Sample.show
    (DescriptorDone 1 None Sample.answer)
    (Sample.reach [SendCall Sample.B Sample.ping; WriteDone 1 None])
  = Abort (InternalAssert "Tensor num mismatch").
Proof. compute_done. Qed.

(** The user callback throws on a request with id 3: the server loop
    answers with an exception response that carries the text and the id. *)
Example thrown_failure_is_answered :
  last (operations
          (Sample.reach [AcceptDone 0 None;
                         DescriptorDone 1 None (Sample.ask 0);
                         ReadDone 1 None []; TaskRun 0]))
  = let response := createExceptionResponse "division by zero" 3 in
    Some (WriteOp 0 (message (Sample.serialize response)) response [] []
            ErrorResponseWrittenFn).
Proof. compute_done. Qed.

(** The user callback leaves its cell incomplete: nothing is written until
    user code completes the cell, and then the response carries the id of
    the request. *)
Example deferred_response_is_stamped :
  let es := [AcceptDone 0 None; DescriptorDone 1 None (Sample.ask 2);
             ReadDone 1 None [x00; x01]; TaskRun 0] in
  operations (Sample.reach es) = [AcceptOp; ReadDescriptorOp 0 (RespondFn 0)]
  ∧ last (operations (Sample.reach (es ++ [UserDone 0 (inr Sample.ping)])))
    = Some (WriteOp 0 (message (Sample.serialize (setId Sample.ping 3)))
              (setId Sample.ping 3) [] [] ResponseWrittenFn).
Proof. split; compute_done. Qed.

(** An exception response completes the caller's handle with the text of
    its payload. *)
Example remote_exception_fails_handle :
  futures
    (Sample.reach
       [SendCall Sample.B Sample.ping; WriteDone 1 None;
        DescriptorDone 1 None Sample.oops;
        ReadDone 1 None (list_byte_of_string "division by zero"); TaskRun 0])
  = [mkFuture (Error "division by zero") emptyMessage []].
Proof. compute_done. Qed.
